(** * A red-black tree set with parent links and a shared sentinel

    Shallow embedding of [rbtree.cpp]: the node graph lives in an explicit
    store (a finite map from addresses to node records), the container is a
    record of the five private fields of [Set], and every member function is
    a function on these states.  Loops take a fuel argument and return
    [None] when it runs out.  The element type is instantiated at the
    integers with their usual strict order. *)

From Stdlib Require Import ZArith Lia.
From stdpp Require Import gmap list sorting.

Local Open Scope nat_scope.

(** ** Nodes and the store *)

Abbreviation ptr := positive.

Inductive NodeColor := BLACK | RED.

Record Node := mkNode {
  data : Z;
  color : NodeColor;
  left : ptr;
  right : ptr;
  parent : ptr
}.

#[global] Instance Node_inhabited : Inhabited Node :=
  populate (mkNode 0%Z BLACK 1%positive 1%positive 1%positive).

Abbreviation heap := (gmap positive Node).

Definition is_red (c : NodeColor) : bool :=
  match c with RED => true | BLACK => false end.

Definition is_black (c : NodeColor) : bool :=
  match c with BLACK => true | RED => false end.

Definition with_color (c : NodeColor) (n : Node) : Node :=
  mkNode (data n) c (left n) (right n) (parent n).
Definition with_left (p : ptr) (n : Node) : Node :=
  mkNode (data n) (color n) p (right n) (parent n).
Definition with_right (p : ptr) (n : Node) : Node :=
  mkNode (data n) (color n) (left n) p (parent n).
Definition with_parent (p : ptr) (n : Node) : Node :=
  mkNode (data n) (color n) (left n) (right n) p.

(** ** Node navigation: [minimum], [maximum], [next], [prev] *)

Fixpoint minimum (fuel : nat) (h : heap) (terminal x : ptr) : option ptr :=
  match fuel with
  | O => None
  | S f =>
      if negb (left (h !!! x) =? terminal)%positive
      then minimum f h terminal (left (h !!! x))
      else Some x
  end.

Fixpoint maximum (fuel : nat) (h : heap) (terminal x : ptr) : option ptr :=
  match fuel with
  | O => None
  | S f =>
      if negb (right (h !!! x) =? terminal)%positive
      then maximum f h terminal (right (h !!! x))
      else Some x
  end.

(** The climbing loops of [next] and [prev]: [x] is the candidate, [y] the
    node the climb came from. *)
Fixpoint next_climb (fuel : nat) (h : heap) (terminal x y : ptr) : option ptr :=
  match fuel with
  | O => None
  | S f =>
      if negb (x =? terminal)%positive && (y =? right (h !!! x))%positive
      then next_climb f h terminal (parent (h !!! x)) x
      else Some x
  end.

Fixpoint prev_climb (fuel : nat) (h : heap) (terminal x y : ptr) : option ptr :=
  match fuel with
  | O => None
  | S f =>
      if negb (x =? terminal)%positive && (y =? left (h !!! x))%positive
      then prev_climb f h terminal (parent (h !!! x)) x
      else Some x
  end.

Definition next (fuel : nat) (h : heap) (terminal this : ptr) : option ptr :=
  if negb (right (h !!! this) =? terminal)%positive
  then minimum fuel h terminal (right (h !!! this))
  else next_climb fuel h terminal (parent (h !!! this)) this.

Definition prev (fuel : nat) (h : heap) (terminal this : ptr) : option ptr :=
  if negb (left (h !!! this) =? terminal)%positive
  then maximum fuel h terminal (left (h !!! this))
  else prev_climb fuel h terminal (parent (h !!! this)) this.

(** ** The container *)

Record Set_ := mkSet {
  mem : heap;
  terminal_ : ptr;
  root_ : ptr;
  size_ : nat;
  head_ : ptr;
  tail_ : ptr
}.

Record SetIterator := mkIter { current : ptr }.

Notation "s .[ p ]" := (mem s !!! p) (at level 1, left associativity, format "s .[ p ]").

Definition store (p : ptr) (n : Node) (s : Set_) : Set_ :=
  mkSet (<[p := n]> (mem s)) (terminal_ s) (root_ s) (size_ s) (head_ s) (tail_ s).

Definition set_color (p : ptr) (c : NodeColor) (s : Set_) : Set_ :=
  store p (with_color c (s.[p])) s.
Definition set_left (p q : ptr) (s : Set_) : Set_ :=
  store p (with_left q (s.[p])) s.
Definition set_right (p q : ptr) (s : Set_) : Set_ :=
  store p (with_right q (s.[p])) s.
Definition set_parent (p q : ptr) (s : Set_) : Set_ :=
  store p (with_parent q (s.[p])) s.

Definition set_root (r : ptr) (s : Set_) : Set_ :=
  mkSet (mem s) (terminal_ s) r (size_ s) (head_ s) (tail_ s).
Definition set_size (n : nat) (s : Set_) : Set_ :=
  mkSet (mem s) (terminal_ s) (root_ s) n (head_ s) (tail_ s).
Definition set_head (p : ptr) (s : Set_) : Set_ :=
  mkSet (mem s) (terminal_ s) (root_ s) (size_ s) p (tail_ s).
Definition set_tail (p : ptr) (s : Set_) : Set_ :=
  mkSet (mem s) (terminal_ s) (root_ s) (size_ s) (head_ s) p.

(** [new Node(...)]: the allocator hands out an address that is not in use. *)
Definition alloc (n : Node) (s : Set_) : ptr * Set_ :=
  let p := fresh (dom (mem s)) in (p, store p n s).

(** [delete(z)] *)
Definition free (z : ptr) (s : Set_) : Set_ :=
  mkSet (delete z (mem s)) (terminal_ s) (root_ s) (size_ s) (head_ s) (tail_ s).

(** [Set()] *)
Definition new_set : Set_ :=
  let t : ptr := fresh (dom (∅ : heap)) in
  mkSet {[ t := mkNode 0%Z BLACK t t t ]} t t 0 t t.

Definition begin_ (s : Set_) : SetIterator := mkIter (head_ s).
Definition end_ (s : Set_) : SetIterator := mkIter (terminal_ s).

(** [operator==] of cursors *)
Definition iter_eqb (a b : SetIterator) : bool := (current a =? current b)%positive.

Definition size (s : Set_) : nat := size_ s.
Definition empty (s : Set_) : bool := Nat.eqb (size s) 0.

(** ** Structural primitives *)

Definition transplant (x y : ptr) (s : Set_) : Set_ :=
  let s :=
    if (parent (s.[x]) =? terminal_ s)%positive then set_root y s
    else if (x =? left (s.[parent (s.[x])]))%positive
         then set_left (parent (s.[x])) y s
         else set_right (parent (s.[x])) y s in
  set_parent y (parent (s.[x])) s.

Definition left_rotate (x : ptr) (s : Set_) : Set_ :=
  let y := right (s.[x]) in
  let s := set_right x (left (s.[y])) s in
  let s := if negb (left (s.[y]) =? terminal_ s)%positive
           then set_parent (left (s.[y])) x s else s in
  let s := if negb (y =? terminal_ s)%positive
           then set_parent y (parent (s.[x])) s else s in
  let s :=
    if (parent (s.[x]) =? terminal_ s)%positive then set_root y s
    else if (x =? left (s.[parent (s.[x])]))%positive
         then set_left (parent (s.[x])) y s
         else set_right (parent (s.[x])) y s in
  let s := set_left y x s in
  if negb (x =? terminal_ s)%positive then set_parent x y s else s.

Definition right_rotate (x : ptr) (s : Set_) : Set_ :=
  let y := left (s.[x]) in
  let s := set_left x (right (s.[y])) s in
  let s := if negb (right (s.[y]) =? terminal_ s)%positive
           then set_parent (right (s.[y])) x s else s in
  let s := if negb (y =? terminal_ s)%positive
           then set_parent y (parent (s.[x])) s else s in
  let s :=
    if (parent (s.[x]) =? terminal_ s)%positive then set_root y s
    else if (x =? right (s.[parent (s.[x])]))%positive
         then set_right (parent (s.[x])) y s
         else set_left (parent (s.[x])) y s in
  let s := set_right y x s in
  if negb (x =? terminal_ s)%positive then set_parent x y s else s.

(** ** Insertion *)

(** One round of the [while] loop of [insert_fix_up]; [loop] stands for
    the remaining rounds. *)
Definition insert_fix_up_round (loop : ptr → Set_ → option Set_)
    (x : ptr) (s : Set_) : option Set_ :=
    if is_red (color (s.[parent (s.[x])])) then
      if (parent (s.[x]) =? left (s.[parent (s.[parent (s.[x])])]))%positive then
        let y := right (s.[parent (s.[parent (s.[x])])]) in
        if is_red (color (s.[y])) then
          let s := set_color (parent (s.[x])) BLACK s in
          let s := set_color y BLACK s in
          let s := set_color (parent (s.[parent (s.[x])])) RED s in
          loop (parent (s.[parent (s.[x])])) s
        else
          let '(x, s) :=
            if (x =? right (s.[parent (s.[x])]))%positive
            then let x := parent (s.[x]) in (x, left_rotate x s)
            else (x, s) in
          let s := set_color (parent (s.[x])) BLACK s in
          let s := set_color (parent (s.[parent (s.[x])])) RED s in
          let s := right_rotate (parent (s.[parent (s.[x])])) s in
          loop x s
      else
        let y := left (s.[parent (s.[parent (s.[x])])]) in
        if is_red (color (s.[y])) then
          let s := set_color (parent (s.[x])) BLACK s in
          let s := set_color y BLACK s in
          let s := set_color (parent (s.[parent (s.[x])])) RED s in
          loop (parent (s.[parent (s.[x])])) s
        else
          let '(x, s) :=
            if (x =? left (s.[parent (s.[x])]))%positive
            then let x := parent (s.[x]) in (x, right_rotate x s)
            else (x, s) in
          let s := set_color (parent (s.[x])) BLACK s in
          let s := set_color (parent (s.[parent (s.[x])])) RED s in
          let s := left_rotate (parent (s.[parent (s.[x])])) s in
          loop x s
    else Some (set_color (root_ s) BLACK s).

Fixpoint insert_fix_up (fuel : nat) (x : ptr) (s : Set_) : option Set_ :=
  match fuel with
  | O => None
  | S f => insert_fix_up_round (insert_fix_up f) x s
  end.

(** Outcome of the search loop of [insert]: the value is already stored
    (the early [return]), or the loop fell off the tree below [y]. *)
Inductive descent := Found | Attach (y : ptr).

Fixpoint insert_descend (fuel : nat) (h : heap) (terminal : ptr) (value : Z)
    (y x : ptr) : option descent :=
  match fuel with
  | O => None
  | S f =>
    if negb (x =? terminal)%positive then
      if (value <? data (h !!! x))%Z
      then insert_descend f h terminal value x (left (h !!! x))
      else if (data (h !!! x) <? value)%Z
      then insert_descend f h terminal value x (right (h !!! x))
      else Some Found
    else Some (Attach y)
  end.

(** The statements of [insert] between the search loop and the call of
    [insert_fix_up]: allocation of [z] below [y], update of the cached
    bounds, linking and counting. *)
Definition insert_link (value : Z) (y : ptr) (s : Set_) : ptr * Set_ :=
  let '(z, s) := alloc (mkNode value RED (terminal_ s) (terminal_ s) y) s in
  let s := if (head_ s =? terminal_ s)%positive || (value <? data (s.[head_ s]))%Z
           then set_head z s else s in
  let s := if (tail_ s =? terminal_ s)%positive || (data (s.[tail_ s]) <? value)%Z
           then set_tail z s else s in
  let s := if (y =? terminal_ s)%positive then set_root z s
           else if (value <? data (s.[y]))%Z then set_left y z s
           else set_right y z s in
  let s := set_size (S (size_ s)) s in
  (z, s).

Definition insert (fuel : nat) (value : Z) (s : Set_) : option Set_ :=
  match insert_descend fuel (mem s) (terminal_ s) value (terminal_ s) (root_ s) with
  | None => None
  | Some Found => Some s
  | Some (Attach y) =>
    let '(z, s) := insert_link value y s in
    insert_fix_up fuel z s
  end.

(** ** Lookup *)

Fixpoint find_loop (fuel : nat) (h : heap) (terminal : ptr) (value : Z)
    (current : ptr) : option ptr :=
  match fuel with
  | O => None
  | S f =>
    if negb (current =? terminal)%positive then
      if (value <? data (h !!! current))%Z
      then find_loop f h terminal value (left (h !!! current))
      else if (data (h !!! current) <? value)%Z
      then find_loop f h terminal value (right (h !!! current))
      else Some current
    else Some current
  end.

Definition find (fuel : nat) (value : Z) (s : Set_) : option SetIterator :=
  mkIter <$> find_loop fuel (mem s) (terminal_ s) value (root_ s).

Fixpoint lower_bound_loop (fuel : nat) (h : heap) (terminal : ptr) (value : Z)
    (res current : ptr) : option ptr :=
  match fuel with
  | O => None
  | S f =>
    if negb (current =? terminal)%positive then
      if (data (h !!! current) <? value)%Z
      then lower_bound_loop f h terminal value res (right (h !!! current))
      else if (value <? data (h !!! current))%Z
      then
        let res :=
          if (res =? terminal)%positive
             || (data (h !!! current) <? data (h !!! res))%Z
          then current else res in
        lower_bound_loop f h terminal value res (left (h !!! current))
      else Some current
    else Some res
  end.

Definition lower_bound (fuel : nat) (value : Z) (s : Set_) : option SetIterator :=
  mkIter <$> lower_bound_loop fuel (mem s) (terminal_ s) value (terminal_ s) (root_ s).

(** ** Erasure *)

(** One round of the [while] loop of [erase_fix_up]; [loop] stands for the
    remaining rounds. *)
Definition erase_fix_up_round (loop : ptr → Set_ → option Set_)
    (x : ptr) (s : Set_) : option Set_ :=
    if negb (x =? root_ s)%positive && is_black (color (s.[x])) then
      if (x =? left (s.[parent (s.[x])]))%positive then
        let w := right (s.[parent (s.[x])]) in
        let '(w, s) :=
          if is_red (color (s.[w])) then
            let s := set_color w BLACK s in
            let s := set_color (parent (s.[x])) RED s in
            let s := left_rotate (parent (s.[x])) s in
            (right (s.[parent (s.[x])]), s)
          else (w, s) in
        if is_black (color (s.[left (s.[w])])) && is_black (color (s.[right (s.[w])])) then
          let s := set_color w RED s in
          loop (parent (s.[x])) s
        else
          let '(w, s) :=
            if is_black (color (s.[right (s.[w])])) then
              let s := set_color (left (s.[w])) BLACK s in
              let s := set_color w RED s in
              let s := right_rotate w s in
              (right (s.[parent (s.[x])]), s)
            else (w, s) in
          let s := set_color w (color (s.[parent (s.[x])])) s in
          let s := set_color (parent (s.[x])) BLACK s in
          let s := set_color (right (s.[w])) BLACK s in
          let s := left_rotate (parent (s.[x])) s in
          loop (root_ s) s
      else
        let w := left (s.[parent (s.[x])]) in
        let '(w, s) :=
          if is_red (color (s.[w])) then
            let s := set_color w BLACK s in
            let s := set_color (parent (s.[x])) RED s in
            let s := right_rotate (parent (s.[x])) s in
            (left (s.[parent (s.[x])]), s)
          else (w, s) in
        if is_black (color (s.[right (s.[w])])) && is_black (color (s.[left (s.[w])])) then
          let s := set_color w RED s in
          loop (parent (s.[x])) s
        else
          let '(w, s) :=
            if is_black (color (s.[left (s.[w])])) then
              let s := set_color (right (s.[w])) BLACK s in
              let s := set_color w RED s in
              let s := left_rotate w s in
              (left (s.[parent (s.[x])]), s)
            else (w, s) in
          let s := set_color w (color (s.[parent (s.[x])])) s in
          let s := set_color (parent (s.[x])) BLACK s in
          let s := set_color (left (s.[w])) BLACK s in
          let s := right_rotate (parent (s.[x])) s in
          loop (root_ s) s
    else Some (set_color x BLACK s).

Fixpoint erase_fix_up (fuel : nat) (x : ptr) (s : Set_) : option Set_ :=
  match fuel with
  | O => None
  | S f => erase_fix_up_round (erase_fix_up f) x s
  end.

(** [erase(iterator)], in the order of the source: the cached bounds ... *)
Definition erase_bounds (fuel : nat) (z : ptr) (s : Set_) : option Set_ :=
  s ← (if (head_ s =? z)%positive
       then h ← next fuel (mem s) (terminal_ s) (head_ s); Some (set_head h s)
       else Some s);
  if (tail_ s =? z)%positive
  then t ← prev fuel (mem s) (terminal_ s) (tail_ s); Some (set_tail t s)
  else Some s.

(** ... the removal of [z] from the tree, giving [original_color], [x] and
    the new state; [erase_splice] is the branch for a node [z] with two
    children, [y] being the minimum of its right subtree ... *)
Definition erase_splice (z y : ptr) (s : Set_) : NodeColor * ptr * Set_ :=
  let original_color := color (s.[y]) in
  let x := right (s.[y]) in
  let s :=
    if (parent (s.[y]) =? z)%positive then set_parent x y s
    else
      let s := transplant y (right (s.[y])) s in
      let s := set_right y (right (s.[z])) s in
      set_parent (right (s.[y])) y s in
  let s := transplant z y s in
  let s := set_left y (left (s.[z])) s in
  let s := set_parent (left (s.[y])) y s in
  let s := set_color y (color (s.[z])) s in
  (original_color, x, s).

Definition erase_unlink (fuel : nat) (z : ptr) (s : Set_)
    : option (NodeColor * ptr * Set_) :=
  if (left (s.[z]) =? terminal_ s)%positive then
    let x := right (s.[z]) in
    Some (color (s.[z]), x, transplant z (right (s.[z])) s)
  else if (right (s.[z]) =? terminal_ s)%positive then
    let x := left (s.[z]) in
    Some (color (s.[z]), x, transplant z (left (s.[z])) s)
  else
    y ← minimum fuel (mem s) (terminal_ s) (right (s.[z]));
    Some (erase_splice z y s).

(** ... and the repair, the count and the release of the node. *)
Definition erase_at (fuel : nat) (old_node : SetIterator) (s : Set_) : option Set_ :=
  if iter_eqb old_node (end_ s) then Some s else
  let z := current old_node in
  s ← erase_bounds fuel z s;
  r ← erase_unlink fuel z s;
  let '(original_color, x, s) := r in
  s ← (if is_black original_color then erase_fix_up fuel x s else Some s);
  let s := set_size (pred (size_ s)) s in
  Some (free z s).

(** [erase(const ValueType&)] *)
Definition erase (fuel : nat) (value : Z) (s : Set_) : option Set_ :=
  it ← find fuel value s; erase_at fuel it s.

(** ** The iterator *)

(** [operator++] and [operator--]; the cursor reads [terminal_] and [tail_]
    through its container pointer, here the state [s]. *)
Definition incr (fuel : nat) (s : Set_) (it : SetIterator) : option SetIterator :=
  mkIter <$> next fuel (mem s) (terminal_ s) (current it).

Definition decr (fuel : nat) (s : Set_) (it : SetIterator) : option SetIterator :=
  if (current it =? terminal_ s)%positive then Some (mkIter (tail_ s))
  else mkIter <$> prev fuel (mem s) (terminal_ s) (current it).

(** [operator*] *)
Definition deref (s : Set_) (it : SetIterator) : Z := data (s.[current it]).


(** The loop [for (it = begin(); it != end(); ++it) out.push_back( *it )];
    [n] bounds the number of rounds, [fuel] is handed to [operator++]. *)
Fixpoint iterate_from (n fuel : nat) (s : Set_) (it : SetIterator) : option (list Z) :=
  match n with
  | O => None
  | S n' =>
    if negb (iter_eqb it (end_ s)) then
      it' ← incr fuel s it;
      rest ← iterate_from n' fuel s it';
      Some (deref s it :: rest)
    else Some []
  end.

Definition to_list (fuel : nat) (s : Set_) : option (list Z) :=
  iterate_from fuel fuel s (begin_ s).

(** ** Running a sequence of operations *)

Inductive op := Insert (v : Z) | Erase (v : Z).

Definition apply_op (fuel : nat) (o : op) (s : Set_) : option Set_ :=
  match o with
  | Insert v => insert fuel v s
  | Erase v => erase fuel v s
  end.

Fixpoint run (fuel : nat) (ops : list op) (s : Set_) : option Set_ :=
  match ops with
  | [] => Some s
  | o :: rest => s' ← apply_op fuel o s; run fuel rest s'
  end.

Definition scenario : list op :=
  [Insert 5; Insert 3; Insert 8; Insert 1; Insert 4; Insert 7; Insert 9]%Z.


(** ** Abstract view: trees whose nodes carry their address *)

Inductive tree :=
  | E
  | T (c : NodeColor) (l : tree) (p : ptr) (v : Z) (r : tree).

(** One-hole contexts, innermost frame first: [CL] when the hole is the left
    child of the frame, [CR] when it is the right child. *)
Inductive ctx :=
  | Top
  | CL (c : NodeColor) (p : ptr) (v : Z) (r : tree) (up : ctx)
  | CR (c : NodeColor) (l : tree) (p : ptr) (v : Z) (up : ctx).

Fixpoint plug (C : ctx) (t : tree) : tree :=
  match C with
  | Top => t
  | CL c p v r up => plug up (T c t p v r)
  | CR c l p v up => plug up (T c l p v t)
  end.

(** [capp C1 C2]: the context [C1] placed in the hole of [C2]. *)
Fixpoint capp (C1 C2 : ctx) : ctx :=
  match C1 with
  | Top => C2
  | CL c p v r up => CL c p v r (capp up C2)
  | CR c l p v up => CR c l p v (capp up C2)
  end.

Definition rootp (tm : ptr) (t : tree) : ptr :=
  match t with E => tm | T _ _ p _ _ => p end.

Definition cparent (tm : ptr) (C : ctx) : ptr :=
  match C with Top => tm | CL _ p _ _ _ => p | CR _ _ p _ _ => p end.

(** Address of the root of [plug C t] when the hole holds a tree rooted at [x]. *)
Fixpoint croot (C : ctx) (x : ptr) : ptr :=
  match C with
  | Top => x
  | CL _ p _ _ up => croot up p
  | CR _ _ p _ up => croot up p
  end.

(** In-order sequence of (address, payload). *)
Fixpoint elems (t : tree) : list (ptr * Z) :=
  match t with
  | E => []
  | T _ l p v r => elems l ++ (p, v) :: elems r
  end.

Definition addrs (t : tree) : list ptr := (elems t).*1.
Definition values (t : tree) : list Z := (elems t).*2.

Fixpoint cleft (C : ctx) : list (ptr * Z) :=
  match C with
  | Top => []
  | CL _ _ _ _ up => cleft up
  | CR _ l p v up => cleft up ++ elems l ++ [(p, v)]
  end.

Fixpoint cright (C : ctx) : list (ptr * Z) :=
  match C with
  | Top => []
  | CL _ p v r up => (p, v) :: elems r ++ cright up
  | CR _ _ _ _ up => cright up
  end.

Fixpoint height (t : tree) : nat :=
  match t with
  | E => 0
  | T _ l _ _ r => S (Nat.max (height l) (height r))
  end.

Fixpoint cdepth (C : ctx) : nat :=
  match C with
  | Top => 0
  | CL _ _ _ _ up => S (cdepth up)
  | CR _ _ _ _ up => S (cdepth up)
  end.

(** The store holds the tree [t] below a node (or sentinel) [par]. *)
Fixpoint repr (h : heap) (tm par : ptr) (t : tree) : Prop :=
  match t with
  | E => True
  | T c l p v r =>
      h !! p = Some (mkNode v c (rootp tm l) (rootp tm r) par)
      ∧ repr h tm p l ∧ repr h tm p r
  end.

(** The store holds the context [C] around a hole whose root is [hole]. *)
Fixpoint crepr (h : heap) (tm hole : ptr) (C : ctx) : Prop :=
  match C with
  | Top => True
  | CL c p v r up =>
      h !! p = Some (mkNode v c hole (rootp tm r) (cparent tm up))
      ∧ repr h tm p r ∧ crepr h tm p up
  | CR c l p v up =>
      h !! p = Some (mkNode v c (rootp tm l) hole (cparent tm up))
      ∧ repr h tm p l ∧ crepr h tm p up
  end.

(** The sentinel cell: BLACK, with both child links pointing at itself. *)
Definition sentinel_ok (s : Set_) : Prop :=
  ∃ d par, mem s !! terminal_ s = Some (mkNode d BLACK (terminal_ s) (terminal_ s) par).

(** The state [s] holds the tree [plug C t], seen from the subtree [t]:
    the cells are laid out as the tree says, and the sentinel and the nodes
    occupy pairwise distinct addresses. *)
Record zrepr (s : Set_) (C : ctx) (t : tree) : Prop := mk_zrepr {
  zr_root : root_ s = rootp (terminal_ s) (plug C t);
  zr_sub : repr (mem s) (terminal_ s) (cparent (terminal_ s) C) t;
  zr_ctx : crepr (mem s) (terminal_ s) (rootp (terminal_ s) t) C;
  zr_nodup : NoDup (terminal_ s :: addrs (plug C t));
  zr_sentinel : sentinel_ok s
}.

(** Disjointness of two address lists. *)
Definition ldisj (l k : list ptr) : Prop := ∀ x, x ∈ l → x ∉ k.

(** Search on the abstract tree, returning the address reached. *)
Fixpoint lookup_addr (tm : ptr) (value : Z) (t : tree) : ptr :=
  match t with
  | E => tm
  | T _ l p x r =>
      if (value <? x)%Z then lookup_addr tm value l
      else if (x <? value)%Z then lookup_addr tm value r
      else p
  end.

Fixpoint lb_addr (value : Z) (t : tree) (res : ptr) : ptr :=
  match t with
  | E => res
  | T _ l p x r =>
      if (x <? value)%Z then lb_addr value r res
      else if (value <? x)%Z then lb_addr value l p
      else p
  end.

(** ** The five invariants, on the abstract tree *)

(** 1. Search-tree order. *)
Fixpoint bst (t : tree) : Prop :=
  match t with
  | E => True
  | T _ l _ v r =>
      (∀ x, x ∈ values l → (x < v)%Z) ∧ (∀ x, x ∈ values r → (v < x)%Z)
      ∧ bst l ∧ bst r
  end.

(** 2. Root colour; the colour of an empty tree is that of the sentinel. *)
Definition rcolor (t : tree) : NodeColor :=
  match t with E => BLACK | T c _ _ _ _ => c end.

(** 3. No RED node has a RED child. *)
Fixpoint nored (t : tree) : Prop :=
  match t with
  | E => True
  | T c l _ _ r =>
      (c = RED → rcolor l = BLACK ∧ rcolor r = BLACK) ∧ nored l ∧ nored r
  end.

(** 4. Black height: BLACK nodes on the leftmost path, and its uniformity. *)
Definition blk (c : NodeColor) : nat := match c with BLACK => 1 | RED => 0 end.

Fixpoint bh (t : tree) : nat :=
  match t with
  | E => 0
  | T c l _ _ _ => bh l + blk c
  end.

Fixpoint balanced (t : tree) : Prop :=
  match t with
  | E => True
  | T _ l _ _ r => bh l = bh r ∧ balanced l ∧ balanced r
  end.

(** The same invariant in the words of the specification: the numbers of
    BLACK nodes met on the paths from a node down to the sentinel. *)
Fixpoint black_counts (t : tree) : list nat :=
  match t with
  | E => [0]
  | T c l _ _ r => (λ n, n + blk c) <$> (black_counts l ++ black_counts r)
  end.

Inductive subtree : tree → tree → Prop :=
  | subtree_refl t : subtree t t
  | subtree_l u c l p v r : subtree u l → subtree u (T c l p v r)
  | subtree_r u c l p v r : subtree u r → subtree u (T c l p v r).

Definition uniform_black_height (t : tree) : Prop :=
  ∀ u, subtree u t → ∀ a b, a ∈ black_counts u → b ∈ black_counts u → a = b.

Definition rbt (t : tree) : Prop := balanced t ∧ nored t.

(** A context accepts a subtree of black height [n] and root colour [col]
    when plugging any red-black subtree of that kind gives a red-black tree
    with a BLACK root. *)
Fixpoint accepts (C : ctx) (n : nat) (col : NodeColor) : Prop :=
  match C with
  | Top => col = BLACK
  | CL c _ _ r up =>
      bh r = n ∧ rbt r ∧ (c = RED → col = BLACK ∧ rcolor r = BLACK)
      ∧ accepts up (n + blk c) c
  | CR c l _ _ up =>
      bh l = n ∧ rbt l ∧ (c = RED → col = BLACK ∧ rcolor l = BLACK)
      ∧ accepts up (n + blk c) c
  end.

Definition blacken (t : tree) : tree :=
  match t with E => E | T _ l p v r => T BLACK l p v r end.

(** What the rebalancing code leaves alone. *)
Definition same_fields (s s' : Set_) : Prop :=
  terminal_ s' = terminal_ s ∧ size_ s' = size_ s
  ∧ head_ s' = head_ s ∧ tail_ s' = tail_ s.

Definition top_red (C : ctx) : bool :=
  match C with
  | CL RED _ _ _ _ | CR RED _ _ _ _ => true
  | _ => false
  end.

(** ** The fix-up loops, seen on zippers

    One round of [insert_fix_up] for a RED parent: the recolouring case
    moves the focus to the grandparent, the restructuring cases rotate and
    leave the focus below a BLACK parent. *)
Definition ifu_step (C : ctx) (t : tree) : option (ctx * tree) :=
  match C with
  | CL RED p pv sib (CL _ g gv unc up) =>
      match unc with
      | T RED ul y uv ur =>
          Some (up, T RED (T BLACK t p pv sib) g gv (T BLACK ul y uv ur))
      | _ => Some (CL BLACK p pv (T RED sib g gv unc) up, t)
      end
  | CR RED sib p pv (CL _ g gv unc up) =>
      match unc with
      | T RED ul y uv ur =>
          Some (up, T RED (T BLACK sib p pv t) g gv (T BLACK ul y uv ur))
      | _ =>
          match t with
          | T _ l x v r => Some (CL BLACK x v (T RED r g gv unc) up, T RED sib p pv l)
          | E => None
          end
      end
  | CR RED sib p pv (CR _ unc g gv up) =>
      match unc with
      | T RED ul y uv ur =>
          Some (up, T RED (T BLACK ul y uv ur) g gv (T BLACK sib p pv t))
      | _ => Some (CR BLACK (T RED unc g gv sib) p pv up, t)
      end
  | CL RED p pv sib (CR _ unc g gv up) =>
      match unc with
      | T RED ul y uv ur =>
          Some (up, T RED (T BLACK ul y uv ur) g gv (T BLACK t p pv sib))
      | _ =>
          match t with
          | T _ l x v r => Some (CR BLACK (T RED unc g gv l) x v up, T RED r p pv sib)
          | E => None
          end
      end
  | _ => None
  end.

(** Loop invariant of [insert_fix_up]: the focus is a RED node over two
    BLACK-rooted red-black subtrees, in a context that would accept a BLACK
    subtree of the same black height. *)
Definition ifu_inv (C : ctx) (t : tree) : Prop :=
  match t with
  | T RED l _ _ r =>
      rbt l ∧ rbt r ∧ rcolor l = BLACK ∧ rcolor r = BLACK ∧ bh l = bh r
      ∧ accepts C (bh l) BLACK
  | _ => False
  end.

(** One round of [erase_fix_up]: first the rotation for a RED sibling... *)
Definition efu_red (C : ctx) : option ctx :=
  match C with
  | CL _ p pv (T RED wl w wv wr) up => Some (CL RED p pv wl (CL BLACK w wv wr up))
  | CR _ (T RED wl w wv wr) p pv up => Some (CR RED wr p pv (CR BLACK wl w wv up))
  | CL _ _ _ (T BLACK _ _ _ _) _ => Some C
  | CR _ (T BLACK _ _ _ _) _ _ _ => Some C
  | _ => None
  end.

(** ... then the three cases for a BLACK sibling. *)
Definition efu_black (C : ctx) (t : tree) : option (ctx * tree) :=
  match C with
  | CL pc p pv (T wc wl w wv wr) up =>
      if is_black (rcolor wl) && is_black (rcolor wr)
      then Some (up, T pc t p pv (T RED wl w wv wr))
      else
        match (if is_black (rcolor wr)
               then match wl with
                    | T _ wll wl' wlv wlr =>
                        Some (T BLACK wll wl' wlv (T RED wlr w wv wr))
                    | E => None
                    end
               else Some (T wc wl w wv wr)) with
        | Some (T _ wl2 w2 wv2 (T _ wrl wr' wrv wrr)) =>
            Some (Top, plug up (T pc (T BLACK t p pv wl2) w2 wv2
                                     (T BLACK wrl wr' wrv wrr)))
        | _ => None
        end
  | CR pc (T wc wl w wv wr) p pv up =>
      if is_black (rcolor wr) && is_black (rcolor wl)
      then Some (up, T pc (T RED wl w wv wr) p pv t)
      else
        match (if is_black (rcolor wl)
               then match wr with
                    | T _ wrl wr' wrv wrr =>
                        Some (T BLACK (T RED wl w wv wrl) wr' wrv wrr)
                    | E => None
                    end
               else Some (T wc wl w wv wr)) with
        | Some (T _ (T _ wll wl' wlv wlr) w2 wv2 wr2) =>
            Some (Top, plug up (T pc (T BLACK wll wl' wlv wlr) w2 wv2
                                     (T BLACK wr2 p pv t)))
        | _ => None
        end
  | _ => None
  end.

Definition efu_step (C : ctx) (t : tree) : option (ctx * tree) :=
  C1 ← efu_red C; efu_black C1 t.

(** Loop invariant of [erase_fix_up]: the focus is balanced with red-black
    children, one BLACK node short of what its context accepts. *)
Definition arb (t : tree) : Prop :=
  balanced t ∧ match t with E => True | T _ l _ _ r => nored l ∧ nored r end.

Definition efu_inv (C : ctx) (t : tree) : Prop :=
  arb t ∧ accepts C (S (bh t)) BLACK.

(** 5. Cached bounds. *)
Definition head_ok (s : Set_) (t : tree) : Prop :=
  head_ s = hd (terminal_ s) (addrs t).
Definition tail_ok (s : Set_) (t : tree) : Prop :=
  tail_ s = List.last (addrs t) (terminal_ s).

(** The state [s] is a well-formed set whose tree is [t]. *)
Record wf (s : Set_) (t : tree) : Prop := mk_wf {
  wf_repr : zrepr s Top t;
  wf_bst : bst t;
  wf_black : rcolor t = BLACK;
  wf_nored : nored t;
  wf_balanced : balanced t;
  wf_head : head_ok s t;
  wf_tail : tail_ok s t;
  wf_size : size_ s = length (elems t)
}.

(** ** Auxiliary notions *)

(** The position found by the search loop of [insert]. *)
Definition all_lt (v : Z) (l : list (ptr * Z)) : Prop := ∀ x, x ∈ l.*2 → (x < v)%Z.
Definition all_gt (v : Z) (l : list (ptr * Z)) : Prop := ∀ x, x ∈ l.*2 → (v < x)%Z.

(** The comparison made when linking agrees with the side the search took. *)
Definition link_ord (v : Z) (C : ctx) : Prop :=
  match C with
  | Top => True
  | CL _ _ pv _ _ => (v < pv)%Z
  | CR _ _ _ pv _ => (pv < v)%Z
  end.

(** The state on entry to [erase_fix_up].  The loop variable [x] may be
    the sentinel: its parent field is then the one last written by
    [transplant]. *)
Definition xrepr (s : Set_) (C : ctx) (t : tree) : Prop :=
  zrepr s C t
  ∧ parent (s.[rootp (terminal_ s) t]) = cparent (terminal_ s) C.

(** ** The shape of the tree after the removal *)

(** The leftmost node of [t], with the context that leads to it. *)
Fixpoint split_min (t : tree) (C : ctx) : ctx * tree :=
  match t with
  | T c (T _ _ _ _ _ as l) p v r => split_min l (CL c p v r C)
  | _ => (C, t)
  end.

(** What [erase] does to the node [T zc zl z zv zr] under [C]: the colour
    that leaves the tree, and the zipper of the subtree that moves up. *)
Definition unlink (C : ctx) (zc : NodeColor) (zl : tree) (zr : tree)
    : NodeColor * ctx * tree :=
  match zl, zr with
  | E, _ => (zc, C, zr)
  | _, E => (zc, C, zl)
  | _, _ =>
      match split_min zr Top with
      | (Cy, T yc _ y yv yr) => (yc, capp Cy (CR zc zl y yv C), yr)
      | (_, E) => (zc, C, E)
      end
  end.

(** ** Notions used in the statements *)

(** A value is live after [ops] when its last operation is an insertion. *)
Definition step_live (x : Z) (b : bool) (o : op) : bool :=
  match o with
  | Insert v => if (v =? x)%Z then true else b
  | Erase v => if (v =? x)%Z then false else b
  end.

Definition live (ops : list op) (x : Z) : bool := fold_left (step_live x) ops false.

(** The nodes of the tree, as the links of the store give them. *)
Inductive in_tree (s : Set_) : ptr → Prop :=
  | in_tree_root : root_ s ≠ terminal_ s → in_tree s (root_ s)
  | in_tree_left p :
      in_tree s p → left (s.[p]) ≠ terminal_ s → in_tree s (left (s.[p]))
  | in_tree_right p :
      in_tree s p → right (s.[p]) ≠ terminal_ s → in_tree s (right (s.[p])).

(** Invariant 5 in the words of the specification. *)
Definition bounds_ok (s : Set_) (t : tree) : Prop :=
  (head_ s = terminal_ s ↔ t = E) ∧ (tail_ s = terminal_ s ↔ t = E)
  ∧ (t ≠ E → ∃ vmin vmax,
       (head_ s, vmin) ∈ elems t ∧ (tail_ s, vmax) ∈ elems t
       ∧ ∀ x, x ∈ values t → (vmin ≤ x ≤ vmax)%Z).

(** ** Construction from a sequence, copy and destruction

    Each container is modelled with the part of the heap it owns: the
    nodes of a container are private to it, so the copy constructor reads
    the store of [other] and allocates in the store of the new container. *)

(** The loop of [Set(It first, It last)] over an input sequence, also run by
    [Set(std::initializer_list)]. *)
Fixpoint insert_range (fuel : nat) (l : list Z) (s : Set_) : option Set_ :=
  match l with
  | [] => Some s
  | v :: rest => s' ← insert fuel v s; insert_range fuel rest s'
  end.

Definition from_list (fuel : nat) (l : list Z) : option Set_ :=
  insert_range fuel l new_set.

(** [Set(const Set& other)]: the same loop, with [first] and [last] the
    cursors [other.begin()] and [other.end()]; [n] bounds the rounds. *)
Fixpoint copy_loop (n fuel : nat) (other : Set_) (first : SetIterator)
    (s : Set_) : option Set_ :=
  match n with
  | O => None
  | S n' =>
    if negb (iter_eqb first (end_ other)) then
      s' ← insert fuel (deref other first) s;
      first' ← incr fuel other first;
      copy_loop n' fuel other first' s'
    else Some s
  end.

Definition copy (fuel : nat) (other : Set_) : option Set_ :=
  copy_loop fuel fuel other (begin_ other) new_set.

(** [~Set()]: [while (!empty()) erase(begin())], then [delete(terminal_)]. *)
Fixpoint clear_loop (n fuel : nat) (s : Set_) : option Set_ :=
  match n with
  | O => None
  | S n' =>
    if negb (empty s) then
      s' ← erase_at fuel (begin_ s) s; clear_loop n' fuel s'
    else Some s
  end.

Definition destroy (fuel : nat) (s : Set_) : option Set_ :=
  s' ← clear_loop fuel fuel s; Some (free (terminal_ s') s').

(** ** The cells a container owns *)

(** The store of a container holds the cell of its sentinel and the cells
    of the nodes of its tree, and no other cell. *)
Definition own (s : Set_) : Prop :=
  ∀ p, p ∈ dom (mem s) ↔ p = terminal_ s ∨ in_tree s p.

(** * Verification

    The store is related to trees through zippers; each loop of the code is
    followed on the zipper, one lemma a round. *)

(** ** Lists of addresses *)

Lemma elems_plug C t : elems (plug C t) = cleft C ++ elems t ++ cright C.
Proof.
  revert t. induction C as [|c p v r up IH|c l p v up IH]; intros t; simpl.
  - by rewrite app_nil_r.
  - rewrite IH. simpl. by rewrite <- ?app_assoc.
  - rewrite IH. simpl. rewrite <- ?app_assoc. simpl. by rewrite <- ?app_assoc.
Qed.

Lemma rootp_plug tm C t : rootp tm (plug C t) = croot C (rootp tm t).
Proof. revert t. induction C; intros t; simpl; try done; by rewrite IHC. Qed.

Lemma NoDup_app_ldisj (l k : list ptr) :
  NoDup (l ++ k) ↔ NoDup l ∧ ldisj l k ∧ NoDup k.
Proof. apply NoDup_app. Qed.

Lemma ldisj_cons_r (l k : list ptr) x : ldisj l (x :: k) ↔ (x ∉ l) ∧ ldisj l k.
Proof.
  unfold ldisj. split.
  - intros H. split; [intros Hx; by apply (H x Hx); left|].
    intros y Hy Hk. apply (H y Hy). by right.
  - intros [H1 H2] y Hy [->|Hk]%elem_of_cons; [done|by apply (H2 y)].
Qed.

Lemma ldisj_app_r (l k1 k2 : list ptr) :
  ldisj l (k1 ++ k2) ↔ ldisj l k1 ∧ ldisj l k2.
Proof.
  unfold ldisj. split.
  - intros H. split; intros y Hy Hk; apply (H y Hy), elem_of_app; auto.
  - intros [H1 H2] y Hy [?|?]%elem_of_app; [by apply (H1 y)|by apply (H2 y)].
Qed.

Ltac norm_list :=
  repeat first [ rewrite <- app_assoc | rewrite fmap_app | rewrite fmap_cons
               | rewrite fmap_nil | progress cbn [app fst snd] ].
Ltac norm_list_in H :=
  repeat first [ rewrite <- app_assoc in H | rewrite fmap_app in H
               | rewrite fmap_cons in H | rewrite fmap_nil in H
               | progress cbn [app fst snd] in H ].

Ltac norm_addrs :=
  unfold addrs; rewrite ?elems_plug; cbn [cleft cright elems]; norm_list.
Ltac norm_addrs_in H :=
  unfold addrs in H; rewrite ?elems_plug in H; cbn [cleft cright elems] in H;
  norm_list_in H.

Ltac nd_atoms H :=
  lazymatch type of H with
  | NoDup (_ :: _) =>
      let H1 := fresh "Hn" in
      apply NoDup_cons in H as [H1 H]; nd_atoms H1; nd_atoms H
  | NoDup (_ ++ _) =>
      let H1 := fresh "Hn" in let H2 := fresh "Hn" in
      apply NoDup_app_ldisj in H as (H1 & H2 & H); nd_atoms H2; nd_atoms H
  | ldisj _ (_ :: _) =>
      let H1 := fresh "Hn" in
      apply ldisj_cons_r in H as [H1 H]; nd_atoms H
  | ldisj _ (_ ++ _) =>
      let H1 := fresh "Hn" in
      apply ldisj_app_r in H as [H1 H]; nd_atoms H
  | _ ∉ _ ++ _ =>
      let H1 := fresh "Hn" in
      apply not_elem_of_app in H as [H1 H]; nd_atoms H
  | _ ∉ _ :: _ =>
      let H1 := fresh "Hn" in
      apply not_elem_of_cons in H as [H1 H]; nd_atoms H
  | _ => idtac
  end.

(** Solving separation goals from atomic facts. *)
Lemma ldisj_sym (l k : list ptr) : ldisj l k → ldisj k l.
Proof. intros H x Hk Hl. by apply (H x). Qed.

Lemma ldisj_nil_r (l : list ptr) : ldisj l [].
Proof. intros x _ H. by apply elem_of_nil in H. Qed.

Lemma ldisj_nil_l (l : list ptr) : ldisj [] l.
Proof. intros x H. by apply elem_of_nil in H. Qed.

Lemma ldisj_cons_l (l k : list ptr) x : ldisj (x :: l) k ↔ (x ∉ k) ∧ ldisj l k.
Proof.
  split.
  - intros H. split; [apply H; by left|]. intros y Hy. apply H. by right.
  - intros [H1 H2] y [->|Hy]%elem_of_cons; [done|by apply H2].
Qed.

Lemma ldisj_app_l (l1 l2 k : list ptr) :
  ldisj (l1 ++ l2) k ↔ ldisj l1 k ∧ ldisj l2 k.
Proof.
  split.
  - intros H. split; intros y Hy; apply H, elem_of_app; auto.
  - intros [H1 H2] y [?|?]%elem_of_app; [by apply H1|by apply H2].
Qed.

Ltac nd_solve :=
  lazymatch goal with
  | |- NoDup (_ :: _) => apply NoDup_cons; split; nd_solve
  | |- NoDup (_ ++ _) => apply NoDup_app_ldisj; split_and!; nd_solve
  | |- NoDup [] => apply NoDup_nil_2
  | |- ldisj _ (_ :: _) => apply ldisj_cons_r; split; nd_solve
  | |- ldisj _ (_ ++ _) => apply ldisj_app_r; split; nd_solve
  | |- ldisj _ [] => apply ldisj_nil_r
  | |- ldisj (_ :: _) _ => apply ldisj_cons_l; split; nd_solve
  | |- ldisj (_ ++ _) _ => apply ldisj_app_l; split; nd_solve
  | |- ldisj [] _ => apply ldisj_nil_l
  | |- _ ∉ _ ++ _ => apply not_elem_of_app; split; nd_solve
  | |- _ ∉ _ :: _ => apply not_elem_of_cons; split; nd_solve
  | |- _ ∉ [] => apply not_elem_of_nil
  | |- _ => first [ assumption | congruence | apply ldisj_sym; assumption ]
  end.

(** ** Store lemmas *)

Lemma repr_insert h tm par t p n :
  p ∉ (elems t).*1 → repr h tm par t → repr (<[p:=n]> h) tm par t.
Proof.
  revert par. induction t as [|c l IHl q v r IHr]; [done|].
  intros par Hp (Hq & Hl & Hr). cbn [elems] in Hp.
  norm_list_in Hp. nd_atoms Hp.
  cbn [repr]. split_and!; auto.
  by rewrite lookup_insert_ne.
Qed.

Lemma crepr_insert h tm hole C p n :
  p ∉ (cleft C).*1 → p ∉ (cright C).*1 →
  crepr h tm hole C → crepr (<[p:=n]> h) tm hole C.
Proof.
  revert hole. induction C as [|c q v r up IH|c l q v up IH]; [done| |];
    intros hole Hl Hr (Hq & Hs & Hup); cbn [cleft cright] in Hl, Hr;
    norm_list_in Hl; norm_list_in Hr; nd_atoms Hl; nd_atoms Hr; cbn [crepr];
    (split_and!; [by rewrite lookup_insert_ne | by apply repr_insert | by apply IH]).
Qed.

(** Moving the focus one step does not change what the state holds. *)
Lemma zrepr_up_l s c p v r C l :
  zrepr s (CL c p v r C) l ↔ zrepr s C (T c l p v r).
Proof.
  split; intros [H1 H2 H3 H4 H5]; simpl in *; split; simpl; try done; tauto.
Qed.

Lemma zrepr_up_r s c p v l C r :
  zrepr s (CR c l p v C) r ↔ zrepr s C (T c l p v r).
Proof.
  split; intros [H1 H2 H3 H4 H5]; simpl in *; split; simpl; try done; tauto.
Qed.

Lemma zrepr_plug s C t : zrepr s C t ↔ zrepr s Top (plug C t).
Proof.
  revert t. induction C as [|c p v r up IH|c l p v up IH]; intros t; simpl.
  - done.
  - by rewrite zrepr_up_l, IH.
  - by rewrite zrepr_up_r, IH.
Qed.

Lemma plug_capp C1 C2 t : plug (capp C1 C2) t = plug C2 (plug C1 t).
Proof. revert t. induction C1; intros t; simpl; auto. Qed.

Lemma zrepr_capp s C1 C2 t : zrepr s (capp C1 C2) t ↔ zrepr s C2 (plug C1 t).
Proof. by rewrite zrepr_plug, (zrepr_plug s C2), plug_capp. Qed.

Lemma rootp_ne tm t x : x ≠ tm → x ∉ (elems t).*1 → x ≠ rootp tm t.
Proof.
  destruct t as [|c l p v r]; [done|]. intros _ H. cbn [elems] in H.
  norm_list_in H. nd_atoms H. done.
Qed.

Lemma rootp_ne' tm t x : x ≠ tm → x ∉ (elems t).*1 → rootp tm t ≠ x.
Proof. intros ?? E. by apply (rootp_ne tm t x). Qed.

Lemma croot_ne up p x :
  x ≠ p → x ∉ (cleft up).*1 → x ∉ (cright up).*1 → x ≠ croot up p.
Proof.
  revert p. induction up as [|c q v r up IH|c l q v up IH]; intros p Hp Hl Hr;
    cbn [croot cleft cright] in *; [done|..];
    norm_list_in Hl; norm_list_in Hr; nd_atoms Hl; nd_atoms Hr; by apply IH.
Qed.

Lemma croot_ne' up p x :
  x ≠ p → x ∉ (cleft up).*1 → x ∉ (cright up).*1 → croot up p ≠ x.
Proof. intros ??? E. by apply (croot_ne up p x). Qed.

Ltac ne_solve :=
  first [ assumption | congruence
        | apply rootp_ne; [first [assumption|congruence]|assumption]
        | apply rootp_ne'; [first [assumption|congruence]|assumption]
        | apply croot_ne; [first [assumption|congruence]|assumption|assumption]
        | apply croot_ne'; [first [assumption|congruence]|assumption|assumption] ].

(** The colour read at the root of a subtree, the sentinel standing for the
    empty one. *)
Lemma root_color h tm par t n :
  repr h tm par t → h !! tm = Some n → color n = BLACK →
  color (h !!! rootp tm t) = rcolor t.
Proof.
  destruct t as [|c l p v r]; cbn [repr rootp rcolor].
  - intros _ Hs Hc. by rewrite (lookup_total_correct _ _ _ Hs).
  - intros (Hp & _) _ _. by rewrite (lookup_total_correct _ _ _ Hp).
Qed.

(** ** Symbolic execution of store code *)

Ltac rsimpl :=
  cbn beta iota delta
      [mem terminal_ root_ size_ head_ tail_ store set_color set_left set_right
       set_parent set_root set_size set_head set_tail current
       data color left right parent with_color with_left with_right with_parent
       rootp cparent negb andb orb is_red is_black fst snd].

(** One step of call-by-value evaluation of a [let]: the bound value is
    evaluated first when it is itself a [let]. *)
Ltac zstep t :=
  lazymatch t with
  | context G [let x := ?v in @?b x] =>
      lazymatch v with
      | context [let y := _ in _] =>
          let v' := zstep v in
          let r := context G [let x := v' in b x] in
          eval cbv beta in r
      | _ => let r := context G [b v] in eval cbv beta in r
      end
  end.

Ltac zeta1 :=
  lazymatch goal with
  | |- ?g => let g' := zstep g in change g'
  end.

Ltac hs_step :=
  match goal with
  | |- context [<[?i:=?x]> ?m !!! ?i] => rewrite (lookup_total_insert_eq m i x)
  | |- context [<[?i:=?x]> ?m !!! ?j] =>
      rewrite (lookup_total_insert_ne m i j x) by ne_solve
  | |- context [Pos.eqb ?a ?a] => rewrite (Pos.eqb_refl a)
  | |- context [Pos.eqb ?a ?b] =>
      rewrite (proj2 (Pos.eqb_neq a b)) by ne_solve
  | H : ?h !! ?p = Some ?n |- context [?h !!! ?p] =>
      rewrite (lookup_total_correct h p n H)
  | H : color (?h !!! ?p) = ?c |- context [color (?h !!! ?p)] => rewrite H
  | H : parent (?h !!! ?p) = ?c |- context [parent (?h !!! ?p)] => rewrite H
  | |- context [set_color ?p ?c (mkSet ?h ?tm ?rt ?sz ?hd ?tl)] =>
      change (set_color p c (mkSet h tm rt sz hd tl))
        with (mkSet (<[p := with_color c (h !!! p)]> h) tm rt sz hd tl)
  | |- context [set_left ?p ?q (mkSet ?h ?tm ?rt ?sz ?hd ?tl)] =>
      change (set_left p q (mkSet h tm rt sz hd tl))
        with (mkSet (<[p := with_left q (h !!! p)]> h) tm rt sz hd tl)
  | |- context [set_right ?p ?q (mkSet ?h ?tm ?rt ?sz ?hd ?tl)] =>
      change (set_right p q (mkSet h tm rt sz hd tl))
        with (mkSet (<[p := with_right q (h !!! p)]> h) tm rt sz hd tl)
  | |- context [set_parent ?p ?q (mkSet ?h ?tm ?rt ?sz ?hd ?tl)] =>
      change (set_parent p q (mkSet h tm rt sz hd tl))
        with (mkSet (<[p := with_parent q (h !!! p)]> h) tm rt sz hd tl)
  | |- context [set_root ?r (mkSet ?h ?tm ?rt ?sz ?hd ?tl)] =>
      change (set_root r (mkSet h tm rt sz hd tl)) with (mkSet h tm r sz hd tl)
  | |- context [set_size ?n (mkSet ?h ?tm ?rt ?sz ?hd ?tl)] =>
      change (set_size n (mkSet h tm rt sz hd tl)) with (mkSet h tm rt n hd tl)
  | |- context [set_head ?p (mkSet ?h ?tm ?rt ?sz ?hd ?tl)] =>
      change (set_head p (mkSet h tm rt sz hd tl)) with (mkSet h tm rt sz p tl)
  | |- context [set_tail ?p (mkSet ?h ?tm ?rt ?sz ?hd ?tl)] =>
      change (set_tail p (mkSet h tm rt sz hd tl)) with (mkSet h tm rt sz hd p)
  | |- context [with_color ?c' (mkNode ?d ?c ?l ?r ?p)] =>
      change (with_color c' (mkNode d c l r p)) with (mkNode d c' l r p)
  | |- context [with_left ?l' (mkNode ?d ?c ?l ?r ?p)] =>
      change (with_left l' (mkNode d c l r p)) with (mkNode d c l' r p)
  | |- context [with_right ?r' (mkNode ?d ?c ?l ?r ?p)] =>
      change (with_right r' (mkNode d c l r p)) with (mkNode d c l r' p)
  | |- context [with_parent ?p' (mkNode ?d ?c ?l ?r ?p)] =>
      change (with_parent p' (mkNode d c l r p)) with (mkNode d c l r p')
  | _ => progress rsimpl
  | |- context [left_rotate ?x (mkSet ?h _ _ _ _ _)] => fail 1
  | |- context [right_rotate ?x (mkSet ?h _ _ _ _ _)] => fail 1
  | |- context [transplant ?x ?y (mkSet ?h _ _ _ _ _)] => fail 1
  | _ => zeta1
  end.
Ltac hs := repeat hs_step.

Ltac lk :=
  repeat match goal with
  | |- context [<[?i:=?x]> ?m !! ?i] => rewrite (lookup_insert_eq m i x)
  | |- context [<[?i:=?x]> ?m !! ?j] =>
      rewrite (lookup_insert_ne m i j x) by ne_solve
  end.

(** Open a [zrepr] hypothesis: cell facts and separation facts. *)
Ltac zopen H :=
  let H1 := fresh "Hroot" in
  let H2 := fresh "Hsub" in
  let H3 := fresh "Hctx" in
  let H4 := fresh "Hnd" in
  let H5 := fresh "Hsen" in
  let Hn := fresh "Hnd0" in
  let H' := fresh "Hz" in
  pose proof H as H';
  destruct H' as [H1 H2 H3 H4 H5];
  cbn [repr crepr rootp cparent terminal_ mem root_] in H1, H2, H3, H4, H5;
  destruct_and? H2; destruct_and? H3;
  destruct H5 as (? & ? & H5);
  cbn [terminal_ mem] in H5;
  rewrite ?rootp_plug in H1; cbn [croot rootp] in H1;
  pose proof H4 as Hn;
  norm_addrs_in H4; nd_atoms H4.

Ltac zcell :=
  lk; first [ eassumption | (f_equal; hs; reflexivity) ].

Ltac zframe :=
  first [ exact I
        | repeat first [ apply repr_insert; [assumption|]
                       | apply crepr_insert; [assumption|assumption|] ];
          assumption ].

Ltac znodup :=
  first
  [ match goal with
    | Hn : NoDup (?tm :: addrs (plug _ _)) |- NoDup (?tm :: _) =>
        refine (eq_ind _ NoDup Hn _ _); norm_addrs; reflexivity
    end
  | norm_addrs; nd_solve ].

Ltac zsolve :=
  hs; split;
  [ rsimpl; rewrite ?rootp_plug; cbn [croot rootp]; (reflexivity || assumption)
  | rsimpl; cbn [repr rootp]; split_and?; first [zcell | zframe]
  | rsimpl; cbn [crepr repr rootp cparent]; split_and?; first [zcell | zframe]
  | rsimpl; znodup
  | eexists _, _; rsimpl; zcell ].

Lemma left_rotate_full s C cx a x xv cy b y yv c :
  zrepr s C (T cx a x xv (T cy b y yv c)) →
  zrepr (left_rotate x s) C (T cy (T cx a x xv b) y yv c)
  ∧ (left_rotate x s).[terminal_ s] = s.[terminal_ s].
Proof.
  intros H. destruct s as [h tm rt sz hd tl].
  destruct C as [|pc p pv pr up|pc pl p pv up], b as [|bc bl pb bv br];
    zopen H; cbv beta delta [left_rotate]; hs; (split; [zsolve|reflexivity]).
Qed.

Lemma right_rotate_full s C cx a x xv cy b y yv c :
  zrepr s C (T cy (T cx a x xv b) y yv c) →
  zrepr (right_rotate y s) C (T cx a x xv (T cy b y yv c))
  ∧ (right_rotate y s).[terminal_ s] = s.[terminal_ s].
Proof.
  intros H. destruct s as [h tm rt sz hd tl].
  destruct C as [|pc p pv pr up|pc pl p pv up], b as [|bc bl pb bv br];
    zopen H; cbv beta delta [right_rotate]; hs; (split; [zsolve|reflexivity]).
Qed.

Lemma left_rotate_zrepr s C cx a x xv cy b y yv c :
  zrepr s C (T cx a x xv (T cy b y yv c)) →
  zrepr (left_rotate x s) C (T cy (T cx a x xv b) y yv c).
Proof. intros H. by apply left_rotate_full. Qed.

Lemma right_rotate_zrepr s C cx a x xv cy b y yv c :
  zrepr s C (T cy (T cx a x xv b) y yv c) →
  zrepr (right_rotate y s) C (T cx a x xv (T cy b y yv c)).
Proof. intros H. by apply right_rotate_full. Qed.

Lemma left_rotate_fields x s : same_fields s (left_rotate x s).
Proof.
  unfold left_rotate, same_fields.
  repeat match goal with |- context [if ?b then _ else _] => destruct b end;
    done.
Qed.

Lemma right_rotate_fields x s : same_fields s (right_rotate x s).
Proof.
  unfold right_rotate, same_fields.
  repeat match goal with |- context [if ?b then _ else _] => destruct b end;
    done.
Qed.

(** Run a rotation met during symbolic execution: [C], [t] describe the
    state just before it, focused on the rotated node. *)
Ltac zrot C t :=
  match goal with
  | |- context [?rot ?x (mkSet ?h ?tm ?rt ?sz ?hd ?tl)] =>
      let lem := lazymatch rot with
                 | left_rotate => constr:(left_rotate_full)
                 | right_rotate => constr:(right_rotate_full)
                 end in
      let flds := lazymatch rot with
                  | left_rotate => constr:(left_rotate_fields)
                  | right_rotate => constr:(right_rotate_fields)
                  end in
      let Hz := fresh "Hz" in
      let Hk := fresh "Hk" in
      let Hf := fresh "Hf" in
      let E := fresh "E" in
      let s1 := fresh "s" in
      assert (Hz : zrepr (mkSet h tm rt sz hd tl) C t) by zsolve;
      apply lem in Hz; destruct Hz as [Hz Hk];
      cbn [terminal_ mem] in Hk;
      match type of Hk with
      | _ = ?rhs =>
          let n := fresh "n" in
          evar (n : Node);
          let Hn := fresh "Hn" in
          assert (Hn : rhs = n) by (hs; subst n; reflexivity);
          subst n; rewrite Hn in Hk; clear Hn
      end;
      pose proof (flds x (mkSet h tm rt sz hd tl)) as Hf;
      remember (rot x (mkSet h tm rt sz hd tl)) as s1 eqn:E; clear E;
      destruct s1 as [? ? ? ? ? ?];
      unfold same_fields in Hf; cbn [terminal_ size_ head_ tail_] in Hf;
      destruct Hf as (-> & -> & -> & ->);
      cbn [mem] in Hk;
      zopen Hz;
      match goal with
      | Hs : ?h1 !! ?tm = Some _ |- _ =>
          match type of Hk with
          | h1 !!! tm = _ =>
              rewrite (lookup_total_correct _ _ _ Hs) in Hk;
              injection Hk as -> ->
          end
      end
  end.

(** ** Lists, contexts and heights *)

Lemma app_cons_split {A} (l1 : list A) a l2 L1 b L2 :
  l1 ++ a :: l2 = L1 ++ b :: L2 →
  (∃ k, l1 = L1 ++ b :: k ∧ L2 = k ++ a :: l2)
  ∨ (l1 = L1 ∧ a = b ∧ l2 = L2)
  ∨ (∃ k, L1 = l1 ++ a :: k ∧ l2 = k ++ b :: L2).
Proof.
  revert L1. induction l1 as [|x l1 IH]; intros [|y L1] H; simpl in H;
    injection H as -> H.
  - right; left; done.
  - right; right. by exists L1.
  - left. by exists l1.
  - destruct (IH _ H) as [(k & -> & ->)|[(-> & -> & ->)|(k & -> & ->)]].
    + left. by exists k.
    + right; left; done.
    + right; right. by exists k.
Qed.

Lemma cleft_capp C1 C2 : cleft (capp C1 C2) = cleft C2 ++ cleft C1.
Proof.
  induction C1 as [|c p v r up IH|c l p v up IH]; simpl.
  - by rewrite app_nil_r.
  - done.
  - by rewrite IH, <- app_assoc.
Qed.

Lemma cright_capp C1 C2 : cright (capp C1 C2) = cright C1 ++ cright C2.
Proof.
  induction C1 as [|c p v r up IH|c l p v up IH]; simpl; [done| |done].
  by rewrite IH, <- app_assoc.
Qed.

Lemma cdepth_capp C1 C2 : cdepth (capp C1 C2) = cdepth C1 + cdepth C2.
Proof. induction C1; simpl; lia. Qed.

(** Every position of the in-order sequence is the focus of a zipper. *)
Lemma focus t L1 p v L2 :
  elems t = L1 ++ (p, v) :: L2 →
  ∃ C c l r, t = plug C (T c l p v r)
             ∧ L1 = cleft C ++ elems l ∧ L2 = elems r ++ cright C.
Proof.
  revert L1 L2. induction t as [|c l IHl q w r IHr]; intros L1 L2 H.
  - by destruct L1.
  - simpl in H.
    destruct (app_cons_split _ _ _ _ _ _ H)
      as [(k & Hl & ->)|[(<- & Hq & <-)|(k & -> & Hr)]].
    + destruct (IHl _ _ Hl) as (C & c' & l' & r' & -> & -> & ->).
      exists (capp C (CL c q w r Top)), c', l', r'.
      rewrite plug_capp, cleft_capp, cright_capp. simpl.
      split_and!; [done|done|]. by rewrite <- app_assoc, app_nil_r.
    + simplify_eq. exists Top, c, l, r. simpl. by rewrite app_nil_r.
    + destruct (IHr _ _ Hr) as (C & c' & l' & r' & -> & -> & ->).
      exists (capp C (CR c l q w Top)), c', l', r'.
      rewrite plug_capp, cleft_capp, cright_capp. simpl.
      split_and!; [done| |by rewrite app_nil_r].
      rewrite <- ?app_assoc. done.
Qed.

Lemma height_plug C t : cdepth C + height t ≤ height (plug C t).
Proof.
  revert t. induction C as [|c p v r up IH|c l p v up IH]; intros t; simpl.
  - lia.
  - specialize (IH (T c t p v r)). simpl in IH. lia.
  - specialize (IH (T c l p v t)). simpl in IH. lia.
Qed.

Lemma height_le_length t : height t ≤ length (elems t).
Proof.
  induction t as [|c l IHl p v r IHr]; simpl; [lia|].
  rewrite length_app. simpl. lia.
Qed.

Lemma addrs_T c l p v r : addrs (T c l p v r) = addrs l ++ p :: addrs r.
Proof. unfold addrs. simpl. by rewrite fmap_app. Qed.

Lemma values_T c l p v r : values (T c l p v r) = values l ++ v :: values r.
Proof. unfold values. simpl. by rewrite fmap_app. Qed.

Lemma addrs_nil t : addrs t = [] → t = E.
Proof.
  destruct t; [done|]. rewrite addrs_T. intros H. by destruct (addrs t1).
Qed.

Lemma elems_nil t : elems t = [] → t = E.
Proof. destruct t; [done|]. simpl. intros H. by destruct (elems t1). Qed.

(** ** [find] *)

Lemma find_loop_spec h tm v t par fuel :
  repr h tm par t → tm ∉ addrs t → height t < fuel →
  find_loop fuel h tm v (rootp tm t) = Some (lookup_addr tm v t).
Proof.
  revert par fuel. induction t as [|c l IHl p x r IHr]; intros par fuel Hr Htm Hf.
  - destruct fuel; [lia|]. simpl. by rewrite Pos.eqb_refl.
  - destruct fuel as [|f]; [lia|]. destruct Hr as (Hp & Hl & Hr).
    rewrite addrs_T in Htm. apply not_elem_of_app in Htm as [Htl Htm].
    apply not_elem_of_cons in Htm as [Hne Htr].
    simpl in Hf. cbn [find_loop rootp lookup_addr].
    rewrite (proj2 (Pos.eqb_neq p tm)) by done.
    rewrite (lookup_total_correct _ _ _ Hp). cbn [negb data left right].
    destruct (v <? x)%Z; [apply (IHl p); [done|done|lia]|].
    destruct (x <? v)%Z; [apply (IHr p); [done|done|lia]|done].
Qed.

Lemma lookup_addr_absent tm v t : v ∉ values t → lookup_addr tm v t = tm.
Proof.
  induction t as [|c l IHl p x r IHr]; [done|].
  rewrite values_T, not_elem_of_app, not_elem_of_cons. intros (? & ? & ?).
  simpl. destruct (Z.ltb_spec v x); [auto|].
  destruct (Z.ltb_spec x v); [auto|lia].
Qed.

Lemma bst_elem_l c l p x r q w :
  bst (T c l p x r) → (q, w) ∈ elems (T c l p x r) → (w < x)%Z → (q, w) ∈ elems l.
Proof.
  intros (Hl & Hr & _) Hin Hlt. simpl in Hin.
  apply elem_of_app in Hin as [?|Hin]; [done|].
  apply elem_of_cons in Hin as [?|Hin]; [simplify_eq; lia|].
  assert (x < w)%Z; [|lia]. apply Hr. unfold values.
  by apply (list_elem_of_fmap_2 snd _ (q, w)).
Qed.

Lemma bst_elem_r c l p x r q w :
  bst (T c l p x r) → (q, w) ∈ elems (T c l p x r) → (x < w)%Z → (q, w) ∈ elems r.
Proof.
  intros (Hl & Hr & _) Hin Hlt. simpl in Hin.
  apply elem_of_app in Hin as [Hin|Hin].
  - assert (w < x)%Z; [|lia]. apply Hl. unfold values.
    by apply (list_elem_of_fmap_2 snd _ (q, w)).
  - apply elem_of_cons in Hin as [?|Hin]; [simplify_eq; lia|done].
Qed.

Lemma bst_elem_root c l p x r q :
  bst (T c l p x r) → (q, x) ∈ elems (T c l p x r) → q = p.
Proof.
  intros (Hl & Hr & _) Hin. simpl in Hin.
  apply elem_of_app in Hin as [Hin|Hin].
  - assert (x < x)%Z; [|lia]. apply Hl. unfold values.
    by apply (list_elem_of_fmap_2 snd _ (q, x)).
  - apply elem_of_cons in Hin as [?|Hin]; [by simplify_eq|].
    assert (x < x)%Z; [|lia]. apply Hr. unfold values.
    by apply (list_elem_of_fmap_2 snd _ (q, x)).
Qed.

Lemma lookup_addr_present tm v t p :
  bst t → (p, v) ∈ elems t → lookup_addr tm v t = p.
Proof.
  induction t as [|c l IHl q x r IHr]; intros Hb Hin; [by apply elem_of_nil in Hin|].
  simpl. destruct (Z.ltb_spec v x).
  - apply IHl; [apply Hb|]. by eapply bst_elem_l.
  - destruct (Z.ltb_spec x v).
    + apply IHr; [apply Hb|]. by eapply bst_elem_r.
    + assert (v = x) as -> by lia. symmetry. by eapply bst_elem_root.
Qed.

(** ** [lower_bound] *)

Lemma lower_bound_loop_spec h tm v t par res fuel :
  repr h tm par t → tm ∉ addrs t → height t < fuel → bst t →
  (res = tm ∨ ∀ x, x ∈ values t → (x < data (h !!! res))%Z) →
  lower_bound_loop fuel h tm v res (rootp tm t) = Some (lb_addr v t res).
Proof.
  revert par fuel res.
  induction t as [|c l IHl p x r IHr]; intros par fuel res Hr Htm Hf Hb Hres.
  - destruct fuel; [lia|]. simpl. by rewrite Pos.eqb_refl.
  - destruct fuel as [|f]; [lia|]. destruct Hr as (Hp & Hl & Hr).
    rewrite addrs_T in Htm. apply not_elem_of_app in Htm as [Htl Htm].
    apply not_elem_of_cons in Htm as [Hne Htr].
    destruct Hb as (Hbl & Hbr & Hb1 & Hb2).
    simpl in Hf. cbn [lower_bound_loop rootp lb_addr].
    rewrite (proj2 (Pos.eqb_neq p tm)) by done.
    rewrite (lookup_total_correct _ _ _ Hp). cbn [negb data left right].
    destruct (x <? v)%Z.
    { apply (IHr p); [done|done|lia|done|].
      destruct Hres as [->|Hres]; [by left|right]. intros y Hy. apply Hres.
      rewrite values_T. apply elem_of_app. right. by right. }
    destruct (v <? x)%Z; [|done].
    assert ((res =? tm)%positive || (x <? data (h !!! res))%Z = true) as ->.
    { destruct Hres as [->|Hres]; [by rewrite Pos.eqb_refl|].
      apply orb_true_iff. right. apply Z.ltb_lt, Hres.
      rewrite values_T. apply elem_of_app. right. by left. }
    apply (IHl p); [done|done|lia|done|]. right.
    by rewrite (lookup_total_correct _ _ _ Hp).
Qed.

Lemma lb_addr_none v t res :
  (∀ x, x ∈ values t → (x < v)%Z) → lb_addr v t res = res.
Proof.
  revert res. induction t as [|c l IHl p x r IHr]; intros res H; [done|].
  rewrite values_T in H. simpl.
  assert (x < v)%Z as Hx by (apply H, elem_of_app; right; by left).
  destruct (Z.ltb_spec x v); [|lia].
  apply IHr. intros y Hy. apply H, elem_of_app. right. by right.
Qed.

Lemma lb_addr_some v t res p x :
  bst t → (p, x) ∈ elems t → (v ≤ x)%Z →
  (∀ y, y ∈ values t → (v ≤ y)%Z → (x ≤ y)%Z) →
  lb_addr v t res = p.
Proof.
  revert res. induction t as [|c l IHl q w r IHr]; intros res Hb Hin Hle Hmin;
    [by apply elem_of_nil in Hin|].
  pose proof Hb as (Hbl & Hbr & Hb1 & Hb2).
  rewrite values_T in Hmin. simpl.
  destruct (Z.ltb_spec w v).
  - apply IHr; [done| |done|].
    + eapply bst_elem_r; [done..|lia].
    + intros y Hy. apply Hmin, elem_of_app. right. by right.
  - destruct (Z.ltb_spec v w).
    + destruct (Z.lt_trichotomy x w) as [Hlt|[->|Hgt]].
      * apply IHl; [done| |done|].
        -- by eapply bst_elem_l.
        -- intros y Hy. apply Hmin, elem_of_app. by left.
      * rewrite (bst_elem_root _ _ _ _ _ _ Hb Hin).
        apply lb_addr_none. intros y Hy.
        destruct (Z.lt_ge_cases y v) as [|Hge]; [done|].
        assert (w ≤ y)%Z by (apply Hmin; [apply elem_of_app; by left|done]).
        specialize (Hbl y Hy). lia.
      * assert (x ≤ w)%Z; [|lia].
        apply Hmin; [|lia]. apply elem_of_app. right. by left.
    + assert (v = w) as -> by lia.
      assert (x ≤ w)%Z.
      { apply Hmin; [|lia]. apply elem_of_app. right. by left. }
      assert (x = w) as -> by lia. symmetry. by eapply bst_elem_root.
Qed.

(** ** [minimum] and [maximum] *)

Lemma hd_app_ne {A} (d : A) l k : l ≠ [] → hd d (l ++ k) = hd d l.
Proof. by destruct l. Qed.

Lemma last_cons_app {A} (d : A) l x k : List.last (l ++ x :: k) d = List.last (x :: k) d.
Proof.
  induction l as [|y l IH]; [done|].
  change ((y :: l) ++ x :: k) with (y :: (l ++ x :: k)).
  cbn [List.last]. destruct (l ++ x :: k) eqn:E; [by destruct l|]. done.
Qed.

Lemma last_app_ne {A} (d : A) l k : k ≠ [] → List.last (l ++ k) d = List.last k d.
Proof. destruct k as [|x k]; [done|]. intros _. apply last_cons_app. Qed.

Lemma addrs_ne c l p v r : addrs (T c l p v r) ≠ [].
Proof. rewrite addrs_T. by destruct (addrs l). Qed.

Lemma minimum_spec h tm par t fuel :
  repr h tm par t → tm ∉ addrs t → t ≠ E → height t ≤ fuel →
  minimum fuel h tm (rootp tm t) = Some (hd tm (addrs t)).
Proof.
  revert par fuel. induction t as [|c l IHl p v r _]; intros par fuel Hr Htm Hne Hf;
    [done|]. clear Hne.
  destruct fuel as [|f]; [simpl in Hf; lia|]. destruct Hr as (Hp & Hl & Hr).
  rewrite addrs_T in Htm. apply not_elem_of_app in Htm as [Htl Htm].
  simpl in Hf. cbn [minimum rootp]. rewrite (lookup_total_correct _ _ _ Hp).
  cbn [left]. destruct l as [|lc ll lp lv lr].
  - cbn [rootp]. by rewrite Pos.eqb_refl.
  - cbn [rootp]. rewrite (proj2 (Pos.eqb_neq lp tm)).
    2:{ intros ->. apply Htl. rewrite addrs_T. apply elem_of_app. right. by left. }
    cbn [negb]. pose proof (IHl p f Hl Htl) as Hm. cbn [rootp] in Hm.
    rewrite Hm; [|done|lia].
    rewrite (addrs_T c). by rewrite hd_app_ne by apply addrs_ne.
Qed.

Lemma maximum_spec h tm par t fuel :
  repr h tm par t → tm ∉ addrs t → t ≠ E → height t ≤ fuel →
  maximum fuel h tm (rootp tm t) = Some (List.last (addrs t) tm).
Proof.
  revert par fuel. induction t as [|c l _ p v r IHr]; intros par fuel Hr Htm Hne Hf;
    [done|]. clear Hne.
  destruct fuel as [|f]; [simpl in Hf; lia|]. destruct Hr as (Hp & Hl & Hr).
  rewrite addrs_T in Htm. apply not_elem_of_app in Htm as [Htl Htm].
  apply not_elem_of_cons in Htm as [Hne Htr].
  simpl in Hf. cbn [maximum rootp]. rewrite (lookup_total_correct _ _ _ Hp).
  cbn [right]. destruct r as [|rc rl rp rv rr].
  - cbn [rootp]. rewrite Pos.eqb_refl. cbn [negb]. rewrite addrs_T.
    by rewrite last_cons_app.
  - cbn [rootp]. rewrite (proj2 (Pos.eqb_neq rp tm)).
    2:{ intros ->. apply Htr. rewrite addrs_T. apply elem_of_app. right. by left. }
    cbn [negb]. pose proof (IHr p f Hr Htr) as Hm. cbn [rootp] in Hm.
    rewrite Hm; [|done|lia].
    rewrite (addrs_T c). rewrite last_cons_app.
    change (p :: addrs (T rc rl rp rv rr)) with ([p] ++ addrs (T rc rl rp rv rr)).
    by rewrite last_app_ne by apply addrs_ne.
Qed.

(** ** [next] and [prev] *)

Lemma next_climb_spec h tm C hole fuel :
  crepr h tm hole C →
  NoDup (tm :: hole :: (cleft C).*1 ++ (cright C).*1) →
  cdepth C < fuel →
  next_climb fuel h tm (cparent tm C) hole = Some (hd tm (cright C).*1).
Proof.
  revert hole fuel.
  induction C as [|c q qv qr up IH|c ql q qv up IH]; intros hole fuel Hc Hnd Hf;
    (destruct fuel as [|f]; [lia|]); simpl in Hf.
  - simpl. by rewrite Pos.eqb_refl.
  - destruct Hc as (Hq & Hqr & Hup). cbn [cleft cright] in Hnd.
    norm_list_in Hnd. nd_atoms Hnd.
    cbn [next_climb cparent cright]. rewrite (lookup_total_correct _ _ _ Hq).
    cbn [right]. rewrite (proj2 (Pos.eqb_neq q tm)) by congruence.
    rewrite (proj2 (Pos.eqb_neq hole (rootp tm qr))) by ne_solve.
    done.
  - destruct Hc as (Hq & Hql & Hup). cbn [cleft cright] in Hnd.
    norm_list_in Hnd. nd_atoms Hnd.
    cbn [next_climb cparent cright]. rewrite (lookup_total_correct _ _ _ Hq).
    cbn [right parent]. rewrite (proj2 (Pos.eqb_neq q tm)) by congruence.
    rewrite Pos.eqb_refl. cbn [negb andb].
    apply IH; [done| |lia]. norm_list. nd_solve.
Qed.

Lemma prev_climb_spec h tm C hole fuel :
  crepr h tm hole C →
  NoDup (tm :: hole :: (cleft C).*1 ++ (cright C).*1) →
  cdepth C < fuel →
  prev_climb fuel h tm (cparent tm C) hole = Some (List.last (cleft C).*1 tm).
Proof.
  revert hole fuel.
  induction C as [|c q qv qr up IH|c ql q qv up IH]; intros hole fuel Hc Hnd Hf;
    (destruct fuel as [|f]; [lia|]); simpl in Hf.
  - simpl. by rewrite Pos.eqb_refl.
  - destruct Hc as (Hq & Hqr & Hup). cbn [cleft cright] in Hnd.
    norm_list_in Hnd. nd_atoms Hnd.
    cbn [prev_climb cparent cleft]. rewrite (lookup_total_correct _ _ _ Hq).
    cbn [left parent]. rewrite (proj2 (Pos.eqb_neq q tm)) by congruence.
    rewrite Pos.eqb_refl. cbn [negb andb].
    apply IH; [done| |lia]. norm_list. nd_solve.
  - destruct Hc as (Hq & Hql & Hup). cbn [cleft cright] in Hnd.
    norm_list_in Hnd. nd_atoms Hnd.
    cbn [prev_climb cparent cleft]. rewrite (lookup_total_correct _ _ _ Hq).
    cbn [left]. rewrite (proj2 (Pos.eqb_neq q tm)) by congruence.
    rewrite (proj2 (Pos.eqb_neq hole (rootp tm ql))) by ne_solve.
    cbn [negb andb]. norm_list. rewrite app_assoc.
    by rewrite (last_cons_app tm _ q []).
Qed.

Lemma next_spec s t L1 p v L2 fuel :
  zrepr s Top t → elems t = L1 ++ (p, v) :: L2 → height t ≤ fuel →
  next fuel (mem s) (terminal_ s) p = Some (hd (terminal_ s) L2.*1).
Proof.
  intros Hz Hel Hf.
  destruct (focus _ _ _ _ _ Hel) as (C & c & l & r & -> & -> & ->).
  pose proof (height_plug C (T c l p v r)) as Hh. simpl in Hh.
  apply zrepr_plug in Hz. destruct s as [h tm rt sz hd tl].
  destruct r as [|rc rl rp rv rr]; zopen Hz; cbn [mem terminal_];
    unfold next; hs.
  - apply next_climb_spec; [done| |lia]. norm_list. nd_solve.
  - pose proof (minimum_spec h tm p (T rc rl rp rv rr) fuel) as Hm.
    cbn [rootp repr] in Hm. rewrite Hm; [| |norm_addrs; nd_solve|done|lia].
    + f_equal. rewrite fmap_app. symmetry. apply hd_app_ne, addrs_ne.
    + by split_and!.
Qed.

Lemma prev_spec s t L1 p v L2 fuel :
  zrepr s Top t → elems t = L1 ++ (p, v) :: L2 → height t ≤ fuel →
  prev fuel (mem s) (terminal_ s) p = Some (List.last L1.*1 (terminal_ s)).
Proof.
  intros Hz Hel Hf.
  destruct (focus _ _ _ _ _ Hel) as (C & c & l & r & -> & -> & ->).
  pose proof (height_plug C (T c l p v r)) as Hh. simpl in Hh.
  apply zrepr_plug in Hz. destruct s as [h tm rt sz hd tl].
  destruct l as [|lc ll lp lv lr]; zopen Hz; cbn [mem terminal_];
    unfold prev; hs.
  - rewrite app_nil_r. apply prev_climb_spec; [done| |lia]. norm_list. nd_solve.
  - pose proof (maximum_spec h tm p (T lc ll lp lv lr) fuel) as Hm.
    cbn [rootp repr] in Hm. rewrite Hm; [| |norm_addrs; nd_solve|done|lia].
    + f_equal. rewrite fmap_app. symmetry. apply last_app_ne, addrs_ne.
    + by split_and!.
Qed.

(** ** Cells of stored elements and iteration *)

Lemma elem_cell s t L1 p v L2 :
  zrepr s Top t → elems t = L1 ++ (p, v) :: L2 →
  p ≠ terminal_ s ∧ data (s.[p]) = v.
Proof.
  intros Hz Hel.
  destruct (focus _ _ _ _ _ Hel) as (C & c & l & r & -> & -> & ->).
  apply zrepr_plug in Hz. destruct s as [h tm rt sz hd tl].
  zopen Hz. cbn [mem terminal_]. split; [congruence|]. by hs.
Qed.

Lemma iterate_from_spec s t n fuel L1 p v L2 :
  zrepr s Top t → elems t = L1 ++ (p, v) :: L2 → height t ≤ fuel →
  length L2 + 2 ≤ n →
  iterate_from n fuel s (mkIter p) = Some (v :: L2.*2).
Proof.
  intros Hz. revert n L1 p v.
  induction L2 as [|[q w] L2 IH]; intros n L1 p v Hel Hf Hn;
    (destruct n as [|n]; [simpl in Hn; lia|]);
    destruct (elem_cell _ _ _ _ _ _ Hz Hel) as [Hne Hd];
    cbn [iterate_from]; unfold iter_eqb, end_, incr, deref; cbn [current];
    rewrite (proj2 (Pos.eqb_neq _ _) Hne); cbn [negb];
    rewrite (next_spec _ _ _ _ _ _ _ Hz Hel Hf); rewrite ?fmap_cons, ?fmap_nil;
    cbn [hd fst snd]; cbn [fmap option_fmap option_map mbind option_bind].
  - destruct n as [|n]; [simpl in Hn; lia|]. cbn [iterate_from].
    unfold iter_eqb, end_. cbn [current]. rewrite Pos.eqb_refl. cbn [negb].
    by rewrite Hd.
  - rewrite (IH n (L1 ++ [(p, v)]) q w).
    + by rewrite Hd.
    + by rewrite <- app_assoc.
    + done.
    + simpl in Hn. lia.
Qed.

Lemma to_list_spec s t fuel :
  zrepr s Top t → head_ok s t → length (elems t) < fuel →
  to_list fuel s = Some (values t).
Proof.
  intros Hz Hh Hf. pose proof (height_le_length t).
  unfold to_list, begin_. rewrite Hh. unfold addrs, values.
  destruct (elems t) as [|[p v] L2] eqn:Hel.
  - destruct fuel as [|f]; [lia|]. cbn [iterate_from hd fmap list_fmap].
    unfold iter_eqb, end_. cbn [current]. by rewrite Pos.eqb_refl.
  - cbn [hd fmap list_fmap fst]. cbn [length] in Hf, H.
    apply (iterate_from_spec s t fuel fuel [] p v L2); [done|done|lia|lia].
Qed.

(** ** Search-tree order and sortedness *)

Lemma bst_sorted t : bst t ↔ StronglySorted Z.lt (values t).
Proof.
  induction t as [|c l IHl p v r IHr]; [split; [constructor|done]|].
  rewrite values_T, StronglySorted_app, StronglySorted_cons, Forall_forall.
  cbn [bst]. rewrite IHl, IHr. split.
  - intros (Hl & Hr & ? & ?). split_and!; [|done..].
    intros x1 x2 H1 [->|H2]%elem_of_cons; [by apply Hl|].
    specialize (Hl _ H1). specialize (Hr _ H2). lia.
  - intros (H & ? & ? & ?). split_and!; [|done..].
    intros x Hx. apply (H x v Hx). by left.
Qed.

(** ** Red-black invariants of plugged contexts *)

Ltac rbs := repeat (progress (simpl in *; unfold rbt, arb in * )).

Lemma accepts_black C n c : accepts C n c → accepts C n BLACK.
Proof. destruct C; simpl; [done|tauto..]. Qed.

Lemma accepts_eq C n m c : accepts C n c → n = m → accepts C m BLACK.
Proof. intros H <-. by eapply accepts_black. Qed.

Lemma accepts_eq' C n m c : accepts C n c → n = m → accepts C m c.
Proof. by intros H <-. Qed.

Ltac acc_solve :=
  first [ eapply accepts_eq'; [eassumption|lia]
        | eapply accepts_eq; [eassumption|lia] ].

Ltac elems_eq :=
  cbn [plug]; rewrite ?elems_plug;
  repeat first [rewrite <- app_assoc | progress simpl]; done.

Lemma accepts_plug C t :
  rbt t → accepts C (bh t) (rcolor t) →
  rbt (plug C t) ∧ rcolor (plug C t) = BLACK.
Proof.
  revert t. induction C as [|c p v r up IH|c l p v up IH]; intros t Ht Ha.
  - done.
  - destruct Ha as (Hb & Hr & Hc & Hup). apply IH; [|done].
    rbs. intuition congruence.
  - destruct Ha as (Hb & Hr & Hc & Hup). apply IH.
    + rbs. intuition congruence.
    + simpl. by rewrite Hb.
Qed.

Lemma plug_accepts C t :
  rbt (plug C t) → rcolor (plug C t) = BLACK →
  rbt t ∧ accepts C (bh t) (rcolor t).
Proof.
  revert t. induction C as [|c p v r up IH|c l p v up IH]; intros t Ht Hc.
  - done.
  - destruct (IH _ Ht Hc) as [Hs Hup]. rbs. intuition congruence.
  - destruct (IH _ Ht Hc) as [Hs Hup]. rbs.
    destruct Hs as ((Hb & ? & ?) & Hn). rewrite Hb in Hup.
    intuition congruence.
Qed.

Lemma rcolor_plug_accepts C t n c :
  C ≠ Top → accepts C n c → rcolor (plug C t) = BLACK.
Proof.
  revert t n c. induction C as [|c' p v r up IH|c' l p v up IH]; intros t n c HC Ha;
    [done| |]; simpl in *; destruct Ha as (_ & _ & _ & Hup);
    (destruct up; [by simpl in *|eapply IH; [done|exact Hup]..]).
Qed.

Lemma elems_blacken t : elems (blacken t) = elems t.
Proof. by destruct t. Qed.

Lemma blacken_black t : rcolor t = BLACK → blacken t = t.
Proof. destruct t as [|[] ????]; simpl; congruence. Qed.

(** ** One round of [insert_fix_up] *)

Lemma ifu_progress C t :
  ifu_inv C t → top_red C = true → is_Some (ifu_step C t).
Proof.
  destruct t as [|[] l x v r]; [done..|]. intros (_ & _ & _ & _ & _ & Ha) Hr.
  destruct C as [|[] p pv sib up|[] sib p pv up]; try done;
    simpl in Ha; destruct Ha as (_ & _ & _ & Ha);
    (destruct up as [|gc g gv unc up|gc unc g gv up]; [done|..]);
    simpl; destruct unc as [|[] ????]; eauto.
Qed.

Lemma ifu_step_inv C t C' t' :
  ifu_inv C t → ifu_step C t = Some (C', t') →
  ifu_inv C' t' ∧ elems (plug C' t') = elems (plug C t) ∧ cdepth C' < cdepth C.
Proof.
  destruct t as [|[] l x v r]; [done..|]. intros (Hl & Hr & Hcl & Hcr & Hb & Ha) Hs.
  destruct C as [|[] p pv sib up|[] sib p pv up]; try done;
    simpl in Ha; destruct Ha as (Hbs & Hsib & Hc1 & Ha);
    (destruct up as [|gc g gv unc up|gc unc g gv up]; [done|..]);
    simpl in Ha; destruct Ha as (Hbu & Hunc & Hc2 & Ha);
    destruct (Hc1 eq_refl) as [_ Hcs];
    (destruct gc; [|by destruct (Hc2 eq_refl)]);
    destruct unc as [|[] ul y uv ur]; simpl in Hs; simplify_eq;
    (split; [|split; [|simpl; lia]];
     [ rbs; intuition (try lia; try congruence; try acc_solve)
     | elems_eq ]).
Qed.

Lemma ifu_exit C t :
  ifu_inv C t → top_red C = false →
  rbt (blacken (plug C t)) ∧ rcolor (blacken (plug C t)) = BLACK.
Proof.
  destruct t as [|[] l x v r]; [done..|]. intros (Hl & Hr & Hcl & Hcr & Hb & Ha) Ht.
  destruct C as [|c p pv sib up|c sib p pv up].
  - rbs. tauto.
  - destruct c; [|done].
    assert (rbt (plug (CL BLACK p pv sib up) (T RED l x v r))
            ∧ rcolor (plug (CL BLACK p pv sib up) (T RED l x v r)) = BLACK) as [H1 H2].
    { apply accepts_plug; rbs;
      intuition (try lia; try congruence; try acc_solve). }
    by rewrite blacken_black.
  - destruct c; [|done].
    assert (rbt (plug (CR BLACK sib p pv up) (T RED l x v r))
            ∧ rcolor (plug (CR BLACK sib p pv up) (T RED l x v r)) = BLACK) as [H1 H2].
    { apply accepts_plug; rbs;
      intuition (try lia; try congruence; try acc_solve). }
    by rewrite blacken_black.
Qed.

(** ** [insert_fix_up] follows [ifu_step] *)

Ltac zfinish :=
  eexists; split; [reflexivity|split; [|done]].

(** The last statement of the round is a rotation. *)
Ltac rot_fields :=
  lazymatch goal with
  | |- same_fields _ (left_rotate ?x ?s) =>
      let Hf := fresh in
      pose proof (left_rotate_fields x s) as Hf;
      unfold same_fields in *; cbn [terminal_ size_ head_ tail_] in *; exact Hf
  | |- same_fields _ (right_rotate ?x ?s) =>
      let Hf := fresh in
      pose proof (right_rotate_fields x s) as Hf;
      unfold same_fields in *; cbn [terminal_ size_ head_ tail_] in *; exact Hf
  end.

Ltac rot_zrepr :=
  lazymatch goal with
  | |- zrepr (left_rotate _ _) _ _ => apply left_rotate_zrepr
  | |- zrepr (right_rotate _ _) _ _ => apply right_rotate_zrepr
  end.

Ltac zrefocus_up :=
  lazymatch goal with
  | |- zrepr _ (CL _ _ _ _ _) _ => apply (proj2 (zrepr_up_l _ _ _ _ _ _ _))
  | |- zrepr _ (CR _ _ _ _ _) _ => apply (proj2 (zrepr_up_r _ _ _ _ _ _ _))
  end.

Ltac zrot_last :=
  zeta1; eexists; split; [reflexivity|split];
  [ zrefocus_up; rot_zrepr; zsolve | rot_fields ].

Ltac ifu_open f :=
  cbn [terminal_];
  change (insert_fix_up (S f)) with (insert_fix_up_round (insert_fix_up f));
  cbv beta delta [insert_fix_up_round].

Lemma ifu_step_sim f s C c l x v r C' t' :
  zrepr s C (T c l x v r) →
  ifu_step C (T c l x v r) = Some (C', t') →
  ∃ s', insert_fix_up (S f) x s = insert_fix_up f (rootp (terminal_ s) t') s'
        ∧ zrepr s' C' t' ∧ same_fields s s'.
Proof.
  intros Hz Hs. destruct s as [h tm rt sz hd tl].
  destruct C as [|[] p pv sib up|[] sib p pv up]; try done;
    (destruct up as [|gc g gv unc up|gc unc g gv up]; [done|..]);
    destruct unc as [|[] ul y uv ur]; simpl in Hs; simplify_eq;
    zopen Hz; ifu_open f; hs.
  - zrot_last.
  - zrot_last.
  - zfinish. zsolve.
  - zrot (CR gc E g gv up) (T RED (T c l x v r) p pv sib). hs. zrot_last.
  - zrot (CR gc (T BLACK ul y uv ur) g gv up) (T RED (T c l x v r) p pv sib).
    hs. zrot_last.
  - zfinish. zsolve.
  - zrot (CL gc g gv E up) (T RED sib p pv (T c l x v r)). hs. zrot_last.
  - zrot (CL gc g gv (T BLACK ul y uv ur) up) (T RED sib p pv (T c l x v r)).
    hs. zrot_last.
  - zfinish. zsolve.
  - zrot_last.
  - zrot_last.
  - zfinish. zsolve.
Qed.

Lemma plug_T C c l x v r :
  ∃ c' l' x' v' r', plug C (T c l x v r) = T c' l' x' v' r'.
Proof.
  revert c l x v r. induction C as [|cc p pv sib up IH|cc sib p pv up IH];
    intros c l x v r; simpl; [by eexists _, _, _, _, _|apply IH..].
Qed.

Lemma blacken_root_zrepr s c l p v r :
  zrepr s Top (T c l p v r) →
  zrepr (set_color p BLACK s) Top (T BLACK l p v r).
Proof. intros Hz. destruct s as [h tm rt sz hd tl]. zopen Hz. zsolve. Qed.

Lemma ifu_exit_sim f s C c l x v r :
  zrepr s C (T c l x v r) → top_red C = false →
  insert_fix_up (S f) x s = Some (set_color (root_ s) BLACK s)
  ∧ zrepr (set_color (root_ s) BLACK s) Top (blacken (plug C (T c l x v r))).
Proof.
  intros Hz Ht. split.
  - destruct s as [h tm rt sz hd tl].
    destruct C as [|[] p pv sib up|[] sib p pv up]; try done;
      zopen Hz; ifu_open f; by hs.
  - apply zrepr_plug in Hz. pose proof (zr_root _ _ _ Hz) as Hr.
    destruct (plug_T C c l x v r) as (c' & l' & x' & v' & r' & E).
    rewrite E in *. simpl in Hr. rewrite Hr. cbn [blacken].
    by apply (blacken_root_zrepr s c').
Qed.

Lemma same_fields_refl s : same_fields s s.
Proof. by unfold same_fields. Qed.

Lemma same_fields_trans s1 s2 s3 :
  same_fields s1 s2 → same_fields s2 s3 → same_fields s1 s3.
Proof. unfold same_fields. intuition congruence. Qed.

Lemma set_color_fields p c s : same_fields s (set_color p c s).
Proof. by unfold same_fields. Qed.

(** The loop of [insert_fix_up], from any state satisfying its invariant. *)
Lemma insert_fix_up_spec f s C t :
  zrepr s C t → ifu_inv C t → cdepth C < f →
  ∃ s' t', insert_fix_up f (rootp (terminal_ s) t) s = Some s'
           ∧ zrepr s' Top t' ∧ elems t' = elems (plug C t)
           ∧ rbt t' ∧ rcolor t' = BLACK ∧ same_fields s s'.
Proof.
  revert s C t. induction f as [|f IH]; intros s C t Hz Hi Hf; [lia|].
  pose proof Hi as Hi'. destruct t as [|c l x v r]; [done|]. cbn [rootp].
  destruct (top_red C) eqn:Ht.
  - destruct (ifu_progress _ _ Hi Ht) as [[C' t'] Hs].
    destruct (ifu_step_inv _ _ _ _ Hi Hs) as (Hi1 & He & Hd).
    destruct (ifu_step_sim f s C c l x v r C' t' Hz Hs) as (s1 & E1 & Hz1 & Hf1).
    destruct (IH s1 C' t' Hz1 Hi1) as (s' & t2 & E2 & Hz2 & He2 & Hr2 & Hc2 & Hf2);
      [lia|].
    exists s', t2. rewrite E1. pose proof Hf1 as (Et & _). rewrite <- Et.
    split_and!; [done|done|congruence|done|done|].
    by eapply same_fields_trans.
  - destruct (ifu_exit_sim f s C c l x v r Hz Ht) as [E Hz'].
    destruct (ifu_exit _ _ Hi Ht) as [Hr Hc].
    eexists _, _. split_and!; [done|done|apply elems_blacken|done|done|].
    apply set_color_fields.
Qed.

(** ** The search loop of [insert] *)

Lemma insert_descend_found h tm v fuel t y :
  repr h tm y t → tm ∉ addrs t → bst t → height t < fuel → v ∈ values t →
  insert_descend fuel h tm v y (rootp tm t) = Some Found.
Proof.
  revert y fuel. induction t as [|c l IHl p x r IHr]; intros y fuel Hr Htm Hb Hf Hv.
  - by apply elem_of_nil in Hv.
  - destruct fuel as [|f]; [lia|]. destruct Hr as (Hp & Hl & Hr).
    rewrite addrs_T in Htm. apply not_elem_of_app in Htm as [Htl Htm].
    apply not_elem_of_cons in Htm as [Hne Htr].
    destruct Hb as (Hbl & Hbr & Hb1 & Hb2). simpl in Hf.
    cbn [insert_descend rootp].
    rewrite (proj2 (Pos.eqb_neq p tm)) by done.
    rewrite (lookup_total_correct _ _ _ Hp). cbn [negb data left right].
    rewrite values_T in Hv. apply elem_of_app in Hv as [Hv|Hv].
    { specialize (Hbl _ Hv). rewrite (proj2 (Z.ltb_lt v x)) by done.
      apply IHl; [done..|lia|done]. }
    apply elem_of_cons in Hv as [->|Hv].
    { by rewrite Z.ltb_irrefl. }
    specialize (Hbr _ Hv). rewrite (proj2 (Z.ltb_ge v x)) by lia.
    rewrite (proj2 (Z.ltb_lt x v)) by done. apply IHr; [done..|lia|done].
Qed.

Lemma insert_descend_attach h tm v fuel t C0 :
  repr h tm (cparent tm C0) t → tm ∉ addrs t → bst t → height t < fuel →
  v ∉ values t → all_lt v (cleft C0) → all_gt v (cright C0) →
  ∃ C, insert_descend fuel h tm v (cparent tm C0) (rootp tm t)
       = Some (Attach (cparent tm C))
       ∧ plug C E = plug C0 t ∧ cdepth C ≤ cdepth C0 + height t
       ∧ all_lt v (cleft C) ∧ all_gt v (cright C).
Proof.
  revert C0 fuel. induction t as [|c l IHl p x r IHr];
    intros C0 fuel Hr Htm Hb Hf Hv Hlt Hgt.
  - destruct fuel; [lia|]. exists C0. simpl. rewrite Pos.eqb_refl. simpl.
    split_and!; [done|done|lia|done|done].
  - destruct fuel as [|f]; [lia|]. destruct Hr as (Hp & Hl & Hr).
    rewrite addrs_T in Htm. apply not_elem_of_app in Htm as [Htl Htm].
    apply not_elem_of_cons in Htm as [Hne Htr].
    destruct Hb as (Hbl & Hbr & Hb1 & Hb2). simpl in Hf.
    rewrite values_T in Hv. apply not_elem_of_app in Hv as [Hvl Hv].
    apply not_elem_of_cons in Hv as [Hvx Hvr].
    cbn [insert_descend rootp].
    rewrite (proj2 (Pos.eqb_neq p tm)) by done.
    rewrite (lookup_total_correct _ _ _ Hp). cbn [negb data left right].
    destruct (Z.ltb_spec v x).
    + destruct (IHl (CL c p x r C0) f) as (C & E1 & E2 & Hd & H1 & H2);
        [done|done|done|lia|done|done| |].
      { intros y Hy. cbn [cright] in Hy. rewrite fmap_cons, fmap_app in Hy.
        apply elem_of_cons in Hy as [->|Hy]; [done|].
        apply elem_of_app in Hy as [Hy|Hy]; [|by apply Hgt].
        specialize (Hbr _ Hy). clear -H Hbr. lia. }
      exists C. cbn [cparent] in E1. rewrite E1. simpl in Hd.
      split_and!; [done|done|cbn [height]; lia|done|done].
    + rewrite (proj2 (Z.ltb_lt x v)) by lia.
      destruct (IHr (CR c l p x C0) f) as (C & E1 & E2 & Hd & H1 & H2);
        [done|done|done|lia|done| |done|].
      { intros y Hy. cbn [cleft] in Hy. rewrite !fmap_app in Hy.
        apply elem_of_app in Hy as [Hy|Hy]; [by apply Hlt|].
        apply elem_of_app in Hy as [Hy|Hy].
        - specialize (Hbl _ Hy). clear -H Hbl. lia.
        - apply list_elem_of_singleton in Hy as ->. simpl. clear -H Hvx. lia. }
      exists C. cbn [cparent] in E1. rewrite E1. simpl in Hd.
      split_and!; [done|done|cbn [height]; lia|done|done].
Qed.

(** ** Allocation and linking of the new node *)

Lemma repr_dom h tm par t p :
  repr h tm par t → p ∈ (elems t).*1 → p ∈ dom h.
Proof.
  revert par. induction t as [|c l IHl q v r IHr]; intros par Hr Hp.
  - by apply elem_of_nil in Hp.
  - destruct Hr as (Hq & Hl & Hr). cbn [elems] in Hp.
    rewrite fmap_app, fmap_cons in Hp.
    apply elem_of_app in Hp as [Hp|Hp]; [by eapply IHl|].
    apply elem_of_cons in Hp as [->|Hp]; [|by eapply IHr].
    by apply elem_of_dom.
Qed.

Lemma crepr_dom h tm hole C p :
  crepr h tm hole C → p ∈ (cleft C).*1 ++ (cright C).*1 → p ∈ dom h.
Proof.
  revert hole. induction C as [|c q v r up IH|c l q v up IH]; intros hole Hc Hp.
  - by apply elem_of_nil in Hp.
  - destruct Hc as (Hq & Hr & Hup). cbn [cleft cright] in Hp.
    rewrite fmap_cons, fmap_app in Hp.
    apply elem_of_app in Hp as [Hp|Hp].
    { eapply IH; [done|]. apply elem_of_app. by left. }
    apply elem_of_cons in Hp as [->|Hp]; [by apply elem_of_dom|].
    apply elem_of_app in Hp as [Hp|Hp]; [by eapply repr_dom|].
    eapply IH; [done|]. apply elem_of_app. by right.
  - destruct Hc as (Hq & Hl & Hup). cbn [cleft cright] in Hp.
    rewrite !fmap_app in Hp.
    apply elem_of_app in Hp as [Hp|Hp].
    2:{ eapply IH; [done|]. apply elem_of_app. by right. }
    apply elem_of_app in Hp as [Hp|Hp].
    { eapply IH; [done|]. apply elem_of_app. by left. }
    apply elem_of_app in Hp as [Hp|Hp]; [by eapply repr_dom|].
    apply list_elem_of_singleton in Hp as ->. by apply elem_of_dom.
Qed.

Lemma zrepr_dom s C t p :
  zrepr s C t → p ∈ terminal_ s :: addrs (plug C t) → p ∈ dom (mem s).
Proof.
  intros [_ Hs Hc _ (d & q & Ht)] Hp.
  apply elem_of_cons in Hp as [->|Hp]; [by apply elem_of_dom|].
  unfold addrs in Hp. rewrite elems_plug, !fmap_app in Hp.
  apply elem_of_app in Hp as [Hp|Hp].
  { eapply crepr_dom; [done|]. apply elem_of_app. by left. }
  apply elem_of_app in Hp as [Hp|Hp]; [by eapply repr_dom|].
  eapply crepr_dom; [done|]. apply elem_of_app. by right.
Qed.

Lemma fresh_not_stored s C t :
  zrepr s C t → fresh (dom (mem s)) ∉ terminal_ s :: addrs (plug C t).
Proof.
  intros Hz Hin. apply (is_fresh (dom (mem s))). by eapply zrepr_dom.
Qed.

Lemma insert_link_zrepr s C v :
  zrepr s C E → link_ord v C →
  zrepr (insert_link v (cparent (terminal_ s) C) s).2 C
        (T RED E (insert_link v (cparent (terminal_ s) C) s).1 v E).
Proof.
  intros Hz Ho. pose proof (fresh_not_stored _ _ _ Hz) as Hfr.
  destruct s as [h tm rt sz hd tl]. cbn [mem terminal_] in Hfr.
  cbv beta delta [insert_link alloc]. cbn [mem terminal_].
  set (z := fresh (dom h)) in *. clearbody z.
  destruct C as [|c p pv r up|c l p pv up]; zopen Hz;
    norm_addrs_in Hfr; nd_atoms Hfr; cbn [link_ord] in Ho; hs;
    repeat match goal with
    | |- context [if ?b then set_head _ _ else _] => destruct b
    | |- context [if ?b then set_tail _ _ else _] => destruct b
    end; hs;
    rewrite ?(proj2 (Z.ltb_lt _ _)) by done;
    rewrite ?(proj2 (Z.ltb_ge _ _)) by lia;
    hs; zsolve.
Qed.

Lemma insert_link_fields v y s :
  let z := fresh (dom (mem s)) in
  let n := mkNode v RED (terminal_ s) (terminal_ s) y in
  (insert_link v y s).1 = z
  ∧ terminal_ (insert_link v y s).2 = terminal_ s
  ∧ size_ (insert_link v y s).2 = S (size_ s)
  ∧ head_ (insert_link v y s).2 =
      (if (head_ s =? terminal_ s)%positive
          || (v <? data (<[z:=n]> (mem s) !!! head_ s))%Z
       then z else head_ s)
  ∧ tail_ (insert_link v y s).2 =
      (if (tail_ s =? terminal_ s)%positive
          || (data (<[z:=n]> (mem s) !!! tail_ s) <? v)%Z
       then z else tail_ s).
Proof.
  destruct s as [h tm rt sz hd tl]. unfold insert_link, alloc.
  cbn [mem terminal_ head_ tail_ store fst snd]. cbv zeta.
  match goal with |- context [if ?b then set_head _ _ else _] => destruct b end;
    cbn [mem terminal_ head_ tail_ size_ store set_head fst snd];
    (match goal with |- context [if ?b then set_tail _ _ else _] => destruct b end);
    cbn [mem terminal_ head_ tail_ size_ store set_tail fst snd];
    repeat (match goal with |- context [if ?b then _ else _] => destruct b end);
    repeat split; reflexivity.
Qed.

Lemma head_link s t L1 L2 v z n :
  zrepr s Top t → head_ok s t → elems t = L1 ++ L2 →
  all_lt v L1 → all_gt v L2 → z ∉ terminal_ s :: addrs t →
  (if (head_ s =? terminal_ s)%positive
      || (v <? data (<[z:=n]> (mem s) !!! head_ s))%Z
   then z else head_ s) = hd (terminal_ s) (L1 ++ (z, v) :: L2).*1.
Proof.
  intros Hz Hh He Hlt Hgt Hfr. unfold head_ok, addrs in Hh. rewrite Hh, He.
  apply not_elem_of_cons in Hfr as [Hzt Hza]. unfold addrs in Hza. rewrite He in Hza.
  destruct L1 as [|[q w] L1]; [destruct L2 as [|[q w] L2]|]; cbn [app hd fmap list_fmap fst].
  - by rewrite Pos.eqb_refl.
  - destruct (elem_cell s t [] q w L2 Hz He) as [Hq Hd].
    rewrite lookup_total_insert_ne.
    2:{ intros ->. apply Hza. by left. }
    rewrite Hd. assert (v < w)%Z by (apply Hgt; by left).
    rewrite (proj2 (Z.ltb_lt v w)) by done. by rewrite orb_true_r.
  - destruct (elem_cell s t [] q w (L1 ++ L2) Hz He) as [Hq Hd].
    rewrite lookup_total_insert_ne.
    2:{ intros ->. apply Hza. by left. }
    rewrite Hd. assert (w < v)%Z by (apply Hlt; by left).
    rewrite (proj2 (Z.ltb_ge v w)) by lia.
    by rewrite (proj2 (Pos.eqb_neq q _)).
Qed.

Lemma last_snoc_app {A} (d : A) l x : List.last (l ++ [x]) d = x.
Proof. by rewrite last_cons_app. Qed.

Lemma tail_link s t L1 L2 v z n :
  zrepr s Top t → tail_ok s t → elems t = L1 ++ L2 →
  all_lt v L1 → all_gt v L2 → z ∉ terminal_ s :: addrs t →
  (if (tail_ s =? terminal_ s)%positive
      || (data (<[z:=n]> (mem s) !!! tail_ s) <? v)%Z
   then z else tail_ s) = List.last (L1 ++ (z, v) :: L2).*1 (terminal_ s).
Proof.
  intros Hz Hh He Hlt Hgt Hfr. unfold tail_ok, addrs in Hh. rewrite Hh, He.
  apply not_elem_of_cons in Hfr as [Hzt Hza]. unfold addrs in Hza. rewrite He in Hza.
  rewrite !fmap_app, fmap_cons. rewrite last_cons_app.
  destruct L2 as [|[q w] L2 _] using rev_ind;
    [destruct L1 as [|[q w] L1 _] using rev_ind|].
  - cbn. by rewrite Pos.eqb_refl.
  - rewrite app_nil_r in *. rewrite fmap_app in *. cbn [fmap list_fmap fst] in *.
    rewrite last_snoc_app.
    destruct (elem_cell s t L1 q w [] Hz He) as [Hq Hd].
    rewrite lookup_total_insert_ne.
    2:{ intros ->. apply Hza, elem_of_app. right. by left. }
    rewrite Hd. assert (w < v)%Z.
    { apply Hlt. rewrite fmap_app. apply elem_of_app. right. by left. }
    rewrite (proj2 (Z.ltb_lt w v)) by done. rewrite orb_true_r. by cbn.
  - rewrite app_assoc in He.
    destruct (elem_cell s t (L1 ++ L2) q w [] Hz He) as [Hq Hd].
    rewrite !fmap_app in *. cbn [fmap list_fmap fst] in *.
    rewrite (app_assoc _ _ [q]), last_snoc_app.
    rewrite lookup_total_insert_ne.
    2:{ intros ->. apply Hza. rewrite app_assoc. apply elem_of_app. right. by left. }
    rewrite Hd. assert (v < w)%Z.
    { apply Hgt. rewrite fmap_app. apply elem_of_app. right. by left. }
    rewrite (proj2 (Z.ltb_ge w v)) by lia.
    rewrite (proj2 (Pos.eqb_neq q _)) by done. cbn [orb]. symmetry.
    apply (last_cons_app (terminal_ s) (z :: L2.*1) q []).
Qed.

(** ** [insert] *)

Lemma wf_tm_notin s t : zrepr s Top t → terminal_ s ∉ addrs t.
Proof.
  intros Hz. pose proof (zr_nodup _ _ _ Hz) as H. by apply NoDup_cons in H as [H _].
Qed.

Lemma link_ord_of C v : all_lt v (cleft C) → all_gt v (cright C) → link_ord v C.
Proof.
  destruct C as [|c p pv r up|c l p pv up]; [done| |]; intros Hl Hg; simpl.
  - apply Hg. simpl. by left.
  - apply Hl. simpl. rewrite !fmap_app. apply elem_of_app. right.
    apply elem_of_app. right. by left.
Qed.

Lemma sorted_insert_mid (L1 L2 : list (ptr * Z)) z v :
  StronglySorted Z.lt (L1 ++ L2).*2 → all_lt v L1 → all_gt v L2 →
  StronglySorted Z.lt (L1 ++ (z, v) :: L2).*2.
Proof.
  rewrite !fmap_app, fmap_cons. cbn [snd].
  rewrite !StronglySorted_app, StronglySorted_cons, Forall_forall.
  intros (H12 & H1 & H2) Hlt Hgt. split_and!; [|done|done|done].
  intros x1 x2 Hx1 [->|Hx2]%elem_of_cons; [by apply Hlt|].
  by apply H12.
Qed.

Lemma insert_new s t v fuel :
  wf s t → v ∉ values t → length (elems t) < fuel →
  ∃ s' t' L1 L2 z,
    insert fuel v s = Some s' ∧ wf s' t'
    ∧ elems t = L1 ++ L2 ∧ elems t' = L1 ++ (z, v) :: L2
    ∧ all_lt v L1 ∧ all_gt v L2 ∧ terminal_ s' = terminal_ s.
Proof.
  intros [Hz Hb Hc Hn Hbal Hh Htl Hsz] Hv Hf.
  pose proof (height_le_length t) as Hht.
  pose proof (wf_tm_notin _ _ Hz) as Htm.
  destruct (insert_descend_attach (mem s) (terminal_ s) v fuel t Top)
    as (C & Ed & Ep & Hd & Hlt & Hgt);
    [apply (zr_sub _ _ _ Hz)|done|done|lia|done|by intros ? ?%elem_of_nil..|].
  simpl in Ep, Ed, Hd. subst t.
  unfold insert. rewrite (zr_root _ _ _ Hz). cbn [plug]. rewrite Ed.
  pose proof (proj2 (zrepr_plug s C E) Hz) as HzC.
  pose proof (insert_link_zrepr s C v HzC (link_ord_of _ _ Hlt Hgt)) as Hz1.
  pose proof (fresh_not_stored _ _ _ Hz) as Hfr. cbn [plug] in Hfr.
  destruct (insert_link_fields v (cparent (terminal_ s) C) s)
    as (E1 & Et1 & Es1 & Eh1 & Etl1).
  destruct (insert_link v (cparent (terminal_ s) C) s) as [z s1].
  cbn [fst snd] in *. subst z.
  set (z := fresh (dom (mem s))) in *.
  destruct (plug_accepts C E) as [_ Ha]; [done|done|].
  destruct (insert_fix_up_spec fuel s1 C (T RED E z v E) Hz1)
    as (s' & t' & Ef & Hz' & He' & Hr' & Hc' & Hf');
    [unfold ifu_inv, rbt; simpl in *; tauto|lia|].
  rewrite Et1 in Ef. cbn [rootp] in Ef.
  destruct Hf' as (Et' & Es' & Eh' & Etl').
  rewrite elems_plug in He'. cbn [elems app] in He'.
  pose proof (elems_plug C E) as HeC. cbn [elems app] in HeC.
  exists s', t', (cleft C), (cright C), z.
  split_and!; [done| |done|done|done|done|congruence].
  destruct Hr' as [Hbal' Hn'].
  split; [done| |done|done|done|..].
  - apply bst_sorted. unfold values. rewrite He'.
    apply sorted_insert_mid; [|done|done].
    apply bst_sorted in Hb. unfold values in Hb. by rewrite HeC in Hb.
  - unfold head_ok, addrs. rewrite Eh', Eh1, Et', Et1, He'.
    by apply (head_link s (plug C E)).
  - unfold tail_ok, addrs. rewrite Etl', Etl1, Et', Et1, He'.
    by apply (tail_link s (plug C E)).
  - rewrite Es', Es1, Hsz, He', HeC, !length_app. simpl. lia.
Qed.

Lemma insert_dup s t v fuel :
  wf s t → v ∈ values t → length (elems t) < fuel → insert fuel v s = Some s.
Proof.
  intros [Hz Hb Hc Hn Hbal Hh Htl Hsz] Hv Hf.
  pose proof (height_le_length t) as Hht.
  pose proof (wf_tm_notin _ _ Hz) as Htm.
  unfold insert. rewrite (zr_root _ _ _ Hz). cbn [plug].
  rewrite (insert_descend_found (mem s) (terminal_ s) v fuel t (terminal_ s));
    [done|apply (zr_sub _ _ _ Hz)|done|done|lia|done].
Qed.

(** ** One round of [erase_fix_up], on zippers *)

Lemma bh_pos_T t n : bh t = S n → rbt t → ∃ c l p v r, t = T c l p v r.
Proof. destruct t; [done|]. intros _ _. by eexists _, _, _, _, _. Qed.

Lemma rcolor_red_T t : rcolor t = RED → ∃ l p v r, t = T RED l p v r.
Proof. destruct t as [|[] ????]; try done. intros _. by eexists _, _, _, _. Qed.

Ltac rb_auto :=
  rbs; intuition (subst; simpl in *; try lia; try congruence; try acc_solve).

Lemma efu_progress C t :
  efu_inv C t → rcolor t = BLACK → C ≠ Top → is_Some (efu_step C t).
Proof.
  intros [Ha Hacc] Hc HC. unfold efu_step.
  destruct C as [|pc p pv sib up|pc sib p pv up]; [done|..];
    destruct Hacc as (Hb & Hs & Hcc & Hup);
    destruct sib as [|wc wl w wv wr]; try done;
    (destruct wc; cbn [efu_red mbind option_bind];
     [|destruct wl as [|wlc wll wl' wlv wlr], wr as [|wrc wrl wr' wrv wrr];
       rbs; try lia]);
    cbn [efu_black];
    repeat match goal with
    | |- context [is_black (rcolor ?t)] =>
        destruct t as [|[] ????]; cbn [rcolor is_black andb]
    end; eauto.
Qed.

Lemma arb_rbt t : arb t → rcolor t = BLACK → rbt t.
Proof. destruct t as [|[] ????]; rbs; intuition congruence. Qed.

Lemma rbt_arb t : rbt t → arb t.
Proof. destruct t; rbs; tauto. Qed.

Lemma efu_inv_whole C t :
  rbt t → accepts C (bh t) (rcolor t) → efu_inv Top (plug C t).
Proof.
  intros Hr Ha. destruct (accepts_plug C t Hr Ha) as [H1 H2].
  split; [by apply rbt_arb|done].
Qed.

Lemma efu_step_inv C t C' t' :
  efu_inv C t → rcolor t = BLACK → efu_step C t = Some (C', t') →
  efu_inv C' t' ∧ elems (plug C' t') = elems (plug C t)
  ∧ (rcolor t' = RED ∨ cdepth C' < cdepth C).
Proof.
  intros [Ha Hacc] Hc Hs. unfold efu_step in Hs. apply arb_rbt in Ha; [|done].
  destruct C as [|pc p pv sib up|pc sib p pv up]; [done|..];
    destruct Hacc as (Hb & Hsib & Hcc & Hup);
    (destruct sib as [|wc wl w wv wr]; [done|]);
    destruct pc;
    (destruct wc; cbn [efu_red mbind option_bind] in Hs;
     [|destruct wl as [|wlc wll wl' wlv wlr], wr as [|wrc wrl wr' wrv wrr];
       try (exfalso; rbs; lia)]);
    try (by destruct (Hcc eq_refl));
    cbn [efu_black] in Hs;
    repeat match type of Hs with
    | context [is_black (rcolor ?t)] =>
        destruct t as [|[] ????]; cbn [rcolor is_black andb] in Hs
    end; simplify_eq;
    ((split; [|split]);
     [ first [ apply efu_inv_whole; rb_auto | unfold efu_inv; rb_auto ]
     | elems_eq
     | cbn; first [left; reflexivity | right; lia] ]).
Qed.

Lemma efu_exit C t :
  efu_inv C t → C = Top ∨ rcolor t = RED →
  rbt (plug C (blacken t)) ∧ rcolor (plug C (blacken t)) = BLACK.
Proof.
  intros [Ha Hacc] [->|Hc].
  - cbn [plug]. destruct Ha as [Hb Hn]. destruct t as [|c l p v r]; [done|].
    unfold rbt. cbn in *. intuition congruence.
  - destruct (rcolor_red_T _ Hc) as (l & p & v & r & ->).
    apply accepts_plug; rb_auto.
Qed.

(** ** [erase_fix_up] follows [efu_step] *)

(** Colour facts for the subtrees that stay closed. *)
Ltac zcolors :=
  repeat match goal with
  | Hr : repr ?h ?tm _ ?t, Hs : ?h !! ?tm = Some _ |- _ =>
      is_var t;
      lazymatch goal with
      | _ : color (h !!! rootp tm t) = _ |- _ => fail
      | _ => pose proof (root_color h tm _ t _ Hr Hs eq_refl)
      end
  end;
  repeat match goal with
  | Hc : rcolor ?t = _, Hf : color _ = rcolor ?t |- _ => rewrite Hc in Hf
  end.

Ltac efu_open f :=
  cbn [terminal_];
  change (erase_fix_up (S f)) with (erase_fix_up_round (erase_fix_up f));
  cbv beta delta [erase_fix_up_round].

Lemma root_parent (h : heap) tm par t d c l r x0 :
  repr h tm par t → h !! tm = Some (mkNode d c l r x0) →
  (t = E → x0 = par) → parent (h !!! rootp tm t) = par.
Proof.
  destruct t as [|tc tl p v tr]; cbn [repr rootp].
  - intros _ Hs Hx. rewrite (lookup_total_correct _ _ _ Hs). by apply Hx.
  - intros (Hp & _) _ _. by rewrite (lookup_total_correct _ _ _ Hp).
Qed.

Lemma root_parent_inv (h : heap) tm par t d c l r x0 :
  parent (h !!! rootp tm t) = par → h !! tm = Some (mkNode d c l r x0) →
  t = E → x0 = par.
Proof. intros Hp Hs ->. cbn in Hp. by rewrite (lookup_total_correct _ _ _ Hs) in Hp. Qed.

Lemma focus_not_root tm C t :
  C ≠ Top → NoDup (tm :: addrs (plug C t)) → rootp tm t ≠ rootp tm (plug C t).
Proof.
  intros HC Hnd. rewrite rootp_plug.
  destruct C as [|c p v r up|c l p v up]; [done|..]; cbn [croot];
    destruct t as [|tc tl x tv tr]; norm_addrs_in Hnd; nd_atoms Hnd;
    cbn [rootp]; ne_solve.
Qed.

Lemma root_parent_top s c l p v r :
  zrepr s Top (T c l p v r) → parent (s.[p]) = terminal_ s.
Proof.
  intros [_ (Hp & _) _ _ _]. cbn in Hp. by rewrite (lookup_total_correct _ _ _ Hp).
Qed.

(** The last case of a round ends with a rotation and [x = root_]. *)
Lemma efu_finish f s0 s C c l p v r :
  zrepr s C (T c l p v r) → same_fields s0 s →
  ∃ s', erase_fix_up f (root_ s) s
        = erase_fix_up f (rootp (terminal_ s0) (plug C (T c l p v r))) s'
        ∧ xrepr s' Top (plug C (T c l p v r)) ∧ same_fields s0 s'.
Proof.
  intros Hz Hf. exists s. apply zrepr_plug in Hz.
  pose proof (zr_root _ _ _ Hz) as Hr. pose proof Hf as (Et & _).
  rewrite <- Et. split_and!; [by rewrite Hr| |done].
  split; [done|]. destruct (plug_T C c l p v r) as (c' & l' & x' & v' & r' & E).
  rewrite E in *. cbn [rootp cparent]. by eapply root_parent_top.
Qed.

Ltac zparent :=
  match goal with
  | Hx : ?t = E → ?x0 = ?par, Hr : repr ?h ?tm ?par ?t,
    Hs : ?h !! ?tm = Some (mkNode _ _ _ _ ?x0) |- _ =>
      lazymatch goal with
      | _ : parent (h !!! rootp tm t) = _ |- _ => fail
      | _ => pose proof (root_parent h tm par t _ _ _ _ x0 Hr Hs Hx)
      end
  end.

Ltac efu_start Hz Hp f :=
  let Hxr := fresh "Hxr" in
  let Hpx := fresh "Hpx" in
  pose proof (λ HC, focus_not_root _ _ _ HC (zr_nodup _ _ _ Hz)) as Hxr;
  specialize (Hxr ltac:(discriminate));
  rewrite (eq_sym (zr_root _ _ _ Hz)) in Hxr; cbn [terminal_ root_] in Hxr;
  zopen Hz; zcolors; cbn [cparent] in Hp;
  pose proof (root_parent_inv _ _ _ _ _ _ _ _ _ Hp ltac:(eassumption)) as Hpx;
  efu_open f; hs.

Ltac efu_case2 :=
  zfinish; split; [zsolve | hs; reflexivity].

Ltac efu_last :=
  zeta1;
  lazymatch goal with
  | |- ∃ s', erase_fix_up ?f (root_ ?s) ?s
             = erase_fix_up ?f (rootp _ (plug ?C (T ?c ?l ?p ?v ?r))) s'
             ∧ _ ∧ same_fields ?s0 s' =>
      apply (efu_finish f s0 s C c l p v r);
      [rot_zrepr; zsolve | rot_fields]
  end.

Ltac red_T H :=
  let l := fresh "l" in let p := fresh "p" in
  let v := fresh "v" in let r := fresh "r" in
  apply rcolor_red_T in H as (l & p & v & r & ->).

Lemma efu_step_sim f s C t C' t' :
  xrepr s C t → rcolor t = BLACK →
  efu_step C t = Some (C', t') →
  ∃ s', erase_fix_up (S f) (rootp (terminal_ s) t) s
        = erase_fix_up f (rootp (terminal_ s) t') s'
        ∧ xrepr s' C' t' ∧ same_fields s s'.
Proof.
  intros [Hz Hp] Hc Hs. destruct s as [h tm rt sz hd tl]. unfold efu_step in Hs.
  cbn [terminal_ mem] in Hp.
  destruct C as [|pc p pv sib up|pc sib p pv up]; [done|..];
    (destruct sib as [|wc wl w wv wr]; [done|]); destruct wc;
    cbn [efu_red mbind option_bind] in Hs.
  - cbn [efu_black] in Hs.
    destruct (rcolor wl) eqn:Hwl, (rcolor wr) eqn:Hwr;
      cbn [is_black andb] in Hs.
    + simplify_eq. efu_start Hz Hp f. efu_case2.
    + red_T Hwr. simplify_eq. efu_start Hz Hp f. efu_last.
    + red_T Hwl. simplify_eq. efu_start Hz Hp f.
      zrot (CR pc t p pv up) (T RED (T BLACK l p0 v r) w wv wr).
      zcolors. zparent. hs. efu_last.
    + red_T Hwr. simplify_eq. efu_start Hz Hp f. efu_last.
  - destruct wl as [|nc nl n nv nr]; [done|]. cbn [efu_black] in Hs.
    destruct (rcolor nl) eqn:Hnl, (rcolor nr) eqn:Hnr;
      cbn [is_black andb] in Hs.
    + simplify_eq. efu_start Hz Hp f.
      zrot up (T RED t p pv (T BLACK (T nc nl n nv nr) w wv wr)).
      zcolors. zparent. hs. efu_case2.
    + red_T Hnr. simplify_eq. efu_start Hz Hp f.
      zrot up (T RED t p pv (T BLACK (T nc nl n nv (T RED l p0 v r)) w wv wr)).
      zcolors. zparent. hs. efu_last.
    + red_T Hnl. simplify_eq. efu_start Hz Hp f.
      zrot up (T RED t p pv (T BLACK (T nc (T RED l p0 v r) n nv nr) w wv wr)).
      zcolors. zparent. hs.
      zrot (CR RED t p pv (CL BLACK w wv wr up))
           (T RED (T BLACK l p0 v r) n nv nr).
      zcolors. zparent. hs. efu_last.
    + red_T Hnr. simplify_eq. efu_start Hz Hp f.
      zrot up (T RED t p pv (T BLACK (T nc nl n nv (T RED l p0 v r)) w wv wr)).
      zcolors. zparent. hs. efu_last.
  - cbn [efu_black] in Hs.
    destruct (rcolor wr) eqn:Hwr, (rcolor wl) eqn:Hwl;
      cbn [is_black andb] in Hs.
    + simplify_eq. efu_start Hz Hp f. efu_case2.
    + red_T Hwl. simplify_eq. efu_start Hz Hp f. efu_last.
    + red_T Hwr. simplify_eq. efu_start Hz Hp f.
      zrot (CL pc p pv t up) (T RED wl w wv (T BLACK l p0 v r)).
      zcolors. zparent. hs. efu_last.
    + red_T Hwl. simplify_eq. efu_start Hz Hp f. efu_last.
  - destruct wr as [|nc nl n nv nr]; [done|]. cbn [efu_black] in Hs.
    destruct (rcolor nr) eqn:Hnr, (rcolor nl) eqn:Hnl;
      cbn [is_black andb] in Hs.
    + simplify_eq. efu_start Hz Hp f.
      zrot up (T RED (T BLACK wl w wv (T nc nl n nv nr)) p pv t).
      zcolors. zparent. hs. efu_case2.
    + red_T Hnl. simplify_eq. efu_start Hz Hp f.
      zrot up (T RED (T BLACK wl w wv (T nc (T RED l p0 v r) n nv nr)) p pv t).
      zcolors. zparent. hs. efu_last.
    + red_T Hnr. simplify_eq. efu_start Hz Hp f.
      zrot up (T RED (T BLACK wl w wv (T nc nl n nv (T RED l p0 v r))) p pv t).
      zcolors. zparent. hs.
      zrot (CL RED p pv t (CR BLACK wl w wv up))
           (T RED nl n nv (T BLACK l p0 v r)).
      zcolors. zparent. hs. efu_last.
    + red_T Hnl. simplify_eq. efu_start Hz Hp f.
      zrot up (T RED (T BLACK wl w wv (T nc (T RED l p0 v r) n nv nr)) p pv t).
      zcolors. zparent. hs. efu_last.
Qed.

Lemma efu_exit_sim f s C t :
  xrepr s C t → C = Top ∨ rcolor t = RED →
  erase_fix_up (S f) (rootp (terminal_ s) t) s
  = Some (set_color (rootp (terminal_ s) t) BLACK s)
  ∧ zrepr (set_color (rootp (terminal_ s) t) BLACK s) Top (plug C (blacken t)).
Proof.
  intros [Hz Hp] HC. destruct s as [h tm rt sz hd tl].
  destruct HC as [->|Hc].
  - destruct t as [|c l x v r]; zopen Hz; efu_open f; subst rt; hs;
      (split; [reflexivity|cbn [plug blacken]; zsolve]).
  - red_T Hc. split.
    + zopen Hz. efu_open f. hs. by rewrite andb_false_r.
    + cbn [blacken]. apply (proj1 (zrepr_plug _ C _)). zopen Hz. zsolve.
Qed.

(** The loop of [erase_fix_up], from any state satisfying its invariant. *)
Lemma erase_fix_up_spec f s C t :
  xrepr s C t → efu_inv C t →
  (rcolor t = RED → 1 ≤ f) → (rcolor t = BLACK → cdepth C + 1 ≤ f) →
  ∃ s' t', erase_fix_up f (rootp (terminal_ s) t) s = Some s'
           ∧ zrepr s' Top t' ∧ elems t' = elems (plug C t)
           ∧ rbt t' ∧ rcolor t' = BLACK ∧ same_fields s s'.
Proof.
  revert s C t. induction f as [|f IH]; intros s C t Hx Hi Hf1 Hf2.
  { destruct (rcolor t); [specialize (Hf2 eq_refl)|specialize (Hf1 eq_refl)]; lia. }
  assert (C = Top ∨ rcolor t = RED ∨ (C ≠ Top ∧ rcolor t = BLACK)) as [HC|[HC|[HC Hc]]].
  { destruct C; [by left|right..]; destruct (rcolor t); auto. }
  1,2: destruct (efu_exit_sim f s C t Hx) as [E Hz']; [auto|];
       destruct (efu_exit C t Hi) as [Hr Hc]; [auto|];
       eexists _, _; split_and!; [done|done| |done|done|apply set_color_fields];
       rewrite !elems_plug; by rewrite elems_blacken.
  destruct (efu_progress _ _ Hi Hc HC) as [[C' t'] Hs].
  destruct (efu_step_inv _ _ _ _ Hi Hc Hs) as (Hi1 & He & Hd).
  destruct (efu_step_sim f s C t C' t' Hx Hc Hs) as (s1 & E1 & Hx1 & Hf).
  pose proof Hf as (Et & _).
  destruct (IH s1 C' t' Hx1 Hi1) as (s' & t2 & E2 & Hz2 & He2 & Hr2 & Hc2 & Hf');
    [specialize (Hf2 Hc); destruct C; [done|..]; cbn [cdepth] in *; lia
    |intros Hc'; specialize (Hf2 Hc); destruct Hd as [Hd|Hd]; [congruence|lia]|].
  exists s', t2. rewrite E1, <- Et.
  split_and!; [done|done|congruence|done|done|by eapply same_fields_trans].
Qed.

(** ** Removing a node from the tree *)

(** [transplant] around a node with an empty left (right) subtree takes the
    node out of the tree; its own cell is left as it was. *)
Lemma transplant_l s C c y v r :
  zrepr s C (T c E y v r) →
  xrepr (transplant y (rootp (terminal_ s) r) s) C r
  ∧ mem (transplant y (rootp (terminal_ s) r) s) !! y = mem s !! y
  ∧ same_fields s (transplant y (rootp (terminal_ s) r) s).
Proof.
  intros Hz. destruct s as [h tm rt sz hd tl].
  destruct C as [|pc p pv sib up|pc sib p pv up], r as [|rc rl x rv rr];
    zopen Hz; cbv beta delta [transplant]; hs;
    (split_and!; [split; [zsolve|hs; reflexivity]|rsimpl; by lk|done]).
Qed.

Lemma transplant_r s C c y v l :
  zrepr s C (T c l y v E) →
  xrepr (transplant y (rootp (terminal_ s) l) s) C l
  ∧ mem (transplant y (rootp (terminal_ s) l) s) !! y = mem s !! y
  ∧ same_fields s (transplant y (rootp (terminal_ s) l) s).
Proof.
  intros Hz. destruct s as [h tm rt sz hd tl].
  destruct C as [|pc p pv sib up|pc sib p pv up], l as [|lc ll x lv lr];
    zopen Hz; cbv beta delta [transplant]; hs;
    (split_and!; [split; [zsolve|hs; reflexivity]|rsimpl; by lk|done]).
Qed.

(** [erase_splice] when the successor [y] is the right child of [z]. *)
Lemma erase_splice_near s C zc lc ll lp lv lr z zv yc y yv yr :
  zrepr s C (T zc (T lc ll lp lv lr) z zv (T yc E y yv yr)) →
  ∃ s', erase_splice z y s = (yc, rootp (terminal_ s) yr, s')
        ∧ xrepr s' (CR zc (T lc ll lp lv lr) y yv C) yr
        ∧ same_fields s s'.
Proof.
  intros Hz. destruct s as [h tm rt sz hd tl].
  destruct C as [|pc p pv sib up|pc sib p pv up], yr as [|rc rl x rv rr];
    zopen Hz; cbv beta delta [erase_splice transplant]; hs;
    (eexists; split; [reflexivity|]; split; [split; [zsolve|hs; reflexivity]|done]).
Qed.

Lemma xrepr_transfer s1 s2 C1 C2 t :
  xrepr s1 C1 t → zrepr s2 C2 t → terminal_ s2 = terminal_ s1 →
  cparent (terminal_ s1) C1 = cparent (terminal_ s1) C2 →
  s2.[terminal_ s1] = s1.[terminal_ s1] → xrepr s2 C2 t.
Proof.
  intros [_ Hp] Hz Et Ec Hs. split; [done|]. rewrite Et, <- Ec.
  destruct t as [|c l p v r]; cbn [rootp] in *; [by rewrite Hs|].
  destruct Hz as [_ (Hc & _) _ _ _]. rewrite Et in Hc.
  rewrite (lookup_total_correct _ _ _ Hc). cbn. by rewrite Ec.
Qed.

Lemma nodup_unlink tm C c y v r :
  NoDup (tm :: addrs (plug C (T c E y v r))) → NoDup (y :: tm :: addrs (plug C r)).
Proof. intros H. norm_addrs_in H. nd_atoms H. norm_addrs. nd_solve. Qed.

(** [erase_splice] when the successor [y] lies deeper in the right subtree. *)
Lemma erase_splice_far s C zc lc ll lp lv lr z zv pc yp ypv ysib Cyy yc y yv yr :
  zrepr s C (T zc (T lc ll lp lv lr) z zv
               (plug (CL pc yp ypv ysib Cyy) (T yc E y yv yr))) →
  ∃ s', erase_splice z y s = (yc, rootp (terminal_ s) yr, s')
        ∧ xrepr s' (capp (CL pc yp ypv ysib Cyy) (CR zc (T lc ll lp lv lr) y yv C)) yr
        ∧ same_fields s s'.
Proof.
  intros Hz.
  assert (Hzy : zrepr s (capp (CL pc yp ypv ysib Cyy) (CR zc (T lc ll lp lv lr) z zv C))
                      (T yc E y yv yr)).
  { by apply zrepr_capp, zrepr_up_r. }
  destruct (transplant_l _ _ _ _ _ _ Hzy) as (Hx1 & Hy1 & Hf1).
  pose proof (nodup_unlink _ _ _ _ _ _ (zr_nodup _ _ _ Hzy)) as Hny.
  rewrite plug_capp in Hny.
  pose proof Hx1 as [Hz1 _].
  apply zrepr_capp, zrepr_up_r in Hz1.
  destruct (plug_T Cyy pc yr yp ypv ysib) as (rc & rl & rp & rv & rr & E).
  cbn [plug] in Hny, Hz1. rewrite E in Hny, Hz1.
  pose proof (zr_sub _ _ _ Hzy) as (Hyc & _).
  destruct s as [h tm rt sz hd tl]. cbn [terminal_ mem] in *.
  rewrite Hyc in Hy1.
  remember (transplant y (rootp tm yr) (mkSet h tm rt sz hd tl)) as s1 eqn:E1.
  destruct s1 as [h1 tm1 rt1 sz1 hd1 tl1].
  unfold same_fields in Hf1; cbn [terminal_ size_ head_ tail_ mem] in *.
  destruct Hf1 as (-> & -> & -> & ->).
  assert (Hyz : yp ≠ z).
  { pose proof (zr_nodup _ _ _ Hz) as Hn. norm_addrs_in Hn. norm_addrs_in Hn.
    nd_atoms Hn. congruence. }
  cbv beta delta [erase_splice]. hs. rewrite <- E1. clear E1 Hz Hzy Hyc.
  cbn [capp cparent rootp] in Hy1.
  destruct C as [|qc q qv sib up|qc sib q qv up];
    norm_addrs_in Hny; nd_atoms Hny; zopen Hz1; cbv beta delta [transplant]; hs;
    (eexists; split; [reflexivity|]; split; [|repeat split]);
    (eapply xrepr_transfer; [exact Hx1| |reflexivity|reflexivity|hs; reflexivity]);
    apply zrepr_capp, zrepr_up_r; cbn [plug]; rewrite E; zsolve.
Qed.

(** ** The shape of the tree after the removal *)

Lemma capp_Top C : capp C Top = C.
Proof. induction C; simpl; congruence. Qed.

Lemma capp_assoc C1 C2 C3 : capp (capp C1 C2) C3 = capp C1 (capp C2 C3).
Proof. induction C1; simpl; congruence. Qed.

Lemma split_min_spec t C0 :
  t ≠ E →
  ∃ Cy yc y yv yr, split_min t C0 = (capp Cy C0, T yc E y yv yr)
                   ∧ t = plug Cy (T yc E y yv yr) ∧ cleft Cy = [].
Proof.
  revert C0. induction t as [|c l IHl p v r _]; intros C0 Hne; [done|].
  destruct l as [|lc ll lp lv lr].
  - by exists Top, c, p, v, r.
  - destruct (IHl (CL c p v r C0)) as (Cy & yc & y & yv & yr & Hs & Hl & Hc);
      [done|].
    exists (capp Cy (CL c p v r Top)), yc, y, yv, yr.
    rewrite capp_assoc, plug_capp, cleft_capp, <- Hl. cbn [capp plug cleft].
    split_and!; [exact Hs|done|by rewrite Hc].
Qed.

Lemma erase_unlink_spec fuel s C zc zl z zv zr col C' t' :
  zrepr s C (T zc zl z zv zr) → height zr ≤ fuel →
  unlink C zc zl zr = (col, C', t') →
  ∃ s', erase_unlink fuel z s = Some (col, rootp (terminal_ s) t', s')
        ∧ xrepr s' C' t' ∧ same_fields s s'.
Proof.
  intros Hz Hf Hu. destruct zl as [|lc ll lp lv lr].
  { cbn in Hu. simplify_eq.
    destruct (transplant_l _ _ _ _ _ _ Hz) as (Hx & _ & Hs).
    eexists. split; [|split; [exact Hx|exact Hs]].
    destruct s as [h tm rt sz hd tl]. zopen Hz.
    cbv beta delta [erase_unlink]. by hs. }
  destruct zr as [|rc rl rp rv rr].
  { cbn in Hu. simplify_eq.
    destruct (transplant_r _ _ _ _ _ _ Hz) as (Hx & _ & Hs).
    eexists. split; [|split; [exact Hx|exact Hs]].
    destruct s as [h tm rt sz hd tl]. zopen Hz.
    cbv beta delta [erase_unlink]. by hs. }
  remember (T rc rl rp rv rr) as zr eqn:Ezr.
  assert (Hne : zr ≠ E) by (by subst zr).
  assert (Hu' : match split_min zr Top with
                | (Cy, T yc _ y yv yr) =>
                    (yc, capp Cy (CR zc (T lc ll lp lv lr) y yv C), yr)
                | (_, E) => (zc, C, E)
                end = (col, C', t')) by (by subst zr).
  clear Hu Ezr rc rl rp rv rr.
  destruct (split_min_spec zr Top Hne) as (Cy & yc & y & yv & yr & Hsm & Ey & Hcl).
  rewrite capp_Top in Hsm. rewrite Hsm in Hu'. injection Hu' as <- <- <-.
  subst zr.
  assert (Hmin : minimum fuel (mem s) (terminal_ s)
                   (rootp (terminal_ s) (plug Cy (T yc E y yv yr))) = Some y).
  { pose proof (zr_sub _ _ _ Hz) as (_ & _ & Hr).
    pose proof (zr_nodup _ _ _ Hz) as Hn.
    rewrite (minimum_spec _ _ _ _ _ Hr); [| |done|done].
    - f_equal. unfold addrs. rewrite elems_plug, Hcl. done.
    - norm_addrs_in Hn. nd_atoms Hn. done. }
  assert (Hev : erase_unlink fuel z s = Some (erase_splice z y s)).
  { destruct s as [h tm rt sz hd tl]. cbn [mem terminal_] in Hmin.
    remember (plug Cy (T yc E y yv yr)) as zr eqn:Ezr.
    assert (Hrt : rootp tm zr ≠ tm).
    { pose proof (zr_nodup _ _ _ Hz) as Hn. clear -Hn Hne.
      destruct zr as [|rc rl rp rv rr]; [done|].
      cbn [terminal_] in Hn. norm_addrs_in Hn. nd_atoms Hn. cbn [rootp]. congruence. }
    zopen Hz. cbv beta delta [erase_unlink]. hs. rewrite Hmin. done. }
  rewrite Hev. clear Hev Hmin.
  destruct Cy as [|pc yp ypv ysib Cyy|pc ysib yp ypv Cyy].
  - cbn [plug capp] in *.
    destruct (erase_splice_near _ _ _ _ _ _ _ _ _ _ _ _ _ _ Hz) as (s' & E1 & Hx & Hs).
    exists s'. by rewrite E1.
  - destruct (erase_splice_far _ _ _ _ _ _ _ _ _ _ _ _ _ _ _ _ _ _ _ Hz)
      as (s' & E1 & Hx & Hs).
    exists s'. by rewrite E1.
  - cbn [cleft] in Hcl. apply app_eq_nil in Hcl as [_ Hcl].
    apply app_eq_nil in Hcl as [_ Hcl]. done.
Qed.

Lemma unlink_elems C zc zl zr col C' t' :
  unlink C zc zl zr = (col, C', t') →
  elems (plug C' t') = cleft C ++ elems zl ++ elems zr ++ cright C.
Proof.
  intros Hu. destruct zl as [|lc ll lp lv lr].
  { cbn in Hu. simplify_eq. by rewrite elems_plug. }
  destruct zr as [|rc rl rp rv rr].
  { cbn in Hu. simplify_eq. by rewrite elems_plug. }
  unfold unlink in Hu.
  destruct (split_min_spec (T rc rl rp rv rr) Top)
    as (Cy & yc & y & yv & yr & Hsm & Ey & Hcl); [done|].
  rewrite capp_Top in Hsm. rewrite Hsm in Hu. injection Hu as <- <- <-.
  rewrite Ey, plug_capp. cbn [plug]. rewrite !elems_plug. cbn [elems].
  rewrite !elems_plug, Hcl. cbn [elems app].
  repeat first [rewrite <- app_assoc | progress cbn [app]]. done.
Qed.

Lemma accepts_capp_swap Cy c l p v p' v' C n col :
  accepts (capp Cy (CR c l p v C)) n col →
  accepts (capp Cy (CR c l p' v' C)) n col.
Proof.
  revert n col. induction Cy as [|cc q qv r up IH|cc r q qv up IH];
    intros n col; cbn [capp accepts]; [done|..];
    intros (H1 & H2 & H3 & H4); split_and!; auto.
Qed.

Lemma del_l C c p v r :
  rbt (T c E p v r) → accepts C (bh (T c E p v r)) c →
  (c = BLACK → efu_inv C r)
  ∧ (c = RED → rbt (plug C r) ∧ rcolor (plug C r) = BLACK).
Proof.
  intros [Hb Hn] Ha. cbn in Hb, Hn, Ha. destruct Hb as (Hb & _ & Hbr).
  destruct Hn as (Hc & _ & Hnr). split; intros ->.
  - split; [apply rbt_arb; by split|]. rewrite <- Hb. exact Ha.
  - destruct (Hc eq_refl) as [_ Hcr]. apply accepts_plug; [by split|].
    rewrite <- Hb, Hcr. by eapply accepts_black.
Qed.

Lemma del_r C c p v l :
  rbt (T c l p v E) → accepts C (bh (T c l p v E)) c →
  (c = BLACK → efu_inv C l)
  ∧ (c = RED → rbt (plug C l) ∧ rcolor (plug C l) = BLACK).
Proof.
  intros [Hb Hn] Ha. cbn in Hb, Hn, Ha. destruct Hb as (Hb & Hbl & _).
  destruct Hn as (Hc & Hnl & _). split; intros ->.
  - split; [apply rbt_arb; by split|]. rewrite Hb. rewrite Hb in Ha. exact Ha.
  - destruct (Hc eq_refl) as [Hcl _]. apply accepts_plug; [by split|].
    rewrite Hcl. rewrite Nat.add_0_r in Ha. by eapply accepts_black.
Qed.

Lemma unlink_inv C zc zl z zv zr col C' t' :
  rbt (plug C (T zc zl z zv zr)) → rcolor (plug C (T zc zl z zv zr)) = BLACK →
  unlink C zc zl zr = (col, C', t') →
  (col = BLACK → efu_inv C' t')
  ∧ (col = RED → rbt (plug C' t') ∧ rcolor (plug C' t') = BLACK).
Proof.
  intros Hr Hc Hu. destruct zl as [|lc ll lp lv lr].
  { cbn in Hu. simplify_eq. destruct (plug_accepts _ _ Hr Hc) as [H1 H2].
    by apply (del_l _ _ z zv). }
  destruct zr as [|rc rl rp rv rr].
  { cbn in Hu. simplify_eq. destruct (plug_accepts _ _ Hr Hc) as [H1 H2].
    by apply (del_r _ _ z zv). }
  unfold unlink in Hu.
  destruct (split_min_spec (T rc rl rp rv rr) Top)
    as (Cy & yc & y & yv & yr & Hsm & Ey & Hcl); [done|].
  rewrite capp_Top in Hsm. rewrite Hsm in Hu. injection Hu as <- <- <-.
  rewrite Ey in Hr, Hc.
  change (plug C (T zc (T lc ll lp lv lr) z zv (plug Cy (T yc E y yv yr))))
    with (plug (CR zc (T lc ll lp lv lr) z zv C) (plug Cy (T yc E y yv yr)))
    in Hr, Hc.
  rewrite <- plug_capp in Hr, Hc.
  destruct (plug_accepts _ _ Hr Hc) as [H1 H2].
  apply (del_l _ _ y yv); [done|]. by eapply accepts_capp_swap.
Qed.

(** ** [erase] *)

Lemma zrepr_ext s s' C t :
  mem s' = mem s → terminal_ s' = terminal_ s → root_ s' = root_ s →
  zrepr s C t → zrepr s' C t.
Proof.
  intros Em Et Er [H1 H2 H3 H4 H5].
  split; unfold sentinel_ok; rewrite ?Em, ?Et, ?Er; done.
Qed.

Lemma repr_delete h tm par t z :
  z ∉ addrs t → repr h tm par t → repr (delete z h) tm par t.
Proof.
  revert par. induction t as [|c l IHl q v r IHr]; [done|].
  intros par Hz (Hq & Hl & Hr). rewrite addrs_T in Hz.
  apply not_elem_of_app in Hz as [Hzl Hz].
  apply not_elem_of_cons in Hz as [Hzq Hzr].
  cbn [repr]. split_and!; auto. by rewrite lookup_delete_ne.
Qed.

Lemma zrepr_free s t z :
  zrepr s Top t → z ∉ addrs t → z ≠ terminal_ s → zrepr (free z s) Top t.
Proof.
  intros [H1 H2 H3 H4 (d & par & H5)] Hz Hne. split; cbn; try done.
  - by apply repr_delete.
  - exists d, par. cbn. by rewrite lookup_delete_ne.
Qed.

Lemma hd_fst_app (tm : ptr) (L1 L2 : list (ptr * Z)) z v :
  L1 ≠ [] → hd tm (L1 ++ (z, v) :: L2).*1 = hd tm (L1 ++ L2).*1.
Proof. by destruct L1. Qed.

Lemma last_fst_app (tm : ptr) (L1 L2 : list (ptr * Z)) z v :
  L2 ≠ [] → List.last (L1 ++ (z, v) :: L2).*1 tm = List.last (L1 ++ L2).*1 tm.
Proof.
  intros H. rewrite !fmap_app, fmap_cons.
  rewrite (last_app_ne tm L1.*1 (_ :: _)) by done.
  rewrite (last_app_ne tm L1.*1 L2.*1) by (by destruct L2).
  destruct L2; done.
Qed.

Lemma hd_in {A} (d : A) l : l ≠ [] → hd d l ∈ l.
Proof. destruct l; [done|]. intros _. by left. Qed.

Lemma last_in {A} (d : A) l : l ≠ [] → List.last l d ∈ l.
Proof.
  induction l as [|a l IH]; [done|]. intros _. destruct l as [|b l]; [by left|].
  right. by apply IH.
Qed.

(** The cached bounds after [erase_bounds]. *)
Lemma erase_bounds_spec s t L1 z v L2 fuel :
  zrepr s Top t → head_ok s t → tail_ok s t →
  elems t = L1 ++ (z, v) :: L2 → height t ≤ fuel →
  ∃ s', erase_bounds fuel z s = Some s'
        ∧ mem s' = mem s ∧ terminal_ s' = terminal_ s ∧ root_ s' = root_ s
        ∧ size_ s' = size_ s
        ∧ head_ s' = hd (terminal_ s) (L1 ++ L2).*1
        ∧ tail_ s' = List.last (L1 ++ L2).*1 (terminal_ s).
Proof.
  intros Hz Hh Ht He Hf.
  pose proof (zr_nodup _ _ _ Hz) as Hn. cbn [plug] in Hn.
  apply NoDup_cons in Hn as [_ Hn]. unfold addrs in Hn. rewrite He in Hn.
  rewrite fmap_app, fmap_cons in Hn. cbn [fst] in Hn.
  apply NoDup_app in Hn as (_ & Hd1 & Hn2). apply NoDup_cons in Hn2 as [Hd2 _].
  assert (Hd1' : z ∉ L1.*1).
  { intros Hin. apply (Hd1 z Hin). by left. }
  unfold head_ok, tail_ok, addrs in Hh, Ht. rewrite He in Hh, Ht.
  pose proof (next_spec _ _ _ _ _ _ _ Hz He Hf) as Hnx.
  pose proof (prev_spec _ _ _ _ _ _ _ Hz He Hf) as Hpv.
  destruct s as [h tm rt sz hd tl]. cbn [head_ tail_ terminal_ mem] in *.
  unfold erase_bounds. cbn [head_ tail_ terminal_ mem].
  assert (∃ hd', (if (hd =? z)%positive
                  then h0 ← next fuel h tm hd; Some (set_head h0 (mkSet h tm rt sz hd tl))
                  else Some (mkSet h tm rt sz hd tl))
                 = Some (mkSet h tm rt sz hd' tl)
                 ∧ hd' = List.hd tm (L1 ++ L2).*1) as (hd' & -> & Ehd).
  { destruct L1 as [|[a av] L1].
    - cbn in Hh. subst hd. rewrite Pos.eqb_refl, Hnx. by eexists.
    - rewrite (proj2 (Pos.eqb_neq hd z)).
      + eexists. split; [done|]. by rewrite Hh.
      + rewrite Hh. cbn. intros ->. apply Hd1'. cbn. by left. }
  cbn [mbind option_bind tail_ mem terminal_].
  assert (∃ tl', (if (tl =? z)%positive
                  then t0 ← prev fuel h tm tl; Some (set_tail t0 (mkSet h tm rt sz hd' tl))
                  else Some (mkSet h tm rt sz hd' tl))
                 = Some (mkSet h tm rt sz hd' tl')
                 ∧ tl' = List.last (L1 ++ L2).*1 tm) as (tl' & -> & Etl).
  { destruct (decide (L2 = [])) as [->|HL2].
    - rewrite fmap_app, fmap_cons, last_cons_app in Ht. cbn in Ht. subst tl.
      rewrite Pos.eqb_refl, Hpv. rewrite app_nil_r. by eexists.
    - rewrite (proj2 (Pos.eqb_neq tl z)).
      + eexists. split; [done|]. by rewrite Ht, last_fst_app.
      + rewrite Ht, last_fst_app by done. rewrite fmap_app.
        rewrite last_app_ne by (by destruct L2).
        intros Ez. apply Hd2. rewrite <- Ez. apply last_in. by destruct L2. }
  eexists. by split_and!.
Qed.

Lemma sorted_remove_mid (L1 L2 : list (ptr * Z)) z v :
  StronglySorted Z.lt (L1 ++ (z, v) :: L2).*2 → StronglySorted Z.lt (L1 ++ L2).*2.
Proof.
  rewrite !fmap_app, fmap_cons. cbn [snd].
  rewrite !StronglySorted_app, StronglySorted_cons.
  intros (H12 & H1 & H2 & H3). split_and!; [|done|done].
  intros x1 x2 Hx1 Hx2. apply H12; [done|by right].
Qed.

(** Erasing through a cursor on a stored element. *)
Lemma erase_at_present s t L1 z v L2 fuel :
  wf s t → elems t = L1 ++ (z, v) :: L2 → length (elems t) < fuel →
  ∃ s' t', erase_at fuel (mkIter z) s = Some s' ∧ wf s' t'
           ∧ elems t' = L1 ++ L2 ∧ terminal_ s' = terminal_ s.
Proof.
  intros [Hz Hb Hc Hn Hbal Hh Htl Hsz] He Hf.
  pose proof (height_le_length t) as Hht.
  destruct (elem_cell _ _ _ _ _ _ Hz He) as [Hzt _].
  destruct (erase_bounds_spec s t L1 z v L2 fuel Hz Hh Htl He)
    as (sb & Eb & Em & Et & Er & Es & Ehd & Etl); [lia|].
  pose proof (zrepr_ext _ _ _ _ Em Et Er Hz) as Hzb.
  pose proof (zr_nodup _ _ _ Hz) as Hnd. cbn [plug] in Hnd.
  destruct (focus _ _ _ _ _ He) as (C & zc & zl & zr & -> & -> & ->).
  apply zrepr_plug in Hzb.
  destruct (unlink C zc zl zr) as [[col C'] t'] eqn:Hu.
  pose proof (unlink_elems _ _ _ _ _ _ _ Hu) as Hel.
  destruct (unlink_inv _ _ _ z v _ _ _ _ (conj Hbal Hn) Hc Hu) as [Hib Hir].
  destruct (erase_unlink_spec fuel sb C zc zl z v zr col C' t' Hzb)
    as (su & Eu & Hxu & Hfu); [|done|].
  { pose proof (height_le_length zr). rewrite He, !length_app in Hf.
    cbn [length] in Hf. rewrite length_app in Hf. lia. }
  assert (Hlen : length (elems (plug C' t')) + 1 = length (elems (plug C (T zc zl z v zr)))).
  { rewrite Hel, He, !length_app. cbn [length]. rewrite !length_app. lia. }
  assert (∃ sf t'', (if is_black col then erase_fix_up fuel (rootp (terminal_ sb) t') su
                     else Some su) = Some sf
                    ∧ zrepr sf Top t'' ∧ elems t'' = elems (plug C' t')
                    ∧ rbt t'' ∧ rcolor t'' = BLACK ∧ same_fields su sf)
    as (sf & t'' & Ef & Hzf & Helf & Hrf & Hcf & Hff).
  { destruct col; cbn [is_black].
    - pose proof Hfu as (Etu & _).
      destruct (erase_fix_up_spec fuel su C' t' Hxu (Hib eq_refl))
        as (sf & t'' & Ef & ?); [..|exists sf, t''; by rewrite <- Etu].
      + intros _. lia.
      + intros _. pose proof (height_plug C' t').
        pose proof (height_le_length (plug C' t')). lia.
    - destruct (Hir eq_refl) as [Hr1 Hc1]. exists su, (plug C' t').
      split_and!; [done|by apply (proj1 (zrepr_plug _ C' _)), Hxu|done|done|done|].
      apply same_fields_refl. }
  exists (free z (set_size (pred (size_ sf)) sf)), t''.
  assert (Ee : elems t'' = (cleft C ++ elems zl) ++ elems zr ++ cright C).
  { by rewrite Helf, Hel, <- !app_assoc. }
  destruct Hfu as (Etu & Esu & Ehu & Etlu). destruct Hff as (Etf & Esf & Ehf & Etlf).
  split_and!.
  - unfold erase_at, iter_eqb, end_. cbn [current].
    rewrite (proj2 (Pos.eqb_neq _ _) Hzt). rewrite Eb. cbn [mbind option_bind].
    rewrite Eu. cbn [mbind option_bind]. by rewrite Ef.
  - assert (Hzn : z ∉ addrs t'').
    { unfold addrs in *. rewrite Ee. rewrite He in Hnd.
      apply NoDup_cons in Hnd as [_ Hnd]. rewrite fmap_app, fmap_cons in Hnd.
      apply NoDup_app in Hnd as (_ & Hd1 & Hn2). apply NoDup_cons in Hn2 as [Hd2 _].
      rewrite fmap_app. intros [Hin|Hin]%elem_of_app; [|done].
      apply (Hd1 z Hin). by left. }
    destruct Hrf as [Hbf Hnf]. split.
    + apply zrepr_free; [|done|cbn; congruence].
      by eapply zrepr_ext; [..|exact Hzf].
    + apply bst_sorted. unfold values. rewrite Ee.
      apply (sorted_remove_mid _ _ z v). apply bst_sorted in Hb.
      unfold values in Hb. by rewrite He in Hb.
    + done.
    + done.
    + done.
    + unfold head_ok, addrs. cbn. rewrite Ee, Ehf, Ehu, Ehd. congruence.
    + unfold tail_ok, addrs. cbn. rewrite Ee, Etlf, Etlu, Etl. congruence.
    + cbn. rewrite Esf, Esu, Es, Hsz, Ee, He, !length_app. cbn [length].
      rewrite !length_app. lia.
  - done.
  - cbn. congruence.
Qed.

Lemma erase_at_end s fuel : erase_at fuel (end_ s) s = Some s.
Proof. unfold erase_at, iter_eqb. by rewrite Pos.eqb_refl. Qed.

(** [erase] of a stored value, and of a value that is not stored. *)
Lemma erase_present s t v fuel :
  wf s t → v ∈ values t → length (elems t) < fuel →
  ∃ s' t' L1 z L2, erase fuel v s = Some s' ∧ wf s' t'
                   ∧ elems t = L1 ++ (z, v) :: L2 ∧ elems t' = L1 ++ L2
                   ∧ terminal_ s' = terminal_ s.
Proof.
  intros Hw Hv Hf. pose proof (height_le_length t) as Hht.
  apply list_elem_of_fmap in Hv as ([z v'] & -> & Hin). cbn [snd].
  destruct (list_elem_of_split _ _ Hin) as (L1 & L2 & He).
  destruct (erase_at_present s t L1 z v' L2 fuel Hw He Hf) as (s' & t' & E1 & ?).
  exists s', t', L1, z, L2. split_and?; try tauto.
  unfold erase, find. rewrite (zr_root _ _ _ (wf_repr _ _ Hw)). cbn [plug].
  rewrite (find_loop_spec _ _ _ _ (terminal_ s));
    [|apply (zr_sub _ _ _ (wf_repr _ _ Hw))|by apply wf_tm_notin, Hw|lia].
  rewrite (lookup_addr_present _ _ _ z (wf_bst _ _ Hw) Hin).
  cbn [fmap option_fmap option_map mbind option_bind]. tauto.
Qed.

Lemma erase_absent s t v fuel :
  wf s t → v ∉ values t → length (elems t) < fuel → erase fuel v s = Some s.
Proof.
  intros Hw Hv Hf. pose proof (height_le_length t) as Hht.
  unfold erase, find. rewrite (zr_root _ _ _ (wf_repr _ _ Hw)). cbn [plug].
  rewrite (find_loop_spec _ _ _ _ (terminal_ s));
    [|apply (zr_sub _ _ _ (wf_repr _ _ Hw))|by apply wf_tm_notin, Hw|lia].
  rewrite lookup_addr_absent by done.
  cbn [fmap option_fmap option_map mbind option_bind]. apply erase_at_end.
Qed.

(** ** Well-formed states: the queries *)

Lemma wf_data s t p v : zrepr s Top t → (p, v) ∈ elems t → data (s.[p]) = v.
Proof.
  intros Hz Hin. destruct (list_elem_of_split _ _ Hin) as (L1 & L2 & He).
  by destruct (elem_cell _ _ _ _ _ _ Hz He).
Qed.

Lemma wf_addr_ne s t p v : zrepr s Top t → (p, v) ∈ elems t → p ≠ terminal_ s.
Proof.
  intros Hz Hin. destruct (list_elem_of_split _ _ Hin) as (L1 & L2 & He).
  by destruct (elem_cell _ _ _ _ _ _ Hz He).
Qed.

Lemma find_wf s t v fuel :
  wf s t → length (elems t) < fuel →
  ∃ it, find fuel v s = Some it
        ∧ (v ∈ values t → it ≠ end_ s ∧ deref s it = v)
        ∧ (v ∉ values t → it = end_ s).
Proof.
  intros Hw Hf. pose proof (height_le_length t) as Hht.
  pose proof (wf_repr _ _ Hw) as Hz.
  exists (mkIter (lookup_addr (terminal_ s) v t)). split_and!.
  - unfold find. rewrite (zr_root _ _ _ Hz). cbn [plug].
    rewrite (find_loop_spec _ _ _ _ (terminal_ s));
      [done|apply (zr_sub _ _ _ Hz)|by apply wf_tm_notin|lia].
  - intros Hv. apply list_elem_of_fmap in Hv as ([p v'] & -> & Hin). cbn [snd].
    rewrite (lookup_addr_present _ _ _ p (wf_bst _ _ Hw) Hin).
    unfold end_, deref. cbn [current]. split.
    + intros [=E]. by apply (wf_addr_ne _ _ _ _ Hz Hin).
    + by eapply wf_data.
  - intros Hv. by rewrite lookup_addr_absent.
Qed.

(** The least element that is not below [v], when there is one. *)
Lemma least_above (v : Z) (l : list (ptr * Z)) :
  (∀ x, x ∈ l.*2 → (x < v)%Z)
  ∨ ∃ p x, (p, x) ∈ l ∧ (v ≤ x)%Z ∧ ∀ y, y ∈ l.*2 → (v ≤ y)%Z → (x ≤ y)%Z.
Proof.
  induction l as [|[q w] l IH].
  - left. intros x Hx. by apply elem_of_nil in Hx.
  - destruct IH as [IH|(p & x & Hin & Hx & Hmin)].
    + destruct (Z.lt_ge_cases w v).
      * left. intros y [->|Hy]%elem_of_cons; [done|by apply IH].
      * right. exists q, w. split_and!; [by left|lia|].
        intros y [->|Hy]%elem_of_cons Hvy; [cbn; lia|].
        specialize (IH y Hy). lia.
    + right. destruct (Z.lt_ge_cases w v).
      * exists p, x. split_and!; [by right|done|].
        intros y [->|Hy]%elem_of_cons Hvy; [cbn in Hvy; lia|by apply Hmin].
      * destruct (Z.le_gt_cases w x).
        -- exists q, w. split_and!; [by left|lia|].
           intros y [->|Hy]%elem_of_cons Hvy; [cbn; lia|].
           specialize (Hmin y Hy Hvy). lia.
        -- exists p, x. split_and!; [by right|done|].
           intros y [->|Hy]%elem_of_cons Hvy; [cbn; lia|by apply Hmin].
Qed.

Lemma lower_bound_addr s t v fuel :
  wf s t → length (elems t) < fuel →
  lower_bound fuel v s = Some (mkIter (lb_addr v t (terminal_ s))).
Proof.
  intros Hw Hf. pose proof (height_le_length t) as Hht.
  pose proof (wf_repr _ _ Hw) as Hz.
  unfold lower_bound. rewrite (zr_root _ _ _ Hz). cbn [plug].
  rewrite (lower_bound_loop_spec _ _ _ _ (terminal_ s));
    [done|apply (zr_sub _ _ _ Hz)|by apply wf_tm_notin|lia|apply Hw|by left].
Qed.

Lemma lower_bound_wf s t v fuel :
  wf s t → length (elems t) < fuel →
  ∃ it, lower_bound fuel v s = Some it
        ∧ ((it = end_ s ∧ ∀ x, x ∈ values t → (x < v)%Z)
           ∨ (it ≠ end_ s ∧ deref s it ∈ values t ∧ (v ≤ deref s it)%Z
              ∧ ∀ x, x ∈ values t → (v ≤ x)%Z → (deref s it ≤ x)%Z)).
Proof.
  intros Hw Hf. pose proof (wf_repr _ _ Hw) as Hz.
  eexists. split; [by eapply lower_bound_addr|].
  destruct (least_above v (elems t)) as [Hall|(p & x & Hin & Hx & Hmin)].
  - left. by rewrite lb_addr_none.
  - right. rewrite (lb_addr_some v t _ p x (wf_bst _ _ Hw) Hin Hx Hmin).
    unfold end_, deref. cbn [current]. rewrite (wf_data _ _ _ _ Hz Hin).
    split_and!; [|by apply (list_elem_of_fmap_2 snd _ (p, x))|done|done].
    intros [=E]. by apply (wf_addr_ne _ _ _ _ Hz Hin).
Qed.

Lemma find_lower_bound_wf s t v fuel :
  wf s t → length (elems t) < fuel →
  ∃ it1 it2, find fuel v s = Some it1 ∧ lower_bound fuel v s = Some it2
             ∧ (iter_eqb it1 it2 = true
                ↔ v ∈ values t ∨ ∀ x, x ∈ values t → (x < v)%Z).
Proof.
  intros Hw Hf. pose proof (wf_repr _ _ Hw) as Hz.
  destruct (find_wf s t v fuel Hw Hf) as (it1 & E1 & Hp & Ha).
  exists it1, (mkIter (lb_addr v t (terminal_ s))).
  split_and!; [done|by eapply lower_bound_addr|].
  unfold iter_eqb. cbn [current]. rewrite Pos.eqb_eq.
  destruct (least_above v (elems t)) as [Hall|(p & x & Hin & Hx & Hmin)].
  - rewrite lb_addr_none by done. split; [auto|]. intros _.
    rewrite Ha; [done|]. intros Hv. specialize (Hall v Hv). lia.
  - rewrite (lb_addr_some v t _ p x (wf_bst _ _ Hw) Hin Hx Hmin).
    assert (Hxv : x ∈ values t) by (by apply (list_elem_of_fmap_2 snd _ (p, x))).
    split.
    + intros E. left. destruct (decide (v ∈ values t)) as [|Hn]; [done|].
      rewrite (Ha Hn) in E. cbn in E. symmetry in E.
      by destruct (wf_addr_ne _ _ _ _ Hz Hin).
    + intros [Hv|Hall]; [|specialize (Hall x Hxv); lia].
      apply list_elem_of_fmap in Hv as ([q v'] & -> & Hq). cbn [snd] in *.
      assert (x = v') as -> by (specialize (Hmin v' (list_elem_of_fmap_2 snd _ _ Hq)); lia).
      pose proof (lookup_addr_present (terminal_ s) _ _ _ (wf_bst _ _ Hw) Hq) as Eq.
      pose proof (lookup_addr_present (terminal_ s) _ _ _ (wf_bst _ _ Hw) Hin) as Ep.
      unfold find in E1. rewrite (zr_root _ _ _ Hz) in E1. cbn [plug] in E1.
      rewrite (find_loop_spec _ _ _ _ (terminal_ s)) in E1;
        [|apply (zr_sub _ _ _ Hz)|by apply wf_tm_notin
         |pose proof (height_le_length t); lia].
      cbn in E1. injection E1 as <-. cbn. congruence.
Qed.

(** ** Well-formed states: cursors *)

Lemma rootp_in tm t : t ≠ E → rootp tm t ∈ addrs t.
Proof.
  destruct t as [|c l p v r]; [done|]. intros _. rewrite addrs_T.
  apply elem_of_app. right. by left.
Qed.

Lemma rootp_tm tm t : tm ∉ addrs t → rootp tm t ≠ tm → t ≠ E.
Proof. by destruct t. Qed.

Lemma addr_focus t p :
  p ∈ addrs t → ∃ C c l v r, t = plug C (T c l p v r).
Proof.
  intros Hp. apply list_elem_of_fmap in Hp as ([q v] & -> & Hin).
  destruct (list_elem_of_split _ _ Hin) as (L1 & L2 & He).
  destruct (focus _ _ _ _ _ He) as (C & c & l & r & -> & _).
  by exists C, c, l, v, r.
Qed.

Lemma in_tree_addr s t p : zrepr s Top t → in_tree s p → p ∈ addrs t.
Proof.
  intros Hz Hin. pose proof (wf_tm_notin _ _ Hz) as Htm.
  induction Hin as [Hr|p Hin IH Hl|p Hin IH Hr].
  - rewrite (zr_root _ _ _ Hz) in Hr |- *. cbn [plug] in *.
    apply rootp_in. by eapply rootp_tm.
  - destruct (addr_focus _ _ IH) as (C & c & l & v & r & ->).
    apply zrepr_plug in Hz. pose proof (zr_sub _ _ _ Hz) as (Hc & _).
    rewrite (lookup_total_correct _ _ _ Hc) in Hl |- *. cbn [left] in *.
    unfold addrs in *. rewrite elems_plug, !fmap_app in *. cbn [elems].
    rewrite !fmap_app. apply elem_of_app. right. apply elem_of_app. left.
    apply elem_of_app. left. apply rootp_in. eapply rootp_tm; [|done].
    intros Hx. apply Htm. apply elem_of_app. right. apply elem_of_app. left.
    cbn [elems]. rewrite fmap_app. apply elem_of_app. by left.
  - destruct (addr_focus _ _ IH) as (C & c & l & v & r & ->).
    apply zrepr_plug in Hz. pose proof (zr_sub _ _ _ Hz) as (Hc & _).
    rewrite (lookup_total_correct _ _ _ Hc) in Hr |- *. cbn [right] in *.
    unfold addrs in *. rewrite elems_plug, !fmap_app in *. cbn [elems].
    rewrite !fmap_app, fmap_cons. apply elem_of_app. right. apply elem_of_app. left.
    apply elem_of_app. right. right. apply rootp_in. eapply rootp_tm; [|done].
    intros Hx. apply Htm. apply elem_of_app. right. apply elem_of_app. left.
    cbn [elems]. rewrite fmap_app, fmap_cons. apply elem_of_app. right. by right.
Qed.

(** [--(++it) == it] for a cursor on a node. *)
Lemma incr_decr_wf s t p fuel :
  wf s t → length (elems t) < fuel → p ∈ addrs t →
  ∃ it', incr fuel s (mkIter p) = Some it' ∧ decr fuel s it' = Some (mkIter p).
Proof.
  intros Hw Hf Hp. pose proof (height_le_length t) as Hht.
  pose proof (wf_repr _ _ Hw) as Hz.
  apply list_elem_of_fmap in Hp as ([q v] & -> & Hin). cbn [fst].
  destruct (list_elem_of_split _ _ Hin) as (L1 & L2 & He).
  unfold incr. cbn [current].
  rewrite (next_spec _ _ _ _ _ _ fuel Hz He) by lia.
  cbn [fmap option_fmap option_map]. eexists. split; [done|].
  unfold decr. cbn [current]. destruct L2 as [|[r w] L2].
  - cbn [fmap list_fmap hd]. rewrite Pos.eqb_refl.
    pose proof (wf_tail _ _ Hw) as Ht. unfold tail_ok, addrs in Ht.
    rewrite He, fmap_app, fmap_cons, last_cons_app in Ht. cbn in Ht. by rewrite Ht.
  - rewrite fmap_cons. cbn [hd fst].
    assert (He' : elems t = (L1 ++ [(q, v)]) ++ (r, w) :: L2)
      by (by rewrite <- app_assoc).
    destruct (elem_cell _ _ _ _ _ _ Hz He') as [Hne _].
    rewrite (proj2 (Pos.eqb_neq _ _) Hne).
    rewrite (prev_spec _ _ _ _ _ _ fuel Hz He') by lia.
    rewrite fmap_app, fmap_cons, fmap_nil, last_snoc_app. done.
Qed.

(** [--end()] on a set that is not empty. *)
Lemma decr_end_wf s t fuel :
  wf s t → t ≠ E →
  ∃ it, decr fuel s (end_ s) = Some it ∧ it ≠ end_ s
        ∧ deref s it ∈ values t ∧ ∀ x, x ∈ values t → (x ≤ deref s it)%Z.
Proof.
  intros Hw Hne. pose proof (wf_repr _ _ Hw) as Hz.
  exists (mkIter (tail_ s)). unfold decr, end_, deref. cbn [current].
  rewrite Pos.eqb_refl. split; [done|].
  pose proof (wf_tail _ _ Hw) as Ht. unfold tail_ok, addrs in Ht.
  destruct (exists_last (l := elems t)) as (L & [p v] & He).
  { intros Hn. by apply elems_nil in Hn. }
  rewrite He in Ht.
  rewrite fmap_app, fmap_cons, fmap_nil, last_snoc_app in Ht. cbn in Ht. rewrite Ht.
  assert (Hin : (p, v) ∈ elems t) by (rewrite He; apply elem_of_app; right; by left).
  rewrite (wf_data _ _ _ _ Hz Hin). split_and!.
  - intros [=E]. by apply (wf_addr_ne _ _ _ _ Hz Hin).
  - by apply (list_elem_of_fmap_2 snd _ (p, v)).
  - pose proof (proj1 (bst_sorted t) (wf_bst _ _ Hw)) as Hs.
    unfold values in *. rewrite He, fmap_app in *. cbn in *.
    apply StronglySorted_app in Hs as (H12 & _).
    intros x [Hx|Hx]%elem_of_app.
    + specialize (H12 x v Hx). assert (x < v)%Z; [|lia]. apply H12. by left.
    + apply list_elem_of_singleton in Hx. lia.
Qed.

Lemma decr_end_empty s fuel :
  wf s E → decr fuel s (end_ s) = Some (end_ s).
Proof.
  intros Hw. unfold decr, end_. cbn [current]. rewrite Pos.eqb_refl.
  by rewrite (wf_tail _ _ Hw).
Qed.

(** ** Well-formed states: the invariants in the words of the specification *)

Lemma balanced_counts t n : balanced t → n ∈ black_counts t → n = bh t.
Proof.
  revert n. induction t as [|c l IHl p v r IHr]; intros n Hb Hn; cbn in *.
  - by apply list_elem_of_singleton in Hn.
  - destruct Hb as (Hlr & Hbl & Hbr).
    apply list_elem_of_fmap in Hn as (m & -> & Hm).
    apply elem_of_app in Hm as [Hm|Hm].
    + by rewrite (IHl m Hbl Hm).
    + by rewrite (IHr m Hbr Hm), Hlr.
Qed.

Lemma balanced_subtree u t : subtree u t → balanced t → balanced u.
Proof. induction 1; [done|..]; intros (? & ? & ?); auto. Qed.

Lemma balanced_uniform t : balanced t → uniform_black_height t.
Proof.
  intros Hb u Hu a b Ha Hb'. pose proof (balanced_subtree _ _ Hu Hb) as Hbu.
  by rewrite (balanced_counts _ _ Hbu Ha), (balanced_counts _ _ Hbu Hb').
Qed.

Lemma wf_bounds s t : wf s t → bounds_ok s t.
Proof.
  intros Hw. pose proof (wf_repr _ _ Hw) as Hz.
  pose proof (wf_tm_notin _ _ Hz) as Htm.
  pose proof (wf_head _ _ Hw) as Hh. pose proof (wf_tail _ _ Hw) as Ht.
  unfold head_ok, tail_ok in *.
  assert (Hhd : t ≠ E → head_ s ∈ addrs t).
  { intros Hne. rewrite Hh. apply hd_in. intros Ha. by apply addrs_nil in Ha. }
  assert (Htl : t ≠ E → tail_ s ∈ addrs t).
  { intros Hne. rewrite Ht. apply last_in. intros Ha. by apply addrs_nil in Ha. }
  split_and!.
  - split; [|by intros ->; rewrite Hh].
    intros E1. destruct t as [|c l p v r]; [done|].
    specialize (Hhd ltac:(done)). by rewrite E1 in Hhd.
  - split; [|by intros ->; rewrite Ht].
    intros E1. destruct t as [|c l p v r]; [done|].
    specialize (Htl ltac:(done)). by rewrite E1 in Htl.
  - intros Hne. pose proof (proj1 (bst_sorted t) (wf_bst _ _ Hw)) as Hs.
    unfold addrs, values in *.
    destruct (elems t) as [|[p v] L] eqn:He; [by apply elems_nil in He|].
    destruct (exists_last (l := (p, v) :: L)) as (L' & [q w] & He'); [done|].
    exists v, w. cbn in Hh. rewrite Hh. split_and!.
    + by left.
    + rewrite Ht, He', fmap_app, fmap_cons, fmap_nil, last_snoc_app. cbn.
      apply elem_of_app. right.
      by left.
    + intros x Hx. split.
      * cbn in Hs. apply StronglySorted_cons in Hs as [Hs _].
        rewrite Forall_forall in Hs.
        cbn in Hx. apply elem_of_cons in Hx as [->|Hx]; [lia|].
        specialize (Hs x Hx). lia.
      * rewrite He', fmap_app in Hs, Hx. cbn in Hs, Hx.
        apply StronglySorted_app in Hs as (H12 & _).
        apply elem_of_app in Hx as [Hx|Hx].
        -- assert (x < w)%Z; [|lia]. apply (H12 x w Hx). by left.
        -- apply list_elem_of_singleton in Hx. lia.
Qed.

(** ** Every state reached from the empty set is well formed *)

Lemma wf_new_set : wf new_set E.
Proof.
  unfold new_set. set (tm := fresh (dom (∅ : heap))).
  split; try done.
  split; cbn; try done.
  - apply NoDup_singleton.
  - exists 0%Z, tm. cbn. by rewrite lookup_singleton_eq.
Qed.

Lemma sorted_notin_mid (L1 L2 : list (ptr * Z)) z v :
  StronglySorted Z.lt (L1 ++ (z, v) :: L2).*2 → v ∉ (L1 ++ L2).*2.
Proof.
  rewrite !fmap_app, fmap_cons. cbn [snd].
  rewrite StronglySorted_app, StronglySorted_cons, Forall_forall.
  intros (H12 & H1 & H2 & H3) [Hin|Hin]%elem_of_app.
  - specialize (H12 v v Hin). assert (v < v)%Z; [|lia]. apply H12. by left.
  - specialize (H2 v Hin). lia.
Qed.

Lemma apply_op_wf o f s t :
  wf s t → length (elems t) < f →
  ∃ s' t', apply_op f o s = Some s' ∧ wf s' t'
           ∧ length (elems t') ≤ S (length (elems t))
           ∧ ∀ x, bool_decide (x ∈ values t')
                  = step_live x (bool_decide (x ∈ values t)) o.
Proof.
  intros Hw Hf. destruct o as [v|v]; cbn [apply_op step_live].
  - destruct (decide (v ∈ values t)) as [Hv|Hv].
    + exists s, t. split_and!; [by eapply insert_dup|done|lia|].
      intros x. destruct (Z.eqb_spec v x) as [->|Hne]; [|done].
      by apply bool_decide_eq_true.
    + destruct (insert_new s t v f Hw Hv Hf)
        as (s' & t' & L1 & L2 & z & Ei & Hw' & He & He' & _).
      exists s', t'. split_and!; [done|done|..].
      * rewrite He, He', !length_app. cbn. lia.
      * intros x. unfold values. rewrite He, He', !fmap_app, fmap_cons. cbn [snd].
        destruct (Z.eqb_spec v x) as [->|Hne].
        -- apply bool_decide_eq_true. apply elem_of_app. right. by left.
        -- apply bool_decide_ext. rewrite !elem_of_app, elem_of_cons.
           intuition congruence.
  - destruct (decide (v ∈ values t)) as [Hv|Hv].
    + destruct (erase_present s t v f Hw Hv Hf)
        as (s' & t' & L1 & z & L2 & Ee & Hw' & He & He' & _).
      exists s', t'. split_and!; [done|done|..].
      * rewrite He, He', !length_app. cbn. lia.
      * intros x. pose proof (proj1 (bst_sorted t) (wf_bst _ _ Hw)) as Hs.
        unfold values in *. rewrite He in Hs. rewrite He, He'.
        pose proof (sorted_notin_mid _ _ _ _ Hs) as Hn.
        destruct (Z.eqb_spec v x) as [->|Hne].
        -- by apply bool_decide_eq_false.
        -- apply bool_decide_ext. rewrite !fmap_app, fmap_cons. cbn [snd].
           rewrite !elem_of_app, elem_of_cons. intuition congruence.
    + exists s, t. split_and!; [by eapply erase_absent|done|lia|].
      intros x. destruct (Z.eqb_spec v x) as [->|Hne]; [|done].
      by apply bool_decide_eq_false.
Qed.

Lemma run_wf ops f s t :
  wf s t → length (elems t) + length ops ≤ f →
  ∃ s' t', run f ops s = Some s' ∧ wf s' t'
           ∧ length (elems t') ≤ length (elems t) + length ops
           ∧ ∀ x, bool_decide (x ∈ values t')
                  = fold_left (step_live x) ops (bool_decide (x ∈ values t)).
Proof.
  revert s t. induction ops as [|o ops IH]; intros s t Hw Hf.
  - exists s, t. cbn. split_and!; [done|done|lia|done].
  - cbn [length] in Hf.
    destruct (apply_op_wf o f s t Hw) as (s1 & t1 & E1 & Hw1 & Hl1 & Hm1); [lia|].
    destruct (IH s1 t1 Hw1) as (s' & t' & E2 & Hw' & Hl' & Hm'); [lia|].
    exists s', t'. cbn [run]. rewrite E1. cbn [mbind option_bind].
    split_and!; [done|done|cbn [length]; lia|].
    intros x. cbn [fold_left]. by rewrite Hm', Hm1.
Qed.

Lemma reach_wf ops f :
  length ops < f →
  ∃ s t, run f ops new_set = Some s ∧ wf s t ∧ length (elems t) ≤ length ops
         ∧ ∀ x, x ∈ values t ↔ live ops x = true.
Proof.
  intros Hf. destruct (run_wf ops f new_set E wf_new_set) as (s & t & E1 & Hw & Hl & Hm);
    [cbn; lia|].
  exists s, t. split_and!; [done|done|done|].
  intros x. unfold live.
  change false with (bool_decide (x ∈ values E)). rewrite <- (Hm x).
  by rewrite bool_decide_eq_true.
Qed.

Lemma to_list_wf s t fuel :
  wf s t → length (elems t) < fuel → to_list fuel s = Some (values t).
Proof. intros Hw Hf. apply to_list_spec; [apply Hw|apply Hw|done]. Qed.

(** * The properties of the specification *)

(** The concrete scenario of the specification, run on the model:
    inserting 5, 3, 8, 1, 4, 7, 9 gives the iteration 1, 3, 4, 5, 7, 8, 9;
    [find(6)] is the end cursor and [lower_bound(6)] is on 7; after the
    erasure of 5 the iteration is 1, 3, 4, 7, 8, 9; after the erasure of 1,
    [begin()] is on 3. *)
Example scenario_runs :
  (s ← run 8 scenario new_set;
   l ← to_list 9 s;
   it ← find 9 6 s;
   lb ← lower_bound 9 6 s;
   s1 ← erase 9 5 s;
   l1 ← to_list 9 s1;
   s2 ← erase 9 1 s1;
   Some (l, iter_eqb it (end_ s), deref s lb, l1, deref s2 (begin_ s2)))
  = Some ([1; 3; 4; 5; 7; 8; 9], true, 7, [1; 3; 4; 7; 8; 9], 3)%Z.
Proof. by vm_compute. Qed.

(** C1. After each operation of any sequence of insertions and erasures
    applied to the empty set, the store holds a tree [t] that satisfies the
    five invariants: search-tree order; BLACK root and BLACK sentinel; no RED
    node with a RED child; the same number of BLACK nodes on every path from
    a node down to the sentinel; and [head_]/[tail_] on the nodes of the
    least and the greatest element, or on the sentinel exactly when the tree
    is empty. *)
Theorem invariants_after_each_operation ops f k :
  length ops < f →
  ∃ s t, run f (take k ops) new_set = Some s ∧ zrepr s Top t
         ∧ bst t
         ∧ (rcolor t = BLACK ∧ color (s.[root_ s]) = BLACK
            ∧ color (s.[terminal_ s]) = BLACK)
         ∧ nored t
         ∧ uniform_black_height t
         ∧ bounds_ok s t.
Proof.
  intros Hf. destruct (reach_wf (take k ops) f) as (s & t & E1 & Hw & _).
  { rewrite length_take. lia. }
  pose proof (wf_repr _ _ Hw) as Hz.
  destruct (zr_sentinel _ _ _ Hz) as (d & par & Hs).
  exists s, t. split_and!; try apply Hw; try done.
  - rewrite (zr_root _ _ _ Hz). cbn [plug].
    rewrite (root_color _ _ _ _ _ (zr_sub _ _ _ Hz) Hs eq_refl). apply Hw.
  - by rewrite (lookup_total_correct _ _ _ Hs).
  - apply balanced_uniform, Hw.
  - by apply wf_bounds.
Qed.

Lemma invariants_after_each_operation_witness :
  length scenario < 8
  ∧ ∃ s t, run 8 (take 7 scenario) new_set = Some s ∧ zrepr s Top t
           ∧ bst t
           ∧ (rcolor t = BLACK ∧ color (s.[root_ s]) = BLACK
              ∧ color (s.[terminal_ s]) = BLACK)
           ∧ nored t
           ∧ uniform_black_height t
           ∧ bounds_ok s t.
Proof.
  split; [cbn; lia|].
  apply (invariants_after_each_operation scenario 8 7). cbn; lia.
Defined.

(** C2. After any sequence of insertions and erasures applied to the empty
    set, the iteration from [begin()] to [end()] yields a strictly
    increasing list whose members are exactly the values whose last
    operation in the sequence is an insertion. *)
Theorem iteration_sorted_live ops f fuel :
  length ops < f → length ops < fuel →
  ∃ s l, run f ops new_set = Some s ∧ to_list fuel s = Some l
         ∧ StronglySorted Z.lt l
         ∧ ∀ x, x ∈ l ↔ live ops x = true.
Proof.
  intros Hf Hfuel. destruct (reach_wf ops f Hf) as (s & t & E1 & Hw & Hl & Hm).
  exists s, (values t). split_and!; [done| |by apply bst_sorted, Hw|done].
  apply (to_list_wf _ _ _ Hw). lia.
Qed.

Lemma iteration_sorted_live_witness :
  (length scenario < 8 ∧ length scenario < 9)
  ∧ ∃ s l, run 8 scenario new_set = Some s ∧ to_list 9 s = Some l
           ∧ StronglySorted Z.lt l
           ∧ ∀ x, x ∈ l ↔ live scenario x = true.
Proof.
  split; [cbn; lia|].
  apply (iteration_sorted_live scenario 8 9); cbn; lia.
Defined.

(** C3. On every set reached from the empty one, [lower_bound(v)] returns
    the end cursor when every stored element is below [v], and otherwise a
    cursor on the least stored element that is not below [v]. *)
Theorem lower_bound_least_not_below ops f fuel v :
  length ops < f → length ops < fuel →
  ∃ s l it, run f ops new_set = Some s ∧ to_list fuel s = Some l
            ∧ lower_bound fuel v s = Some it
            ∧ ((it = end_ s ∧ ∀ x, x ∈ l → (x < v)%Z)
               ∨ (it ≠ end_ s ∧ deref s it ∈ l ∧ (v ≤ deref s it)%Z
                  ∧ ∀ x, x ∈ l → (v ≤ x)%Z → (deref s it ≤ x)%Z)).
Proof.
  intros Hf Hfuel. destruct (reach_wf ops f Hf) as (s & t & E1 & Hw & Hl & Hm).
  destruct (lower_bound_wf s t v fuel Hw) as (it & E2 & H); [lia|].
  exists s, (values t), it. split_and!; [done| |done|done].
  apply (to_list_wf _ _ _ Hw). lia.
Qed.

Lemma lower_bound_least_not_below_witness :
  (length scenario < 8 ∧ length scenario < 9)
  ∧ ∃ s l it, run 8 scenario new_set = Some s ∧ to_list 9 s = Some l
              ∧ lower_bound 9 6 s = Some it
              ∧ ((it = end_ s ∧ ∀ x, x ∈ l → (x < 6)%Z)
                 ∨ (it ≠ end_ s ∧ deref s it ∈ l ∧ (6 ≤ deref s it)%Z
                    ∧ ∀ x, x ∈ l → (6 ≤ x)%Z → (deref s it ≤ x)%Z)).
Proof.
  split; [cbn; lia|].
  apply (lower_bound_least_not_below scenario 8 9 6); cbn; lia.
Defined.

(** C4. On every set reached from the empty one, [find(v)] returns a cursor
    on a node whose payload is [v] when [v] is stored, and the end cursor
    when it is not. *)
Theorem find_cursor ops f fuel v :
  length ops < f → length ops < fuel →
  ∃ s l it, run f ops new_set = Some s ∧ to_list fuel s = Some l
            ∧ find fuel v s = Some it
            ∧ (v ∈ l → it ≠ end_ s ∧ deref s it = v)
            ∧ (v ∉ l → it = end_ s).
Proof.
  intros Hf Hfuel. destruct (reach_wf ops f Hf) as (s & t & E1 & Hw & Hl & Hm).
  destruct (find_wf s t v fuel Hw) as (it & E2 & H1 & H2); [lia|].
  exists s, (values t), it. split_and!; [done| |done|done|done].
  apply (to_list_wf _ _ _ Hw). lia.
Qed.

Lemma find_cursor_witness :
  (length scenario < 8 ∧ length scenario < 9)
  ∧ ∃ s l it, run 8 scenario new_set = Some s ∧ to_list 9 s = Some l
              ∧ find 9 4 s = Some it
              ∧ (4%Z ∈ l → it ≠ end_ s ∧ deref s it = 4%Z)
              ∧ (4%Z ∉ l → it = end_ s).
Proof.
  split; [cbn; lia|].
  apply (find_cursor scenario 8 9 4); cbn; lia.
Defined.

(** C5, as stated, fails on the empty set: [find(0)] and [lower_bound(0)]
    are both the end cursor, hence equal, although [0] is not stored (the
    iteration is empty). *)
Lemma find_eq_lower_bound_counterexample :
  find 1 0 new_set = Some (end_ new_set)
  ∧ lower_bound 1 0 new_set = Some (end_ new_set)
  ∧ iter_eqb (end_ new_set) (end_ new_set) = true
  ∧ to_list 1 new_set = Some [].
Proof. by vm_compute. Qed.

(** C5, amended. On every set reached from the empty one, the cursors
    returned by [find(v)] and [lower_bound(v)] are equal exactly when [v] is
    stored or every stored element is below [v]. *)
Theorem find_eq_lower_bound_iff ops f fuel v :
  length ops < f → length ops < fuel →
  ∃ s l it1 it2, run f ops new_set = Some s ∧ to_list fuel s = Some l
                 ∧ find fuel v s = Some it1 ∧ lower_bound fuel v s = Some it2
                 ∧ (iter_eqb it1 it2 = true
                    ↔ v ∈ l ∨ ∀ x, x ∈ l → (x < v)%Z).
Proof.
  intros Hf Hfuel. destruct (reach_wf ops f Hf) as (s & t & E1 & Hw & Hl & Hm).
  destruct (find_lower_bound_wf s t v fuel Hw) as (it1 & it2 & E2 & E3 & H); [lia|].
  exists s, (values t), it1, it2. split_and!; [done| |done|done|done].
  apply (to_list_wf _ _ _ Hw). lia.
Qed.

Lemma find_eq_lower_bound_iff_witness :
  (length scenario < 8 ∧ length scenario < 9)
  ∧ ∃ s l it1 it2, run 8 scenario new_set = Some s ∧ to_list 9 s = Some l
                   ∧ find 9 6 s = Some it1 ∧ lower_bound 9 6 s = Some it2
                   ∧ (iter_eqb it1 it2 = true
                      ↔ 6%Z ∈ l ∨ ∀ x, x ∈ l → (x < 6)%Z).
Proof.
  split; [cbn; lia|].
  apply (find_eq_lower_bound_iff scenario 8 9 6); cbn; lia.
Defined.

(** C6, as stated, fails on a set that already holds the value: from the
    set holding [5] alone, [insert(5); insert(5)] leaves [size()] at 1. *)
Lemma insert_twice_counterexample :
  (s ← run 2 [Insert 5%Z] new_set;
   s1 ← insert 3 5 s;
   s2 ← insert 3 5 s1;
   Some (size s, size s2)) = Some (1, 1).
Proof. by vm_compute. Qed.

(** C6, amended. On every set reached from the empty one, after
    [insert(v); insert(v)] the size is one more than before when [v] was
    not stored, and unchanged when it was. *)
Theorem insert_twice_size ops f fuel v :
  length ops < f → S (length ops) < fuel →
  ∃ s l s1 s2, run f ops new_set = Some s ∧ to_list fuel s = Some l
               ∧ insert fuel v s = Some s1 ∧ insert fuel v s1 = Some s2
               ∧ size s2 = (if bool_decide (v ∈ l) then size s else S (size s)).
Proof.
  intros Hf Hfuel. destruct (reach_wf ops f Hf) as (s & t & E1 & Hw & Hl & Hm).
  assert (Ht : to_list fuel s = Some (values t)) by (apply (to_list_wf _ _ _ Hw); lia).
  destruct (decide (v ∈ values t)) as [Hv|Hv].
  - pose proof (insert_dup s t v fuel Hw Hv) as Ei.
    exists s, (values t), s, s. rewrite bool_decide_eq_true_2 by done.
    split_and!; [done|done|apply Ei; lia|apply Ei; lia|done].
  - destruct (insert_new s t v fuel Hw Hv)
      as (s1 & t1 & L1 & L2 & z & Ei & Hw1 & He & He1 & _); [lia|].
    assert (Hv1 : v ∈ values t1).
    { unfold values. rewrite He1, fmap_app, fmap_cons. apply elem_of_app.
      right. by left. }
    assert (Hl1 : length (elems t1) = S (length (elems t))).
    { rewrite He, He1, !length_app. cbn. lia. }
    exists s, (values t), s1, s1. rewrite bool_decide_eq_false_2 by done.
    split_and!; [done|done|done|apply (insert_dup s1 t1 v fuel Hw1 Hv1); lia|].
    unfold size. by rewrite (wf_size _ _ Hw1), (wf_size _ _ Hw), Hl1.
Qed.

Lemma insert_twice_size_witness :
  (length scenario < 8 ∧ S (length scenario) < 9)
  ∧ ∃ s l s1 s2, run 8 scenario new_set = Some s ∧ to_list 9 s = Some l
                 ∧ insert 9 6 s = Some s1 ∧ insert 9 6 s1 = Some s2
                 ∧ size s2 = (if bool_decide (6%Z ∈ l) then size s else S (size s)).
Proof.
  split; [cbn; lia|].
  apply (insert_twice_size scenario 8 9 6); cbn; lia.
Defined.

(** C7. On every set reached from the empty one, inserting a stored value,
    erasing a value that is not stored and erasing the end cursor all
    return normally and leave the whole state as it was. *)
Theorem noop_operations ops f fuel :
  length ops < f → length ops < fuel →
  ∃ s l, run f ops new_set = Some s ∧ to_list fuel s = Some l
         ∧ (∀ v, v ∈ l → insert fuel v s = Some s)
         ∧ (∀ v, v ∉ l → erase fuel v s = Some s)
         ∧ erase_at fuel (end_ s) s = Some s.
Proof.
  intros Hf Hfuel. destruct (reach_wf ops f Hf) as (s & t & E1 & Hw & Hl & Hm).
  exists s, (values t). split_and!; [done| | | |apply erase_at_end].
  - apply (to_list_wf _ _ _ Hw). lia.
  - intros v Hv. apply (insert_dup s t v fuel Hw Hv). lia.
  - intros v Hv. apply (erase_absent s t v fuel Hw Hv). lia.
Qed.

Lemma noop_operations_witness :
  (length scenario < 8 ∧ length scenario < 9)
  ∧ ∃ s l, run 8 scenario new_set = Some s ∧ to_list 9 s = Some l
           ∧ (∀ v, v ∈ l → insert 9 v s = Some s)
           ∧ (∀ v, v ∉ l → erase 9 v s = Some s)
           ∧ erase_at 9 (end_ s) s = Some s.
Proof.
  split; [cbn; lia|].
  apply (noop_operations scenario 8 9); cbn; lia.
Defined.

(** C8. On every set reached from the empty one, for every cursor [it] on
    a node of the tree ([begin()] included), [--(++it) == it]; and when the
    set is not empty, [--end()] is a cursor that dereferences to the
    greatest stored element: its payload is one of the payloads [values t]
    of the tree [t] laid out in the store, which the iteration lists, and
    none of them is above it. *)
Theorem cursor_round_trip ops f fuel :
  length ops < f → length ops < fuel →
  ∃ s t, run f ops new_set = Some s ∧ zrepr s Top t
         ∧ to_list fuel s = Some (values t)
         ∧ (∀ x, x ∈ values t ↔ live ops x = true)
         ∧ (∀ it, in_tree s (current it) →
              ∃ it1 it2, incr fuel s it = Some it1 ∧ decr fuel s it1 = Some it2
                         ∧ iter_eqb it2 it = true)
         ∧ (values t ≠ [] →
              ∃ it, decr fuel s (end_ s) = Some it ∧ it ≠ end_ s
                    ∧ deref s it ∈ values t
                    ∧ ∀ x, x ∈ values t → (x ≤ deref s it)%Z).
Proof.
  intros Hf Hfuel. destruct (reach_wf ops f Hf) as (s & t & E1 & Hw & Hl & Hm).
  exists s, t. split_and!; [done|apply Hw| |done| |].
  - apply (to_list_wf _ _ _ Hw). lia.
  - intros [p] Hin. cbn [current] in Hin.
    apply (in_tree_addr _ _ _ (wf_repr _ _ Hw)) in Hin.
    destruct (incr_decr_wf s t p fuel Hw) as (it1 & Ea & Eb); [lia|done|].
    exists it1, (mkIter p). split_and!; [done|done|].
    unfold iter_eqb. apply Pos.eqb_refl.
  - intros Hne. apply (decr_end_wf s t fuel Hw). by intros ->.
Qed.

Lemma cursor_round_trip_witness :
  (length scenario < 8 ∧ length scenario < 9)
  ∧ ∃ s t, run 8 scenario new_set = Some s ∧ zrepr s Top t
           ∧ to_list 9 s = Some (values t)
           ∧ (∀ x, x ∈ values t ↔ live scenario x = true)
           ∧ (∀ it, in_tree s (current it) →
                ∃ it1 it2, incr 9 s it = Some it1 ∧ decr 9 s it1 = Some it2
                           ∧ iter_eqb it2 it = true)
           ∧ (values t ≠ [] →
                ∃ it, decr 9 s (end_ s) = Some it ∧ it ≠ end_ s
                      ∧ deref s it ∈ values t
                      ∧ ∀ x, x ∈ values t → (x ≤ deref s it)%Z).
Proof.
  split; [cbn; lia|].
  apply (cursor_round_trip scenario 8 9); cbn; lia.
Defined.

(** C9. After any sequence of insertions and erasures applied to the empty
    set, [size()] is the number of nodes of the tree, which is the length
    of the iteration, and [empty()] holds exactly when that number is
    zero. *)
Theorem size_counts_nodes ops f fuel :
  length ops < f → length ops < fuel →
  ∃ s t l, run f ops new_set = Some s ∧ zrepr s Top t
           ∧ to_list fuel s = Some l
           ∧ size s = length (addrs t) ∧ size s = length l
           ∧ (empty s = true ↔ length l = 0).
Proof.
  intros Hf Hfuel. destruct (reach_wf ops f Hf) as (s & t & E1 & Hw & Hl & Hm).
  exists s, t, (values t). unfold empty, size, addrs, values.
  rewrite !length_fmap, (wf_size _ _ Hw), Nat.eqb_eq.
  split_and!; [done|apply Hw| |done|done|done].
  apply (to_list_wf _ _ _ Hw). lia.
Qed.

Lemma size_counts_nodes_witness :
  (length scenario < 8 ∧ length scenario < 9)
  ∧ ∃ s t l, run 8 scenario new_set = Some s ∧ zrepr s Top t
             ∧ to_list 9 s = Some l
             ∧ size s = length (addrs t) ∧ size s = length l
             ∧ (empty s = true ↔ length l = 0).
Proof.
  split; [cbn; lia|].
  apply (size_counts_nodes scenario 8 9); cbn; lia.
Defined.

(** C10. On every empty set reached from the empty one (the new set, or a
    set emptied by erasures), decrementing the end cursor gives the end
    cursor. *)
Theorem decr_end_on_empty ops f fuel :
  length ops < f →
  ∃ s, run f ops new_set = Some s
       ∧ (empty s = true → decr fuel s (end_ s) = Some (end_ s)).
Proof.
  intros Hf. destruct (reach_wf ops f Hf) as (s & t & E1 & Hw & Hl & Hm).
  exists s. split; [done|]. unfold empty, size. rewrite Nat.eqb_eq.
  rewrite (wf_size _ _ Hw). intros Hz.
  assert (t = E) as -> by (apply elems_nil; by destruct (elems t)).
  by apply decr_end_empty.
Qed.

Lemma decr_end_on_empty_witness :
  length [Insert 5%Z; Erase 5%Z] < 3
  ∧ ∃ s, run 3 [Insert 5%Z; Erase 5%Z] new_set = Some s
         ∧ (empty s = true → decr 1 s (end_ s) = Some (end_ s)).
Proof.
  split; [cbn; lia|].
  apply (decr_end_on_empty [Insert 5%Z; Erase 5%Z] 3 1). cbn; lia.
Defined.

(** * Further properties of the code *)

(** ** Sorted lists *)

Lemma sorted_mid (L1 L2 : list (ptr * Z)) p v :
  StronglySorted Z.lt (L1 ++ (p, v) :: L2).*2 →
  (∀ x, x ∈ L1.*2 → (x < v)%Z) ∧ (∀ x, x ∈ L2.*2 → (v < x)%Z).
Proof.
  rewrite fmap_app, fmap_cons. cbn [snd].
  rewrite StronglySorted_app, StronglySorted_cons, Forall_forall.
  intros (H12 & H1 & H2 & H3). split; [|done].
  intros x Hx. apply (H12 x v Hx). by left.
Qed.

Lemma sorted_hd_least (a : Z) l x :
  StronglySorted Z.lt (a :: l) → x ∈ a :: l → (a ≤ x)%Z.
Proof.
  rewrite StronglySorted_cons, Forall_forall. intros [Ha _].
  intros [->|Hx]%elem_of_cons; [lia|]. specialize (Ha x Hx). lia.
Qed.

(** Two strictly increasing lists with the same members are equal. *)
Lemma sorted_ext (l1 l2 : list Z) :
  StronglySorted Z.lt l1 → StronglySorted Z.lt l2 →
  (∀ x, x ∈ l1 ↔ x ∈ l2) → l1 = l2.
Proof.
  revert l2. induction l1 as [|a l1 IH]; intros l2 H1 H2 Hm.
  - destruct l2 as [|b l2]; [done|].
    assert (b ∈ ([] : list Z)) as Hb by (apply Hm; by left).
    by apply elem_of_nil in Hb.
  - destruct l2 as [|b l2].
    { assert (a ∈ ([] : list Z)) as Ha by (apply Hm; by left).
      by apply elem_of_nil in Ha. }
    assert (a = b) as <-.
    { assert (a ≤ b)%Z by (apply (sorted_hd_least a l1); [done|apply Hm; by left]).
      assert (b ≤ a)%Z by (apply (sorted_hd_least b l2); [done|apply Hm; by left]).
      lia. }
    f_equal. pose proof H1 as H1'. pose proof H2 as H2'.
    apply StronglySorted_cons in H1' as [Ha1 H1'].
    apply StronglySorted_cons in H2' as [Ha2 H2'].
    rewrite Forall_forall in Ha1, Ha2.
    apply IH; [done|done|]. intros x. split; intros Hx.
    + assert (x ∈ a :: l2) as [->|]%elem_of_cons by (apply Hm; by right); [|done].
      specialize (Ha1 a Hx). lia.
    + assert (x ∈ a :: l1) as [->|]%elem_of_cons by (apply Hm; by right); [|done].
      specialize (Ha2 a Hx). lia.
Qed.

Lemma wf_sorted s t : wf s t → StronglySorted Z.lt (values t).
Proof. intros Hw. apply bst_sorted, Hw. Qed.

Lemma addr_elem t p : p ∈ addrs t → ∃ v, (p, v) ∈ elems t.
Proof.
  intros Hp. apply list_elem_of_fmap in Hp as ([q v] & -> & Hin). by exists v.
Qed.

(** ** Cursors: [operator++] and [operator--] *)


Lemma exists_last_or_nil {A} (l : list A) :
  l = [] ∨ ∃ l' a, l = l' ++ [a].
Proof.
  destruct l as [|b l]; [by left|right].
  destruct (exists_last (l := b :: l)) as (l' & a & ->); [done|]. by exists l', a.
Qed.

Lemma sorted_last_greatest (l : list Z) (a x : Z) :
  StronglySorted Z.lt (l ++ [a]) → x ∈ l ++ [a] → (x ≤ a)%Z.
Proof.
  rewrite StronglySorted_app. intros (H12 & _ & _).
  intros [Hx|Hx]%elem_of_app.
  - assert (x < a)%Z; [|lia]. apply (H12 x a Hx). by left.
  - apply list_elem_of_singleton in Hx. lia.
Qed.

Lemma decr_prev_wf s t p fuel :
  wf s t → height t ≤ fuel → p ∈ addrs t →
  ∃ it', decr fuel s (mkIter p) = Some it'
    ∧ ((it' = end_ s ∧ mkIter p = begin_ s
        ∧ ∀ x, x ∈ values t → (data (s.[p]) ≤ x)%Z)
       ∨ (it' ≠ end_ s ∧ deref s it' ∈ values t
          ∧ (deref s it' < data (s.[p]))%Z
          ∧ ∀ x, x ∈ values t → (x < data (s.[p]))%Z → (x ≤ deref s it')%Z)).
Proof.
  intros Hw Hf Hp. pose proof (wf_repr _ _ Hw) as Hz.
  pose proof (wf_sorted _ _ Hw) as Hs.
  destruct (addr_elem _ _ Hp) as (v & Hin).
  destruct (list_elem_of_split _ _ Hin) as (L1 & L2 & He).
  rewrite (wf_data _ _ _ _ Hz Hin).
  pose proof (wf_head _ _ Hw) as Hh. unfold head_ok, addrs in Hh.
  unfold values in *. rewrite He in Hs, Hh |- *.
  destruct (sorted_mid _ _ _ _ Hs) as [Hlt Hgt].
  unfold decr. cbn [current].
  rewrite (proj2 (Pos.eqb_neq _ _) (wf_addr_ne _ _ _ _ Hz Hin)).
  rewrite (prev_spec _ _ _ _ _ _ fuel Hz He Hf).
  cbn [fmap option_fmap option_map]. eexists. split; [done|].
  destruct (exists_last_or_nil L1) as [->|(L1' & [q w] & ->)].
  - left. cbn in Hh. split_and!; [done|unfold begin_; by rewrite Hh|].
    intros x. cbn. intros [->|Hx]%elem_of_cons; [lia|].
    specialize (Hgt x Hx). lia.
  - right. rewrite fmap_app, fmap_cons, fmap_nil, last_snoc_app.
    unfold end_, deref. cbn [current fst].
    assert (Hq : (q, w) ∈ elems t).
    { rewrite He. apply elem_of_app. left. apply elem_of_app. right. by left. }
    rewrite (wf_data _ _ _ _ Hz Hq). split_and!.
    + intros [=E]. by apply (wf_addr_ne _ _ _ _ Hz Hq).
    + rewrite !fmap_app, !fmap_cons. apply elem_of_app. left.
      apply elem_of_app. right. by left.
    + apply Hlt. rewrite fmap_app, fmap_cons. apply elem_of_app. right. by left.
    + intros x. rewrite fmap_app, fmap_cons, elem_of_app. cbn [snd].
      intros [Hx|Hx] Hvx.
      * apply (sorted_last_greatest L1'.*2 w).
        -- rewrite !fmap_app, !fmap_cons, fmap_nil in Hs. cbn [snd] in Hs.
           by apply StronglySorted_app in Hs as (_ & Hs & _).
        -- by rewrite fmap_app, fmap_cons, fmap_nil in Hx.
      * apply elem_of_cons in Hx as [->|Hx]; [lia|]. specialize (Hgt x Hx). lia.
Qed.

(** [++(--it) == it], for a cursor on a node that is not [begin()] and for
    the end cursor of a set that is not empty. *)
Lemma decr_incr_node_wf s t p fuel :
  wf s t → height t ≤ fuel → p ∈ addrs t → mkIter p ≠ begin_ s →
  ∃ it1, decr fuel s (mkIter p) = Some it1 ∧ incr fuel s it1 = Some (mkIter p).
Proof.
  intros Hw Hf Hp Hb. pose proof (wf_repr _ _ Hw) as Hz.
  destruct (addr_elem _ _ Hp) as (v & Hin).
  destruct (list_elem_of_split _ _ Hin) as (L1 & L2 & He).
  pose proof (wf_head _ _ Hw) as Hh. unfold head_ok, addrs in Hh.
  rewrite He in Hh.
  unfold decr. cbn [current].
  rewrite (proj2 (Pos.eqb_neq _ _) (wf_addr_ne _ _ _ _ Hz Hin)).
  rewrite (prev_spec _ _ _ _ _ _ fuel Hz He Hf).
  cbn [fmap option_fmap option_map]. eexists. split; [done|].
  destruct (exists_last_or_nil L1) as [->|(L1' & [q w] & ->)].
  - exfalso. apply Hb. unfold begin_. by rewrite Hh.
  - rewrite fmap_app, fmap_cons, fmap_nil, last_snoc_app. cbn [fst].
    unfold incr. cbn [current]. rewrite <- app_assoc in He. cbn [app] in He.
    by rewrite (next_spec _ _ _ _ _ _ fuel Hz He Hf).
Qed.

Lemma decr_incr_end_wf s t fuel :
  wf s t → height t ≤ fuel → end_ s ≠ begin_ s →
  ∃ it1, decr fuel s (end_ s) = Some it1 ∧ incr fuel s it1 = Some (end_ s).
Proof.
  intros Hw Hf Hb. pose proof (wf_repr _ _ Hw) as Hz.
  pose proof (wf_head _ _ Hw) as Hh. pose proof (wf_tail _ _ Hw) as Ht.
  unfold head_ok, tail_ok, addrs in *.
  unfold decr, end_. cbn [current]. rewrite Pos.eqb_refl.
  eexists. split; [done|].
  destruct (exists_last_or_nil (elems t)) as [He|(L1 & [q w] & He)].
  - exfalso. apply Hb. unfold begin_, end_. rewrite Hh, He. done.
  - rewrite He, fmap_app, fmap_cons, fmap_nil, last_snoc_app in Ht. cbn in Ht.
    unfold incr. cbn [current]. rewrite Ht.
    by rewrite (next_spec _ _ _ _ _ _ fuel Hz He Hf).
Qed.

(** ** [begin()], [end()] and [empty()] *)

Lemma wf_empty s t : wf s t → (empty s = true ↔ t = E).
Proof.
  intros Hw. unfold empty, size. rewrite Nat.eqb_eq, (wf_size _ _ Hw).
  split; [|by intros ->]. intros H. apply elems_nil. by destruct (elems t).
Qed.

Lemma begin_wf s t :
  wf s t →
  (iter_eqb (begin_ s) (end_ s) = true ↔ empty s = true)
  ∧ (empty s = false →
       begin_ s ≠ end_ s ∧ deref s (begin_ s) ∈ values t
       ∧ ∀ x, x ∈ values t → (deref s (begin_ s) ≤ x)%Z).
Proof.
  intros Hw. pose proof (wf_repr _ _ Hw) as Hz.
  destruct (wf_bounds _ _ Hw) as (Hh & _ & Hb).
  pose proof (wf_empty _ _ Hw) as He.
  unfold iter_eqb, begin_, end_, deref. cbn [current]. rewrite Pos.eqb_eq.
  split; [by rewrite Hh, He|].
  intros Hne. assert (t ≠ E) as Ht.
  { intros Ht. apply He in Ht. congruence. }
  destruct (Hb Ht) as (vmin & vmax & Hmin & Hmax & Hall).
  rewrite (wf_data _ _ _ _ Hz Hmin). split_and!.
  - intros [=E1]. by apply Ht, Hh.
  - by apply (list_elem_of_fmap_2 snd _ (head_ s, vmin)).
  - intros x Hx. by apply Hall.
Qed.

(** ** The operations under the height of the tree

    The loops of [insert], [erase], [find] and [lower_bound] run for at most
    as many rounds as the tree is high. *)

Lemma insert_new_h s t v fuel :
  wf s t → v ∉ values t → height t < fuel →
  ∃ s' t' L1 L2 z,
    insert fuel v s = Some s' ∧ wf s' t'
    ∧ elems t = L1 ++ L2 ∧ elems t' = L1 ++ (z, v) :: L2
    ∧ all_lt v L1 ∧ all_gt v L2 ∧ terminal_ s' = terminal_ s.
Proof.
  intros [Hz Hb Hc Hn Hbal Hh Htl Hsz] Hv Hf.
  pose proof (wf_tm_notin _ _ Hz) as Htm.
  destruct (insert_descend_attach (mem s) (terminal_ s) v fuel t Top)
    as (C & Ed & Ep & Hd & Hlt & Hgt);
    [apply (zr_sub _ _ _ Hz)|done|done|lia|done|by intros ? ?%elem_of_nil..|].
  simpl in Ep, Ed, Hd. subst t.
  unfold insert. rewrite (zr_root _ _ _ Hz). cbn [plug]. rewrite Ed.
  pose proof (proj2 (zrepr_plug s C E) Hz) as HzC.
  pose proof (insert_link_zrepr s C v HzC (link_ord_of _ _ Hlt Hgt)) as Hz1.
  pose proof (fresh_not_stored _ _ _ Hz) as Hfr. cbn [plug] in Hfr.
  destruct (insert_link_fields v (cparent (terminal_ s) C) s)
    as (E1 & Et1 & Es1 & Eh1 & Etl1).
  destruct (insert_link v (cparent (terminal_ s) C) s) as [z s1].
  cbn [fst snd] in *. subst z.
  set (z := fresh (dom (mem s))) in *.
  destruct (plug_accepts C E) as [_ Ha]; [done|done|].
  destruct (insert_fix_up_spec fuel s1 C (T RED E z v E) Hz1)
    as (s' & t' & Ef & Hz' & He' & Hr' & Hc' & Hf');
    [unfold ifu_inv, rbt; simpl in *; tauto|lia|].
  rewrite Et1 in Ef. cbn [rootp] in Ef.
  destruct Hf' as (Et' & Es' & Eh' & Etl').
  rewrite elems_plug in He'. cbn [elems app] in He'.
  pose proof (elems_plug C E) as HeC. cbn [elems app] in HeC.
  exists s', t', (cleft C), (cright C), z.
  split_and!; [done| |done|done|done|done|congruence].
  destruct Hr' as [Hbal' Hn'].
  split; [done| |done|done|done|..].
  - apply bst_sorted. unfold values. rewrite He'.
    apply sorted_insert_mid; [|done|done].
    apply bst_sorted in Hb. unfold values in Hb. by rewrite HeC in Hb.
  - unfold head_ok, addrs. rewrite Eh', Eh1, Et', Et1, He'.
    by apply (head_link s (plug C E)).
  - unfold tail_ok, addrs. rewrite Etl', Etl1, Et', Et1, He'.
    by apply (tail_link s (plug C E)).
  - rewrite Es', Es1, Hsz, He', HeC, !length_app. simpl. lia.
Qed.

Lemma insert_dup_h s t v fuel :
  wf s t → v ∈ values t → height t < fuel → insert fuel v s = Some s.
Proof.
  intros [Hz Hb Hc Hn Hbal Hh Htl Hsz] Hv Hf.
  pose proof (wf_tm_notin _ _ Hz) as Htm.
  unfold insert. rewrite (zr_root _ _ _ Hz). cbn [plug].
  rewrite (insert_descend_found (mem s) (terminal_ s) v fuel t (terminal_ s));
    [done|apply (zr_sub _ _ _ Hz)|done|done|lia|done].
Qed.

(** The zipper left by [unlink] is no deeper than the tree was high. *)
Lemma unlink_depth C zc zl z zv zr col C' t' :
  unlink C zc zl zr = (col, C', t') →
  cdepth C' + 1 ≤ height (plug C (T zc zl z zv zr)).
Proof.
  intros Hu. pose proof (height_plug C (T zc zl z zv zr)) as Hh.
  cbn [height] in Hh.
  destruct zl as [|lc ll lp lv lr].
  { cbn in Hu. injection Hu as <- <- <-. lia. }
  destruct zr as [|rc rl rp rv rr].
  { cbn in Hu. injection Hu as <- <- <-. lia. }
  unfold unlink in Hu.
  destruct (split_min_spec (T rc rl rp rv rr) Top)
    as (Cy & yc & y & yv & yr & Hsm & Ey & Hcl); [done|].
  rewrite capp_Top in Hsm. rewrite Hsm in Hu. injection Hu as <- <- <-.
  rewrite Ey in Hh |- *. pose proof (height_plug Cy (T yc E y yv yr)) as Hy.
  cbn [height] in Hy. rewrite cdepth_capp. cbn [cdepth]. lia.
Qed.

Lemma erase_at_present_h s t L1 z v L2 fuel :
  wf s t → elems t = L1 ++ (z, v) :: L2 → height t ≤ fuel →
  ∃ s' t', erase_at fuel (mkIter z) s = Some s' ∧ wf s' t'
           ∧ elems t' = L1 ++ L2 ∧ terminal_ s' = terminal_ s.
Proof.
  intros [Hz Hb Hc Hn Hbal Hh Htl Hsz] He Hf.
  destruct (elem_cell _ _ _ _ _ _ Hz He) as [Hzt _].
  destruct (erase_bounds_spec s t L1 z v L2 fuel Hz Hh Htl He)
    as (sb & Eb & Em & Et & Er & Es & Ehd & Etl); [lia|].
  pose proof (zrepr_ext _ _ _ _ Em Et Er Hz) as Hzb.
  pose proof (zr_nodup _ _ _ Hz) as Hnd. cbn [plug] in Hnd.
  destruct (focus _ _ _ _ _ He) as (C & zc & zl & zr & -> & -> & ->).
  apply zrepr_plug in Hzb.
  destruct (unlink C zc zl zr) as [[col C'] t'] eqn:Hu.
  pose proof (unlink_elems _ _ _ _ _ _ _ Hu) as Hel.
  pose proof (unlink_depth _ _ _ z v _ _ _ _ Hu) as Hdp.
  destruct (unlink_inv _ _ _ z v _ _ _ _ (conj Hbal Hn) Hc Hu) as [Hib Hir].
  destruct (erase_unlink_spec fuel sb C zc zl z v zr col C' t' Hzb)
    as (su & Eu & Hxu & Hfu); [|done|].
  { pose proof (height_plug C (T zc zl z v zr)) as Hp. cbn [height] in Hp. lia. }
  assert (∃ sf t'', (if is_black col then erase_fix_up fuel (rootp (terminal_ sb) t') su
                     else Some su) = Some sf
                    ∧ zrepr sf Top t'' ∧ elems t'' = elems (plug C' t')
                    ∧ rbt t'' ∧ rcolor t'' = BLACK ∧ same_fields su sf)
    as (sf & t'' & Ef & Hzf & Helf & Hrf & Hcf & Hff).
  { destruct col; cbn [is_black].
    - pose proof Hfu as (Etu & _).
      destruct (erase_fix_up_spec fuel su C' t' Hxu (Hib eq_refl))
        as (sf & t'' & Ef & ?); [..|exists sf, t''; by rewrite <- Etu].
      + intros _. lia.
      + intros _. lia.
    - destruct (Hir eq_refl) as [Hr1 Hc1]. exists su, (plug C' t').
      split_and!; [done|by apply (proj1 (zrepr_plug _ C' _)), Hxu|done|done|done|].
      apply same_fields_refl. }
  exists (free z (set_size (pred (size_ sf)) sf)), t''.
  assert (Ee : elems t'' = (cleft C ++ elems zl) ++ elems zr ++ cright C).
  { by rewrite Helf, Hel, <- !app_assoc. }
  destruct Hfu as (Etu & Esu & Ehu & Etlu). destruct Hff as (Etf & Esf & Ehf & Etlf).
  split_and!.
  - unfold erase_at, iter_eqb, end_. cbn [current].
    rewrite (proj2 (Pos.eqb_neq _ _) Hzt). rewrite Eb. cbn [mbind option_bind].
    rewrite Eu. cbn [mbind option_bind]. by rewrite Ef.
  - assert (Hzn : z ∉ addrs t'').
    { unfold addrs in *. rewrite Ee. rewrite He in Hnd.
      apply NoDup_cons in Hnd as [_ Hnd]. rewrite fmap_app, fmap_cons in Hnd.
      apply NoDup_app in Hnd as (_ & Hd1 & Hn2). apply NoDup_cons in Hn2 as [Hd2 _].
      rewrite fmap_app. intros [Hin|Hin]%elem_of_app; [|done].
      apply (Hd1 z Hin). by left. }
    destruct Hrf as [Hbf Hnf]. split.
    + apply zrepr_free; [|done|cbn; congruence].
      by eapply zrepr_ext; [..|exact Hzf].
    + apply bst_sorted. unfold values. rewrite Ee.
      apply (sorted_remove_mid _ _ z v). apply bst_sorted in Hb.
      unfold values in Hb. by rewrite He in Hb.
    + done.
    + done.
    + done.
    + unfold head_ok, addrs. cbn. rewrite Ee, Ehf, Ehu, Ehd. congruence.
    + unfold tail_ok, addrs. cbn. rewrite Ee, Etlf, Etlu, Etl. congruence.
    + cbn. rewrite Esf, Esu, Es, Hsz, Ee, He, !length_app. cbn [length].
      rewrite !length_app. lia.
  - done.
  - cbn. congruence.
Qed.

Lemma find_addr_h s t v fuel :
  wf s t → height t < fuel →
  find fuel v s = Some (mkIter (lookup_addr (terminal_ s) v t)).
Proof.
  intros Hw Hf. pose proof (wf_repr _ _ Hw) as Hz.
  unfold find. rewrite (zr_root _ _ _ Hz). cbn [plug].
  rewrite (find_loop_spec _ _ _ _ (terminal_ s));
    [done|apply (zr_sub _ _ _ Hz)|by apply wf_tm_notin|lia].
Qed.

Lemma find_elem_h s t p v fuel :
  wf s t → height t < fuel → (p, v) ∈ elems t → find fuel v s = Some (mkIter p).
Proof.
  intros Hw Hf Hin. rewrite (find_addr_h _ _ _ _ Hw Hf).
  by rewrite (lookup_addr_present _ _ _ p (wf_bst _ _ Hw) Hin).
Qed.

Lemma find_absent_h s t v fuel :
  wf s t → height t < fuel → v ∉ values t → find fuel v s = Some (end_ s).
Proof.
  intros Hw Hf Hv. rewrite (find_addr_h _ _ _ _ Hw Hf).
  by rewrite lookup_addr_absent.
Qed.

Lemma erase_present_h s t v fuel :
  wf s t → v ∈ values t → height t < fuel →
  ∃ s' t' L1 z L2, erase fuel v s = Some s' ∧ wf s' t'
                   ∧ elems t = L1 ++ (z, v) :: L2 ∧ elems t' = L1 ++ L2
                   ∧ terminal_ s' = terminal_ s.
Proof.
  intros Hw Hv Hf.
  apply list_elem_of_fmap in Hv as ([z v'] & -> & Hin). cbn [snd].
  destruct (list_elem_of_split _ _ Hin) as (L1 & L2 & He).
  destruct (erase_at_present_h s t L1 z v' L2 fuel Hw He) as (s' & t' & E1 & ?);
    [lia|].
  exists s', t', L1, z, L2. split_and?; try tauto.
  unfold erase. rewrite (find_elem_h _ _ _ _ _ Hw Hf Hin).
  cbn [mbind option_bind]. tauto.
Qed.

Lemma erase_absent_h s t v fuel :
  wf s t → v ∉ values t → height t < fuel → erase fuel v s = Some s.
Proof.
  intros Hw Hv Hf. unfold erase. rewrite (find_absent_h _ _ _ _ Hw Hf Hv).
  cbn [mbind option_bind]. apply erase_at_end.
Qed.

Lemma lower_bound_addr_h s t v fuel :
  wf s t → height t < fuel →
  lower_bound fuel v s = Some (mkIter (lb_addr v t (terminal_ s))).
Proof.
  intros Hw Hf. pose proof (wf_repr _ _ Hw) as Hz.
  unfold lower_bound. rewrite (zr_root _ _ _ Hz). cbn [plug].
  rewrite (lower_bound_loop_spec _ _ _ _ (terminal_ s));
    [done|apply (zr_sub _ _ _ Hz)|by apply wf_tm_notin|lia|apply Hw|by left].
Qed.

(** ** The height of a red-black tree *)

Lemma height_bh t :
  rbt t → height t ≤ 2 * bh t + (if is_red (rcolor t) then 1 else 0).
Proof.
  induction t as [|c l IHl p v r IHr]; [cbn; lia|].
  intros [(Hb & Hbl & Hbr) (Hc & Hnl & Hnr)].
  specialize (IHl (conj Hbl Hnl)). specialize (IHr (conj Hbr Hnr)).
  cbn [height bh rcolor]. destruct c; cbn [blk is_red].
  - destruct (is_red (rcolor l)), (is_red (rcolor r)); lia.
  - destruct (Hc eq_refl) as [Hl Hr]. rewrite Hl in IHl. rewrite Hr in IHr.
    cbn [is_red] in *. lia.
Qed.

Lemma size_bh t : balanced t → 2 ^ bh t ≤ length (elems t) + 1.
Proof.
  induction t as [|c l IHl p v r IHr]; [cbn; lia|].
  intros (Hb & Hbl & Hbr). specialize (IHl Hbl). specialize (IHr Hbr).
  cbn [bh elems]. rewrite length_app. cbn [length]. rewrite <- Hb in IHr.
  destruct c; cbn [blk].
  - rewrite Nat.add_1_r, Nat.pow_succ_r'. lia.
  - rewrite Nat.add_0_r. lia.
Qed.

Lemma wf_height s t : wf s t → height t ≤ 2 * Nat.log2 (S (size s)).
Proof.
  intros Hw. pose proof (height_bh t (conj (wf_balanced _ _ Hw) (wf_nored _ _ Hw))) as Hh.
  rewrite (wf_black _ _ Hw) in Hh. cbn [is_red] in Hh.
  pose proof (size_bh t (wf_balanced _ _ Hw)) as Hs.
  unfold size. rewrite (wf_size _ _ Hw).
  assert (bh t ≤ Nat.log2 (S (length (elems t)))); [|lia].
  rewrite <- (Nat.log2_pow2 (bh t)) by lia.
  apply Nat.log2_le_mono. lia.
Qed.

(** ** Nodes of the tree and cursors *)

Lemma focus_in_tree s C c l p v r :
  zrepr s C (T c l p v r) → in_tree s p.
Proof.
  revert c l p v r. induction C as [|c' q v' r' up IH|c' l' q v' up IH];
    intros c l p v r Hz.
  - pose proof (zr_root _ _ _ Hz) as Hr. cbn in Hr. rewrite <- Hr.
    apply in_tree_root. rewrite Hr.
    pose proof (zr_nodup _ _ _ Hz) as Hn. cbn [plug] in Hn.
    apply NoDup_cons in Hn as [Hn _]. rewrite addrs_T in Hn.
    intros E1. apply Hn. rewrite <- E1. apply elem_of_app. right. by left.
  - pose proof (wf_tm_notin s (plug (CL c' q v' r' up) (T c l p v r))
                  (proj1 (zrepr_plug _ _ _) Hz)) as Htm.
    apply (proj1 (zrepr_up_l _ _ _ _ _ _ _)) in Hz. pose proof (IH _ _ _ _ _ Hz) as Hq.
    pose proof (zr_sub _ _ _ Hz) as (Hc & _). cbn [rootp] in Hc.
    pose proof (in_tree_left s q Hq) as Hl.
    rewrite (lookup_total_correct _ _ _ Hc) in Hl. cbn [left] in Hl. apply Hl.
    intros ->. apply Htm. unfold addrs. rewrite elems_plug. cbn [elems].
    rewrite !fmap_app, fmap_cons. apply elem_of_app. right. apply elem_of_app.
    left. apply elem_of_app. right. by left.
  - pose proof (wf_tm_notin s (plug (CR c' l' q v' up) (T c l p v r))
                  (proj1 (zrepr_plug _ _ _) Hz)) as Htm.
    apply (proj1 (zrepr_up_r _ _ _ _ _ _ _)) in Hz. pose proof (IH _ _ _ _ _ Hz) as Hq.
    pose proof (zr_sub _ _ _ Hz) as (Hc & _). cbn [rootp] in Hc.
    pose proof (in_tree_right s q Hq) as Hl.
    rewrite (lookup_total_correct _ _ _ Hc) in Hl. cbn [right] in Hl. apply Hl.
    intros ->. apply Htm. unfold addrs. rewrite elems_plug. cbn [elems].
    rewrite !fmap_app, fmap_cons. apply elem_of_app. right. apply elem_of_app.
    left. apply elem_of_app. right. by left.
Qed.

Lemma in_tree_iff s t p : zrepr s Top t → in_tree s p ↔ p ∈ addrs t.
Proof.
  intros Hz. split; [by apply in_tree_addr|].
  intros Hp. destruct (addr_focus _ _ Hp) as (C & c & l & v & r & ->).
  apply zrepr_plug in Hz. by eapply focus_in_tree.
Qed.

Lemma in_tree_elem s t p :
  zrepr s Top t → in_tree s p → (p, data (s.[p])) ∈ elems t.
Proof.
  intros Hz Hin. apply (in_tree_addr _ _ _ Hz) in Hin.
  destruct (addr_elem _ _ Hin) as (v & Hv). by rewrite (wf_data _ _ _ _ Hz Hv).
Qed.

Lemma elem_in_tree s t p v :
  zrepr s Top t → (p, v) ∈ elems t → in_tree s p ∧ data (s.[p]) = v.
Proof.
  intros Hz Hin. split; [|by eapply wf_data].
  apply (in_tree_iff _ t _ Hz). by apply (list_elem_of_fmap_2 fst _ (p, v)).
Qed.

(** ** The effect of one [insert] and of one [erase] *)

Lemma insert_effect s t v fuel :
  wf s t → height t < fuel →
  ∃ s1 t1, insert fuel v s = Some s1 ∧ wf s1 t1
    ∧ (∀ q, q ∈ elems t → q ∈ elems t1)
    ∧ (∃ z, (z, v) ∈ elems t1)
    ∧ (∀ x, x ∈ values t1 ↔ x = v ∨ x ∈ values t)
    ∧ length (elems t1)
      = (if bool_decide (v ∈ values t) then length (elems t) else S (length (elems t))).
Proof.
  intros Hw Hf. destruct (decide (v ∈ values t)) as [Hv|Hv].
  - exists s, t. rewrite bool_decide_eq_true_2 by done.
    split_and!; [by apply (insert_dup_h s t)|done|done| | |done].
    + apply list_elem_of_fmap in Hv as ([z v'] & -> & Hin). by exists z.
    + intros x. split; [auto|]. by intros [->|].
  - destruct (insert_new_h s t v fuel Hw Hv Hf)
      as (s1 & t1 & L1 & L2 & z & Ei & Hw1 & He & He1 & _).
    exists s1, t1. rewrite bool_decide_eq_false_2 by done.
    split_and!; [done|done|..].
    + intros q. rewrite He, He1, !elem_of_app, elem_of_cons. tauto.
    + exists z. rewrite He1. apply elem_of_app. right. by left.
    + intros x. unfold values. rewrite He, He1, !fmap_app, fmap_cons.
      rewrite !elem_of_app, elem_of_cons. cbn [snd]. tauto.
    + rewrite He, He1, !length_app. cbn. lia.
Qed.

Lemma erase_effect s t v fuel :
  wf s t → height t < fuel →
  ∃ s1 t1, erase fuel v s = Some s1 ∧ wf s1 t1
    ∧ (∀ p w, (p, w) ∈ elems t → w ≠ v → (p, w) ∈ elems t1)
    ∧ (∀ x, x ∈ values t1 ↔ x ≠ v ∧ x ∈ values t)
    ∧ length (elems t1)
      = (if bool_decide (v ∈ values t) then pred (length (elems t)) else length (elems t)).
Proof.
  intros Hw Hf. destruct (decide (v ∈ values t)) as [Hv|Hv].
  - destruct (erase_present_h s t v fuel Hw Hv Hf)
      as (s1 & t1 & L1 & z & L2 & Ee & Hw1 & He & He1 & _).
    exists s1, t1. rewrite bool_decide_eq_true_2 by done.
    pose proof (wf_sorted _ _ Hw) as Hs. unfold values in Hs. rewrite He in Hs.
    pose proof (sorted_notin_mid _ _ _ _ Hs) as Hn.
    split_and!; [done|done|..].
    + intros p w. rewrite He, He1, !elem_of_app, elem_of_cons.
      intros [?|[?|?]] ?; [tauto|simplify_eq|tauto].
    + intros x. unfold values. rewrite He, He1.
      rewrite !fmap_app, fmap_cons. cbn [snd].
      rewrite fmap_app in Hn. rewrite !elem_of_app, elem_of_cons.
      rewrite elem_of_app in Hn. split; [|tauto].
      intros Hx. split; [intros ->; tauto|tauto].
    + rewrite He, He1, !length_app. cbn. lia.
  - exists s, t. rewrite bool_decide_eq_false_2 by done.
    split_and!; [by apply (erase_absent_h s t)|done|done| |done].
    intros x. split; [|tauto]. intros Hx. split; [by intros ->|done].
Qed.

(** ** Construction from a sequence and copy *)

Lemma sorted_NoDup (l : list Z) : StronglySorted Z.lt l → NoDup l.
Proof.
  induction l as [|a l IH]; [constructor|].
  rewrite StronglySorted_cons, Forall_forall. intros [Ha Hs].
  constructor; [|by apply IH]. intros Hin. specialize (Ha a Hin). lia.
Qed.

Lemma insert_range_wf l fuel s t :
  wf s t → length (elems t) + length l < fuel →
  ∃ s' t', insert_range fuel l s = Some s' ∧ wf s' t'
    ∧ (∀ x, x ∈ values t' ↔ x ∈ l ∨ x ∈ values t)
    ∧ length (elems t') ≤ length (elems t) + length l.
Proof.
  revert s t. induction l as [|v l IH]; intros s t Hw Hf.
  - exists s, t. cbn. split_and!; [done|done| |lia].
    intros x. rewrite elem_of_nil. tauto.
  - cbn [length] in Hf. pose proof (height_le_length t) as Hh.
    destruct (insert_effect s t v fuel Hw) as (s1 & t1 & E1 & Hw1 & _ & _ & Hm1 & Hl1);
      [lia|].
    assert (length (elems t1) ≤ S (length (elems t))) as Hl1'.
    { rewrite Hl1. destruct (bool_decide _); lia. }
    destruct (IH s1 t1 Hw1) as (s' & t' & E2 & Hw' & Hm' & Hl'); [lia|].
    exists s', t'. cbn [insert_range]. rewrite E1. cbn [mbind option_bind].
    split_and!; [done|done| |cbn [length]; lia].
    intros x. rewrite Hm', Hm1, elem_of_cons. tauto.
Qed.

Lemma from_list_wf l fuel :
  length l < fuel →
  ∃ s t, from_list fuel l = Some s ∧ wf s t
         ∧ (∀ x, x ∈ values t ↔ x ∈ l) ∧ length (elems t) ≤ length l.
Proof.
  intros Hf. destruct (insert_range_wf l fuel new_set E wf_new_set)
    as (s & t & E1 & Hw & Hm & Hl); [cbn; lia|].
  exists s, t. split_and!; [done|done| |cbn in Hl; lia].
  intros x. rewrite Hm. cbn. rewrite elem_of_nil. tauto.
Qed.

(** The loop of the copy constructor, with [L1] already copied and the
    cursor on the first element of [L2]. *)
Lemma copy_loop_wf o t L2 : ∀ L1 n fuel s' t',
  wf o t → elems t = L1 ++ L2 → length (elems t) < fuel → length L2 < n →
  wf s' t' → values t' = L1.*2 →
  ∃ s2 t2, copy_loop n fuel o (mkIter (hd (terminal_ o) L2.*1)) s' = Some s2
           ∧ wf s2 t2 ∧ values t2 = values t.
Proof.
  induction L2 as [|[p v] L2 IH]; intros L1 n fuel s' t' Ho He Hf Hn Hw Hv.
  - destruct n as [|n]; [cbn in Hn; lia|]. cbn [copy_loop fmap list_fmap hd].
    unfold iter_eqb, end_. cbn [current]. rewrite Pos.eqb_refl. cbn [negb].
    exists s', t'. split_and!; [done|done|].
    unfold values in *. by rewrite Hv, He, app_nil_r.
  - destruct n as [|n]; [cbn in Hn; lia|]. cbn [length] in Hn.
    pose proof (wf_repr _ _ Ho) as Hz.
    destruct (elem_cell _ _ _ _ _ _ Hz He) as [Hne Hd].
    cbn [copy_loop]. rewrite fmap_cons. cbn [hd fst].
    unfold iter_eqb, end_, deref. cbn [current].
    rewrite (proj2 (Pos.eqb_neq _ _) Hne). cbn [negb]. rewrite Hd.
    pose proof (wf_sorted _ _ Ho) as Hs. unfold values in Hs. rewrite He in Hs.
    destruct (sorted_mid _ _ _ _ Hs) as [Hlt Hgt].
    assert (Hlen : length (elems t') ≤ length (elems t)).
    { rewrite <- (length_fmap snd (elems t')). fold (values t'). rewrite Hv.
      rewrite He, length_fmap, length_app. lia. }
    pose proof (height_le_length t') as Hh'.
    destruct (insert_effect s' t' v fuel Hw) as (s1 & t1 & E1 & Hw1 & _ & _ & Hm1 & _);
      [lia|].
    rewrite E1. cbn [mbind option_bind].
    unfold incr. cbn [current].
    pose proof (height_le_length t) as Hh.
    rewrite (next_spec _ _ _ _ _ _ fuel Hz He) by lia.
    cbn [fmap option_fmap option_map mbind option_bind].
    apply (IH (L1 ++ [(p, v)]) n fuel s1 t1); [done|by rewrite <- app_assoc|done|lia|done|].
    apply sorted_ext; [by apply wf_sorted in Hw1| |].
    + rewrite fmap_app, fmap_cons in Hs.
      rewrite fmap_app, fmap_cons, fmap_nil. cbn [snd] in *.
      apply StronglySorted_app in Hs as (H12 & H1 & H2).
      apply StronglySorted_app. split_and!; [|done|repeat constructor].
      intros x1 x2 Hx1 Hx2. apply list_elem_of_singleton in Hx2 as ->.
      apply (H12 x1 v Hx1). by left.
    + intros x. rewrite Hm1, Hv, fmap_app, fmap_cons, fmap_nil, elem_of_app.
      rewrite list_elem_of_singleton. cbn [snd]. tauto.
Qed.

Lemma copy_wf o t fuel :
  wf o t → length (elems t) < fuel →
  ∃ s2 t2, copy fuel o = Some s2 ∧ wf s2 t2 ∧ values t2 = values t.
Proof.
  intros Ho Hf. unfold copy, begin_. rewrite (wf_head _ _ Ho). unfold addrs.
  apply (copy_loop_wf o t (elems t) [] fuel fuel new_set E);
    [done|done|done|done|apply wf_new_set|done].
Qed.

(** ** The destructor *)

Lemma clear_loop_wf L : ∀ n fuel s t,
  wf s t → elems t = L → length L ≤ fuel → length L < n →
  ∃ s', clear_loop n fuel s = Some s' ∧ wf s' E ∧ terminal_ s' = terminal_ s.
Proof.
  induction L as [|[p v] L IH]; intros n fuel s t Hw He Hf Hn.
  - destruct n as [|n]; [cbn in Hn; lia|]. apply elems_nil in He as ->.
    exists s. cbn [clear_loop]. rewrite (proj2 (wf_empty _ _ Hw)) by done. done.
  - destruct n as [|n]; [cbn in Hn; lia|]. cbn [length] in Hn, Hf.
    cbn [clear_loop].
    assert (empty s = false) as ->.
    { destruct (empty s) eqn:Ee; [|done]. apply (wf_empty _ _ Hw) in Ee.
      subst t. done. }
    cbn [negb]. unfold begin_. rewrite (wf_head _ _ Hw). unfold addrs.
    rewrite He. cbn [fmap list_fmap hd fst].
    pose proof (height_le_length t) as Hh. rewrite He in Hh. cbn [length] in Hh.
    destruct (erase_at_present_h s t [] p v L fuel Hw He)
      as (s1 & t1 & E1 & Hw1 & He1 & Et1); [lia|].
    rewrite E1. cbn [mbind option_bind].
    destruct (IH n fuel s1 t1 Hw1 He1) as (s' & E2 & Hw' & Et'); [lia|lia|].
    exists s'. split_and!; [done|done|congruence].
Qed.

(** ** Iteration from [lower_bound] *)

Lemma iterate_from_end s n fuel : 0 < n → iterate_from n fuel s (end_ s) = Some [].
Proof.
  destruct n as [|n]; [lia|]. intros _. cbn [iterate_from].
  unfold iter_eqb. by rewrite Pos.eqb_refl.
Qed.

Lemma lower_bound_iterate_wf s t v fuel :
  wf s t → length (elems t) < fuel →
  ∃ it l1 r, lower_bound fuel v s = Some it
    ∧ iterate_from fuel fuel s it = Some r
    ∧ values t = l1 ++ r
    ∧ (∀ x, x ∈ l1 → (x < v)%Z) ∧ (∀ x, x ∈ r → (v ≤ x)%Z).
Proof.
  intros Hw Hf. pose proof (wf_repr _ _ Hw) as Hz.
  pose proof (height_le_length t) as Hh.
  pose proof (wf_sorted _ _ Hw) as Hs.
  rewrite (lower_bound_addr _ _ _ _ Hw Hf).
  destruct (least_above v (elems t)) as [Hall|(p & x & Hin & Hx & Hmin)].
  - rewrite lb_addr_none by done. exists (end_ s), (values t), [].
    split_and!; [done|apply iterate_from_end; lia|by rewrite app_nil_r|done|].
    intros x Hx. by apply elem_of_nil in Hx.
  - rewrite (lb_addr_some v t _ p x (wf_bst _ _ Hw) Hin Hx Hmin).
    destruct (list_elem_of_split _ _ Hin) as (L1 & L2 & He).
    unfold values in *. rewrite He in Hs.
    destruct (sorted_mid _ _ _ _ Hs) as [Hlt Hgt].
    exists (mkIter p), L1.*2, (x :: L2.*2). split_and!; [done| | |..].
    + apply (iterate_from_spec s t fuel fuel L1 p x L2 Hz He); [lia|].
      rewrite He, length_app in Hf. cbn in Hf. lia.
    + by rewrite He, fmap_app, fmap_cons.
    + intros y Hy. destruct (Z.lt_ge_cases y v) as [|Hge]; [done|].
      assert (x ≤ y)%Z.
      { apply Hmin; [|lia]. rewrite He, fmap_app. apply elem_of_app. by left. }
      specialize (Hlt y Hy). lia.
    + intros y [->|Hy]%elem_of_cons; [done|]. specialize (Hgt y Hy). lia.
Qed.

(** ** States reached from the empty set, with the fuel they need *)

Lemma reach_wf_h ops f :
  length ops < f →
  ∃ s t, run f ops new_set = Some s ∧ wf s t ∧ length (elems t) ≤ length ops.
Proof.
  intros Hf. destruct (reach_wf ops f Hf) as (s & t & E1 & Hw & Hl & _).
  by exists s, t.
Qed.

Lemma erase_at_released fuel it s s1 :
  current it ≠ terminal_ s → erase_at fuel it s = Some s1 →
  mem s1 !! current it = None.
Proof.
  intros Hne. unfold erase_at, iter_eqb, end_. cbn [current].
  rewrite (proj2 (Pos.eqb_neq _ _) Hne).
  destruct (erase_bounds fuel (current it) s) as [sb|]; [|done]. cbn [mbind option_bind].
  destruct (erase_unlink fuel (current it) sb) as [[[c x] su]|]; [|done].
  cbn [mbind option_bind].
  destruct (if is_black c then erase_fix_up fuel x su else Some su) as [sf|]; [|done].
  cbn [mbind option_bind]. intros [= <-]. cbn. apply lookup_delete_eq.
Qed.

(** Neither [insert] nor [erase] assigns [terminal_]. *)
Lemma insert_terminal s t v fuel :
  wf s t → height t < fuel →
  ∃ s1, insert fuel v s = Some s1 ∧ terminal_ s1 = terminal_ s.
Proof.
  intros Hw Hf. destruct (decide (v ∈ values t)) as [Hv|Hv].
  - exists s. by rewrite (insert_dup_h s t).
  - destruct (insert_new_h s t v fuel Hw Hv Hf) as (s1 & ? & ? & ? & ? & ? & ? & ? & ? & ? & ? & ?).
    by exists s1.
Qed.

Lemma erase_terminal s t v fuel :
  wf s t → height t < fuel →
  ∃ s1, erase fuel v s = Some s1 ∧ terminal_ s1 = terminal_ s.
Proof.
  intros Hw Hf. destruct (decide (v ∈ values t)) as [Hv|Hv].
  - destruct (erase_present_h s t v fuel Hw Hv Hf) as (s1 & ? & ? & ? & ? & ? & ? & ? & ? & ?).
    by exists s1.
  - exists s. by rewrite (erase_absent_h s t).
Qed.

(** * The cells of the store

    The code writes only to cells that are allocated: each loop round and
    each structural primitive leaves the set of allocated addresses as it
    was, [insert] adds the one cell it allocates and [erase] removes the
    one it releases. *)

(** The allocated addresses after a run of stores to allocated cells. *)
Ltac dsolve :=
  rsimpl;
  repeat (rewrite dom_insert_lookup_L by (lk; first [by eexists | eassumption]));
  first [reflexivity | congruence].

Lemma set_color_dom p c s :
  p ∈ dom (mem s) → dom (mem (set_color p c s)) = dom (mem s).
Proof.
  intros Hp. destruct s as [h tm rt sz hd tl]. rsimpl.
  apply dom_insert_lookup_L. by apply elem_of_dom.
Qed.

Lemma left_rotate_dom s C cx a x xv cy b y yv c :
  zrepr s C (T cx a x xv (T cy b y yv c)) →
  dom (mem (left_rotate x s)) = dom (mem s).
Proof.
  intros H. destruct s as [h tm rt sz hd tl].
  destruct C as [|pc p pv pr up|pc pl p pv up], b as [|bc bl pb bv br];
    zopen H; cbv beta delta [left_rotate]; hs; dsolve.
Qed.

Lemma right_rotate_dom s C cx a x xv cy b y yv c :
  zrepr s C (T cy (T cx a x xv b) y yv c) →
  dom (mem (right_rotate y s)) = dom (mem s).
Proof.
  intros H. destruct s as [h tm rt sz hd tl].
  destruct C as [|pc p pv pr up|pc pl p pv up], b as [|bc bl pb bv br];
    zopen H; cbv beta delta [right_rotate]; hs; dsolve.
Qed.

(** A rotation together with the cells it leaves allocated. *)
Lemma left_rotate_own s C cx a x xv cy b y yv c (D : gset ptr) :
  zrepr s C (T cx a x xv (T cy b y yv c)) ∧ dom (mem s) = D →
  zrepr (left_rotate x s) C (T cy (T cx a x xv b) y yv c)
  ∧ dom (mem (left_rotate x s)) = D.
Proof.
  intros [Hz <-]. split; [by apply left_rotate_zrepr|by eapply left_rotate_dom].
Qed.

Lemma right_rotate_own s C cx a x xv cy b y yv c (D : gset ptr) :
  zrepr s C (T cy (T cx a x xv b) y yv c) ∧ dom (mem s) = D →
  zrepr (right_rotate y s) C (T cx a x xv (T cy b y yv c))
  ∧ dom (mem (right_rotate y s)) = D.
Proof.
  intros [Hz <-]. split; [by apply right_rotate_zrepr|by eapply right_rotate_dom].
Qed.

Lemma and_mid (P Q R : Prop) : Q → P ∧ R → P ∧ Q ∧ R.
Proof. tauto. Qed.

Lemma zrepr_up_l_own s c p v r C l (P : Prop) :
  zrepr s C (T c l p v r) ∧ P → zrepr s (CL c p v r C) l ∧ P.
Proof. intros [H ?]. split; [by apply zrepr_up_l|done]. Qed.

Lemma zrepr_up_r_own s c p v l C r (P : Prop) :
  zrepr s C (T c l p v r) ∧ P → zrepr s (CR c l p v C) r ∧ P.
Proof. intros [H ?]. split; [by apply zrepr_up_r|done]. Qed.

Ltac rot_own :=
  lazymatch goal with
  | |- zrepr (left_rotate _ _) _ _ ∧ _ => apply left_rotate_own
  | |- zrepr (right_rotate _ _) _ _ ∧ _ => apply right_rotate_own
  end.

Ltac zrefocus_up_own :=
  lazymatch goal with
  | |- zrepr _ (CL _ _ _ _ _) _ ∧ _ => apply zrepr_up_l_own
  | |- zrepr _ (CR _ _ _ _ _) _ ∧ _ => apply zrepr_up_r_own
  end.

Ltac zfinish_own :=
  eexists; split; [reflexivity|split_and!; [|done|dsolve]].

Ltac zrot_last_own :=
  zeta1; eexists; split; [reflexivity|];
  apply and_mid; [rot_fields|];
  zrefocus_up_own; rot_own; split; [zsolve|dsolve].

(** A rotation met during symbolic execution, keeping track of the
    allocated addresses. *)
Ltac zrot_own C t :=
  match goal with
  | |- context [?rot ?x (mkSet ?h ?tm ?rt ?sz ?hd ?tl)] =>
      let lem := lazymatch rot with
                 | left_rotate => constr:(left_rotate_full)
                 | right_rotate => constr:(right_rotate_full)
                 end in
      let dlem := lazymatch rot with
                  | left_rotate => constr:(left_rotate_dom)
                  | right_rotate => constr:(right_rotate_dom)
                  end in
      let flds := lazymatch rot with
                  | left_rotate => constr:(left_rotate_fields)
                  | right_rotate => constr:(right_rotate_fields)
                  end in
      let Hz := fresh "Hz" in
      let Hk := fresh "Hk" in
      let Hf := fresh "Hf" in
      let Hd := fresh "Hdom" in
      let E := fresh "E" in
      let s1 := fresh "s" in
      assert (Hz : zrepr (mkSet h tm rt sz hd tl) C t) by zsolve;
      pose proof (dlem _ _ _ _ _ _ _ _ _ _ _ Hz) as Hd;
      cbn [mem] in Hd;
      repeat (rewrite dom_insert_lookup_L in Hd
                by (lk; first [by eexists | eassumption]));
      apply lem in Hz; destruct Hz as [Hz Hk];
      cbn [terminal_ mem] in Hk;
      match type of Hk with
      | _ = ?rhs =>
          let n := fresh "n" in
          evar (n : Node);
          let Hn := fresh "Hn" in
          assert (Hn : rhs = n) by (hs; subst n; reflexivity);
          subst n; rewrite Hn in Hk; clear Hn
      end;
      pose proof (flds x (mkSet h tm rt sz hd tl)) as Hf;
      remember (rot x (mkSet h tm rt sz hd tl)) as s1 eqn:E; clear E;
      destruct s1 as [? ? ? ? ? ?];
      unfold same_fields in Hf; cbn [terminal_ size_ head_ tail_] in Hf;
      destruct Hf as (-> & -> & -> & ->);
      cbn [mem] in Hk, Hd;
      zopen Hz;
      match goal with
      | Hs : ?h1 !! ?tm = Some _ |- _ =>
          match type of Hk with
          | h1 !!! tm = _ =>
              rewrite (lookup_total_correct _ _ _ Hs) in Hk;
              injection Hk as -> ->
          end
      end
  end.

Lemma ifu_step_own f s C c l x v r C' t' :
  zrepr s C (T c l x v r) →
  ifu_step C (T c l x v r) = Some (C', t') →
  ∃ s', insert_fix_up (S f) x s = insert_fix_up f (rootp (terminal_ s) t') s'
        ∧ zrepr s' C' t' ∧ same_fields s s' ∧ dom (mem s') = dom (mem s).
Proof.
  intros Hz Hs. destruct s as [h tm rt sz hd tl].
  destruct C as [|[] p pv sib up|[] sib p pv up]; try done;
    (destruct up as [|gc g gv unc up|gc unc g gv up]; [done|..]);
    destruct unc as [|[] ul y uv ur]; simpl in Hs; simplify_eq;
    zopen Hz; ifu_open f; hs.
  - zrot_last_own.
  - zrot_last_own.
  - zfinish_own. zsolve.
  - zrot_own (CR gc E g gv up) (T RED (T c l x v r) p pv sib). hs. zrot_last_own.
  - zrot_own (CR gc (T BLACK ul y uv ur) g gv up) (T RED (T c l x v r) p pv sib).
    hs. zrot_last_own.
  - zfinish_own. zsolve.
  - zrot_own (CL gc g gv E up) (T RED sib p pv (T c l x v r)). hs. zrot_last_own.
  - zrot_own (CL gc g gv (T BLACK ul y uv ur) up) (T RED sib p pv (T c l x v r)).
    hs. zrot_last_own.
  - zfinish_own. zsolve.
  - zrot_last_own.
  - zrot_last_own.
  - zfinish_own. zsolve.
Qed.

Lemma root_allocated s C t : zrepr s C t → root_ s ∈ dom (mem s).
Proof.
  intros Hz. apply zrepr_plug in Hz. apply (zrepr_dom _ _ _ _ Hz).
  rewrite (zr_root _ _ _ Hz). cbn [plug].
  destruct (plug C t) as [|c l p v r]; cbn [rootp]; [by left|].
  right. rewrite addrs_T. apply elem_of_app. right. by left.
Qed.

(** The loop of [insert_fix_up] leaves the allocated addresses as they are. *)
Lemma insert_fix_up_own f s C t :
  zrepr s C t → ifu_inv C t → cdepth C < f →
  ∃ s', insert_fix_up f (rootp (terminal_ s) t) s = Some s'
        ∧ dom (mem s') = dom (mem s).
Proof.
  revert s C t. induction f as [|f IH]; intros s C t Hz Hi Hf; [lia|].
  pose proof Hi as Hi'. destruct t as [|c l x v r]; [done|]. cbn [rootp].
  destruct (top_red C) eqn:Ht.
  - destruct (ifu_progress _ _ Hi Ht) as [[C' t'] Hs].
    destruct (ifu_step_inv _ _ _ _ Hi Hs) as (Hi1 & He & Hd).
    destruct (ifu_step_own f s C c l x v r C' t' Hz Hs) as (s1 & E1 & Hz1 & Hf1 & Hd1).
    destruct (IH s1 C' t' Hz1 Hi1) as (s' & E2 & Hd2); [lia|].
    exists s'. rewrite E1. pose proof Hf1 as (Et & _). rewrite <- Et.
    split; [done|congruence].
  - destruct (ifu_exit_sim f s C c l x v r Hz Ht) as [E Hz'].
    eexists. split; [done|]. apply set_color_dom. by eapply root_allocated.
Qed.

(** The statements of [insert] that allocate and link the new node add its
    cell and no other. *)
Lemma insert_link_dom v y s :
  terminal_ s ∈ dom (mem s) → y ∈ dom (mem s) →
  dom (mem (insert_link v y s).2) = {[fresh (dom (mem s))]} ∪ dom (mem s).
Proof.
  intros Ht Hy. destruct s as [h tm rt sz hd tl]. unfold insert_link, alloc.
  cbn [mem terminal_ head_ tail_ store fst snd] in *. cbv zeta.
  assert (Hy' : is_Some (<[fresh (dom h) := mkNode v RED tm tm y]> h !! y)).
  { destruct (decide (y = fresh (dom h))) as [->|Hne].
    - rewrite lookup_insert_eq. by eexists.
    - rewrite lookup_insert_ne by done. by apply elem_of_dom. }
  repeat (match goal with |- context [if ?b then _ else _] => destruct b end);
    rsimpl; rewrite ?(dom_insert_lookup_L _ y) by done; by rewrite dom_insert_L.
Qed.

Lemma insert_dom s t v fuel s' :
  wf s t → v ∉ values t → height t < fuel → insert fuel v s = Some s' →
  dom (mem s') = {[fresh (dom (mem s))]} ∪ dom (mem s).
Proof.
  intros [Hz Hb Hc Hn Hbal Hh Htl Hsz] Hv Hf.
  pose proof (wf_tm_notin _ _ Hz) as Htm.
  destruct (insert_descend_attach (mem s) (terminal_ s) v fuel t Top)
    as (C & Ed & Ep & Hd & Hlt & Hgt);
    [apply (zr_sub _ _ _ Hz)|done|done|lia|done|by intros ? ?%elem_of_nil..|].
  simpl in Ep, Ed, Hd. subst t.
  unfold insert. rewrite (zr_root _ _ _ Hz). cbn [plug]. rewrite Ed.
  pose proof (proj2 (zrepr_plug s C E) Hz) as HzC.
  pose proof (insert_link_zrepr s C v HzC (link_ord_of _ _ Hlt Hgt)) as Hz1.
  assert (Hdl : dom (mem (insert_link v (cparent (terminal_ s) C) s).2)
                = {[fresh (dom (mem s))]} ∪ dom (mem s)).
  { apply insert_link_dom; apply (zrepr_dom _ _ _ _ HzC); [by left|].
    destruct C as [|c p pv r up|c l p pv up]; cbn [cparent]; [by left|right..];
      unfold addrs; rewrite elems_plug; cbn [elems cleft cright];
      rewrite !fmap_app, ?fmap_cons; set_solver. }
  destruct (insert_link_fields v (cparent (terminal_ s) C) s)
    as (E1 & Et1 & _).
  destruct (insert_link v (cparent (terminal_ s) C) s) as [z s1].
  cbn [fst snd] in *. subst z.
  destruct (plug_accepts C E) as [_ Ha]; [done|done|].
  destruct (insert_fix_up_own fuel s1 C (T RED E (fresh (dom (mem s))) v E) Hz1)
    as (s2 & Ef & Hd2); [unfold ifu_inv, rbt; simpl in *; tauto|lia|].
  rewrite Et1 in Ef. cbn [rootp] in Ef. rewrite Ef. intros [= <-]. congruence.
Qed.

(** ** Removal *)

Lemma efu_finish_own f s0 s C c l p v r :
  zrepr s C (T c l p v r) ∧ dom (mem s) = dom (mem s0) → same_fields s0 s →
  ∃ s', erase_fix_up f (root_ s) s
        = erase_fix_up f (rootp (terminal_ s0) (plug C (T c l p v r))) s'
        ∧ xrepr s' Top (plug C (T c l p v r)) ∧ same_fields s0 s'
        ∧ dom (mem s') = dom (mem s0).
Proof.
  intros [Hz Hd] Hf. exists s. apply zrepr_plug in Hz.
  pose proof (zr_root _ _ _ Hz) as Hr. pose proof Hf as (Et & _).
  rewrite <- Et. split_and!; [by rewrite Hr| |done|done].
  split; [done|]. destruct (plug_T C c l p v r) as (c' & l' & x' & v' & r' & E).
  rewrite E in *. cbn [rootp cparent]. by eapply root_parent_top.
Qed.

Ltac efu_case2_own :=
  eexists; split; [reflexivity|split_and!; [split; [zsolve|hs; reflexivity]|done|dsolve]].

Ltac efu_last_own :=
  zeta1;
  lazymatch goal with
  | |- ∃ s', erase_fix_up ?f (root_ ?s) ?s
             = erase_fix_up ?f (rootp _ (plug ?C (T ?c ?l ?p ?v ?r))) s'
             ∧ _ ∧ same_fields ?s0 s' ∧ _ =>
      apply (efu_finish_own f s0 s C c l p v r);
      [rot_own; split; [zsolve|dsolve] | rot_fields]
  end.

Lemma efu_step_own f s C t C' t' :
  xrepr s C t → rcolor t = BLACK →
  efu_step C t = Some (C', t') →
  ∃ s', erase_fix_up (S f) (rootp (terminal_ s) t) s
        = erase_fix_up f (rootp (terminal_ s) t') s'
        ∧ xrepr s' C' t' ∧ same_fields s s' ∧ dom (mem s') = dom (mem s).
Proof.
  intros [Hz Hp] Hc Hs. destruct s as [h tm rt sz hd tl]. unfold efu_step in Hs.
  cbn [terminal_ mem] in Hp.
  destruct C as [|pc p pv sib up|pc sib p pv up]; [done|..];
    (destruct sib as [|wc wl w wv wr]; [done|]); destruct wc;
    cbn [efu_red mbind option_bind] in Hs.
  - cbn [efu_black] in Hs.
    destruct (rcolor wl) eqn:Hwl, (rcolor wr) eqn:Hwr;
      cbn [is_black andb] in Hs.
    + simplify_eq. efu_start Hz Hp f. efu_case2_own.
    + red_T Hwr. simplify_eq. efu_start Hz Hp f. efu_last_own.
    + red_T Hwl. simplify_eq. efu_start Hz Hp f.
      zrot_own (CR pc t p pv up) (T RED (T BLACK l p0 v r) w wv wr).
      zcolors. zparent. hs. efu_last_own.
    + red_T Hwr. simplify_eq. efu_start Hz Hp f. efu_last_own.
  - destruct wl as [|nc nl n nv nr]; [done|]. cbn [efu_black] in Hs.
    destruct (rcolor nl) eqn:Hnl, (rcolor nr) eqn:Hnr;
      cbn [is_black andb] in Hs.
    + simplify_eq. efu_start Hz Hp f.
      zrot_own up (T RED t p pv (T BLACK (T nc nl n nv nr) w wv wr)).
      zcolors. zparent. hs. efu_case2_own.
    + red_T Hnr. simplify_eq. efu_start Hz Hp f.
      zrot_own up (T RED t p pv (T BLACK (T nc nl n nv (T RED l p0 v r)) w wv wr)).
      zcolors. zparent. hs. efu_last_own.
    + red_T Hnl. simplify_eq. efu_start Hz Hp f.
      zrot_own up (T RED t p pv (T BLACK (T nc (T RED l p0 v r) n nv nr) w wv wr)).
      zcolors. zparent. hs.
      zrot_own (CR RED t p pv (CL BLACK w wv wr up))
               (T RED (T BLACK l p0 v r) n nv nr).
      zcolors. zparent. hs. efu_last_own.
    + red_T Hnr. simplify_eq. efu_start Hz Hp f.
      zrot_own up (T RED t p pv (T BLACK (T nc nl n nv (T RED l p0 v r)) w wv wr)).
      zcolors. zparent. hs. efu_last_own.
  - cbn [efu_black] in Hs.
    destruct (rcolor wr) eqn:Hwr, (rcolor wl) eqn:Hwl;
      cbn [is_black andb] in Hs.
    + simplify_eq. efu_start Hz Hp f. efu_case2_own.
    + red_T Hwl. simplify_eq. efu_start Hz Hp f. efu_last_own.
    + red_T Hwr. simplify_eq. efu_start Hz Hp f.
      zrot_own (CL pc p pv t up) (T RED wl w wv (T BLACK l p0 v r)).
      zcolors. zparent. hs. efu_last_own.
    + red_T Hwl. simplify_eq. efu_start Hz Hp f. efu_last_own.
  - destruct wr as [|nc nl n nv nr]; [done|]. cbn [efu_black] in Hs.
    destruct (rcolor nr) eqn:Hnr, (rcolor nl) eqn:Hnl;
      cbn [is_black andb] in Hs.
    + simplify_eq. efu_start Hz Hp f.
      zrot_own up (T RED (T BLACK wl w wv (T nc nl n nv nr)) p pv t).
      zcolors. zparent. hs. efu_case2_own.
    + red_T Hnl. simplify_eq. efu_start Hz Hp f.
      zrot_own up (T RED (T BLACK wl w wv (T nc (T RED l p0 v r) n nv nr)) p pv t).
      zcolors. zparent. hs. efu_last_own.
    + red_T Hnr. simplify_eq. efu_start Hz Hp f.
      zrot_own up (T RED (T BLACK wl w wv (T nc nl n nv (T RED l p0 v r))) p pv t).
      zcolors. zparent. hs.
      zrot_own (CL RED p pv t (CR BLACK wl w wv up))
               (T RED nl n nv (T BLACK l p0 v r)).
      zcolors. zparent. hs. efu_last_own.
    + red_T Hnl. simplify_eq. efu_start Hz Hp f.
      zrot_own up (T RED (T BLACK wl w wv (T nc (T RED l p0 v r) n nv nr)) p pv t).
      zcolors. zparent. hs. efu_last_own.
Qed.

Lemma focus_allocated s C t : zrepr s C t → rootp (terminal_ s) t ∈ dom (mem s).
Proof.
  intros Hz. apply (zrepr_dom _ _ _ _ Hz).
  destruct t as [|c l p v r]; cbn [rootp]; [by left|]. right.
  unfold addrs. rewrite elems_plug. cbn [elems]. rewrite !fmap_app, fmap_cons.
  set_solver.
Qed.

(** The loop of [erase_fix_up] leaves the allocated addresses as they are. *)
Lemma erase_fix_up_own f s C t :
  xrepr s C t → efu_inv C t →
  (rcolor t = RED → 1 ≤ f) → (rcolor t = BLACK → cdepth C + 1 ≤ f) →
  ∃ s', erase_fix_up f (rootp (terminal_ s) t) s = Some s'
        ∧ dom (mem s') = dom (mem s).
Proof.
  revert s C t. induction f as [|f IH]; intros s C t Hx Hi Hf1 Hf2.
  { destruct (rcolor t); [specialize (Hf2 eq_refl)|specialize (Hf1 eq_refl)]; lia. }
  assert (C = Top ∨ rcolor t = RED ∨ (C ≠ Top ∧ rcolor t = BLACK)) as [HC|[HC|[HC Hc]]].
  { destruct C; [by left|right..]; destruct (rcolor t); auto. }
  1,2: destruct (efu_exit_sim f s C t Hx) as [E Hz']; [auto|];
       eexists; split; [done|]; apply set_color_dom;
       destruct Hx as [Hz _]; by eapply focus_allocated.
  destruct (efu_progress _ _ Hi Hc HC) as [[C' t'] Hs].
  destruct (efu_step_inv _ _ _ _ Hi Hc Hs) as (Hi1 & He & Hd).
  destruct (efu_step_own f s C t C' t' Hx Hc Hs) as (s1 & E1 & Hx1 & Hf & Hd1).
  pose proof Hf as (Et & _).
  destruct (IH s1 C' t' Hx1 Hi1) as (s' & E2 & Hd2);
    [specialize (Hf2 Hc); destruct C; [done|..]; cbn [cdepth] in *; lia
    |intros Hc'; specialize (Hf2 Hc); destruct Hd as [Hd|Hd]; [congruence|lia]|].
  exists s'. rewrite E1, <- Et. split; [done|congruence].
Qed.

(** [transplant] and [erase_splice] write to cells of the tree and of the
    sentinel only. *)
Lemma transplant_l_dom s C c y v r :
  zrepr s C (T c E y v r) →
  dom (mem (transplant y (rootp (terminal_ s) r) s)) = dom (mem s).
Proof.
  intros Hz. destruct s as [h tm rt sz hd tl].
  destruct C as [|pc p pv sib up|pc sib p pv up], r as [|rc rl x rv rr];
    zopen Hz; cbv beta delta [transplant]; hs; dsolve.
Qed.

Lemma transplant_r_dom s C c y v l :
  zrepr s C (T c l y v E) →
  dom (mem (transplant y (rootp (terminal_ s) l) s)) = dom (mem s).
Proof.
  intros Hz. destruct s as [h tm rt sz hd tl].
  destruct C as [|pc p pv sib up|pc sib p pv up], l as [|lc ll x lv lr];
    zopen Hz; cbv beta delta [transplant]; hs; dsolve.
Qed.

Lemma erase_splice_near_dom s C zc lc ll lp lv lr z zv yc y yv yr :
  zrepr s C (T zc (T lc ll lp lv lr) z zv (T yc E y yv yr)) →
  dom (mem (erase_splice z y s).2) = dom (mem s).
Proof.
  intros Hz. destruct s as [h tm rt sz hd tl].
  destruct C as [|pc p pv sib up|pc sib p pv up], yr as [|rc rl x rv rr];
    zopen Hz; cbv beta delta [erase_splice transplant]; hs; dsolve.
Qed.

Lemma erase_splice_far_dom s C zc lc ll lp lv lr z zv pc yp ypv ysib Cyy yc y yv yr :
  zrepr s C (T zc (T lc ll lp lv lr) z zv
               (plug (CL pc yp ypv ysib Cyy) (T yc E y yv yr))) →
  dom (mem (erase_splice z y s).2) = dom (mem s).
Proof.
  intros Hz.
  assert (Hzy : zrepr s (capp (CL pc yp ypv ysib Cyy) (CR zc (T lc ll lp lv lr) z zv C))
                      (T yc E y yv yr)).
  { by apply zrepr_capp, zrepr_up_r. }
  destruct (transplant_l _ _ _ _ _ _ Hzy) as (Hx1 & Hy1 & Hf1).
  pose proof (transplant_l_dom _ _ _ _ _ _ Hzy) as Hd1.
  pose proof (nodup_unlink _ _ _ _ _ _ (zr_nodup _ _ _ Hzy)) as Hny.
  rewrite plug_capp in Hny.
  pose proof Hx1 as [Hz1 _].
  apply zrepr_capp, zrepr_up_r in Hz1.
  destruct (plug_T Cyy pc yr yp ypv ysib) as (rc & rl & rp & rv & rr & E).
  cbn [plug] in Hny, Hz1. rewrite E in Hny, Hz1.
  pose proof (zr_sub _ _ _ Hzy) as (Hyc & _).
  destruct s as [h tm rt sz hd tl]. cbn [terminal_ mem] in *.
  rewrite Hyc in Hy1.
  remember (transplant y (rootp tm yr) (mkSet h tm rt sz hd tl)) as s1 eqn:E1.
  destruct s1 as [h1 tm1 rt1 sz1 hd1 tl1].
  unfold same_fields in Hf1; cbn [terminal_ size_ head_ tail_ mem] in *.
  destruct Hf1 as (-> & -> & -> & ->).
  assert (Hyz : yp ≠ z).
  { pose proof (zr_nodup _ _ _ Hz) as Hn. norm_addrs_in Hn. norm_addrs_in Hn.
    nd_atoms Hn. congruence. }
  cbv beta delta [erase_splice]. hs. rewrite <- E1. clear E1 Hz Hzy Hyc.
  cbn [capp cparent rootp] in Hy1.
  destruct C as [|qc q qv sib up|qc sib q qv up];
    norm_addrs_in Hny; nd_atoms Hny; zopen Hz1; cbv beta delta [transplant]; hs;
    dsolve.
Qed.

(** The removal of a node from the tree keeps every cell allocated; the
    cell of the node is released by [erase] afterwards. *)
Lemma erase_unlink_dom fuel s C zc zl z zv zr col x s' :
  zrepr s C (T zc zl z zv zr) → height zr ≤ fuel →
  erase_unlink fuel z s = Some (col, x, s') → dom (mem s') = dom (mem s).
Proof.
  intros Hz Hf. destruct zl as [|lc ll lp lv lr].
  { pose proof (transplant_l_dom _ _ _ _ _ _ Hz) as Hd.
    destruct s as [h tm rt sz hd tl]. zopen Hz.
    cbv beta delta [erase_unlink]. hs. intros [= <- <- <-]. exact Hd. }
  destruct zr as [|rc rl rp rv rr].
  { pose proof (transplant_r_dom _ _ _ _ _ _ Hz) as Hd.
    destruct s as [h tm rt sz hd tl]. zopen Hz.
    cbv beta delta [erase_unlink]. hs. intros [= <- <- <-]. exact Hd. }
  remember (T rc rl rp rv rr) as zr eqn:Ezr.
  assert (Hne : zr ≠ E) by (by subst zr).
  clear Ezr rc rl rp rv rr.
  destruct (split_min_spec zr Top Hne) as (Cy & yc & y & yv & yr & Hsm & Ey & Hcl).
  subst zr.
  assert (Hmin : minimum fuel (mem s) (terminal_ s)
                   (rootp (terminal_ s) (plug Cy (T yc E y yv yr))) = Some y).
  { pose proof (zr_sub _ _ _ Hz) as (_ & _ & Hr).
    pose proof (zr_nodup _ _ _ Hz) as Hn.
    rewrite (minimum_spec _ _ _ _ _ Hr); [| |done|done].
    - f_equal. unfold addrs. rewrite elems_plug, Hcl. done.
    - norm_addrs_in Hn. nd_atoms Hn. done. }
  assert (Hev : erase_unlink fuel z s = Some (erase_splice z y s)).
  { destruct s as [h tm rt sz hd tl]. cbn [mem terminal_] in Hmin.
    remember (plug Cy (T yc E y yv yr)) as zr eqn:Ezr.
    assert (Hrt : rootp tm zr ≠ tm).
    { pose proof (zr_nodup _ _ _ Hz) as Hn. clear -Hn Hne.
      destruct zr as [|rc rl rp rv rr]; [done|].
      cbn [terminal_] in Hn. norm_addrs_in Hn. nd_atoms Hn. cbn [rootp]. congruence. }
    zopen Hz. cbv beta delta [erase_unlink]. hs. rewrite Hmin. done. }
  rewrite Hev. clear Hev Hmin. intros Hs. apply (inj Some) in Hs.
  assert (s' = (erase_splice z y s).2) as -> by (by rewrite Hs).
  destruct Cy as [|pc yp ypv ysib Cyy|pc ysib yp ypv Cyy].
  - cbn [plug capp] in *. by eapply erase_splice_near_dom.
  - by eapply erase_splice_far_dom.
  - cbn [cleft] in Hcl. apply app_eq_nil in Hcl as [_ Hcl].
    apply app_eq_nil in Hcl as [_ Hcl]. done.
Qed.

(** [erase] through a cursor on a node releases the cell of that node. *)
Lemma erase_at_dom s t L1 z v L2 fuel s' :
  wf s t → elems t = L1 ++ (z, v) :: L2 → height t ≤ fuel →
  erase_at fuel (mkIter z) s = Some s' → dom (mem s') = dom (mem s) ∖ {[z]}.
Proof.
  intros [Hz Hb Hc Hn Hbal Hh Htl Hsz] He Hf.
  destruct (elem_cell _ _ _ _ _ _ Hz He) as [Hzt _].
  destruct (erase_bounds_spec s t L1 z v L2 fuel Hz Hh Htl He)
    as (sb & Eb & Em & Et & Er & Es & Ehd & Etl); [lia|].
  pose proof (zrepr_ext _ _ _ _ Em Et Er Hz) as Hzb.
  destruct (focus _ _ _ _ _ He) as (C & zc & zl & zr & -> & -> & ->).
  apply zrepr_plug in Hzb.
  destruct (unlink C zc zl zr) as [[col C'] t'] eqn:Hu.
  pose proof (unlink_depth _ _ _ z v _ _ _ _ Hu) as Hdp.
  destruct (unlink_inv _ _ _ z v _ _ _ _ (conj Hbal Hn) Hc Hu) as [Hib Hir].
  assert (Hzr : height zr ≤ fuel).
  { pose proof (height_plug C (T zc zl z v zr)) as Hp. cbn [height] in Hp. lia. }
  destruct (erase_unlink_spec fuel sb C zc zl z v zr col C' t' Hzb Hzr Hu)
    as (su & Eu & Hxu & Hfu).
  pose proof (erase_unlink_dom fuel sb C zc zl z v zr _ _ _ Hzb Hzr Eu) as Hdu.
  unfold erase_at, iter_eqb, end_. cbn [current].
  rewrite (proj2 (Pos.eqb_neq _ _) Hzt), Eb. cbn [mbind option_bind].
  rewrite Eu. cbn [mbind option_bind].
  destruct col; cbn [is_black].
  - destruct (erase_fix_up_own fuel su C' t' Hxu (Hib eq_refl)) as (sf & Ef & Hdf);
      [intros _; lia|intros _; lia|].
    pose proof Hfu as (Etu & _). rewrite Etu in Ef. rewrite Ef.
    cbn [mbind option_bind]. intros [= <-]. cbn. by rewrite dom_delete_L, Hdf, Hdu, Em.
  - cbn [mbind option_bind]. intros [= <-]. cbn. by rewrite dom_delete_L, Hdu, Em.
Qed.

(** ** The cells of a well-formed state *)

Lemma own_tree s t :
  zrepr s Top t →
  own s ↔ dom (mem s) = {[terminal_ s]} ∪ list_to_set (addrs t).
Proof.
  intros Hz. unfold own. split.
  - intros Ho. apply set_eq. intros p. rewrite Ho, (in_tree_iff _ t _ Hz).
    set_solver.
  - intros Hd p. rewrite Hd, (in_tree_iff _ t _ Hz). set_solver.
Qed.

Lemma own_new_set : own new_set.
Proof.
  apply (own_tree _ E (wf_repr _ _ wf_new_set)). unfold new_set. cbn.
  rewrite dom_singleton_L. set_solver.
Qed.

(** [insert] of a value that is not stored allocates one cell, at the
    address that [new] returns, and links it into the tree. *)
Lemma insert_new_cell s t v fuel :
  wf s t → own s → v ∉ values t → height t < fuel →
  ∃ s1 t1 L1 L2, insert fuel v s = Some s1 ∧ wf s1 t1
    ∧ elems t = L1 ++ L2 ∧ elems t1 = L1 ++ (fresh (dom (mem s)), v) :: L2
    ∧ terminal_ s1 = terminal_ s
    ∧ dom (mem s1) = {[fresh (dom (mem s))]} ∪ dom (mem s).
Proof.
  intros Hw Ho Hv Hf.
  destruct (insert_new_h s t v fuel Hw Hv Hf)
    as (s1 & t1 & L1 & L2 & z & Ei & Hw1 & He & He1 & _ & _ & Et).
  pose proof (insert_dom s t v fuel s1 Hw Hv Hf Ei) as Hd.
  exists s1, t1, L1, L2. split_and!; [done|done|done| |done|done].
  set (fr := fresh (dom (mem s))) in *. clearbody fr.
  pose proof (wf_repr _ _ Hw1) as Hz1. pose proof (wf_repr _ _ Hw) as Hz.
  apply (own_tree _ _ Hz) in Ho.
  assert (Hzd : z ∈ dom (mem s1)).
  { apply (zrepr_dom _ _ _ _ Hz1). right. cbn [plug]. unfold addrs.
    rewrite He1, fmap_app, fmap_cons. set_solver. }
  pose proof (zr_nodup _ _ _ Hz1) as Hnd. cbn [plug] in Hnd.
  unfold addrs in *. rewrite He1 in Hnd |- *. rewrite He in Ho.
  rewrite fmap_app, fmap_cons in Hnd. rewrite fmap_app in Ho.
  cbn [fst] in *. rewrite Et in *.
  apply NoDup_cons in Hnd as [Hn1 Hnd]. apply NoDup_app in Hnd as (_ & Hn2 & Hn3).
  apply NoDup_cons in Hn3 as [Hn3 _].
  rewrite Hd, Ho in Hzd.
  assert (z = fr) as <-; [|done].
  apply elem_of_union in Hzd as [Hzd|Hzd]; [by apply elem_of_singleton in Hzd|].
  exfalso. apply elem_of_union in Hzd as [Hzd|Hzd].
  - apply elem_of_singleton in Hzd. subst z. apply Hn1, elem_of_app. right. by left.
  - apply elem_of_list_to_set, elem_of_app in Hzd as [Hzd|Hzd]; [|done].
    apply (Hn2 z Hzd). by left.
Qed.

Lemma insert_own s t v fuel s1 :
  wf s t → own s → height t < fuel → insert fuel v s = Some s1 → own s1.
Proof.
  intros Hw Ho Hf Ei. destruct (decide (v ∈ values t)) as [Hv|Hv].
  - rewrite (insert_dup_h s t) in Ei by done. by injection Ei as <-.
  - destruct (insert_new_cell s t v fuel Hw Ho Hv Hf)
      as (s1' & t1 & L1 & L2 & Ei' & Hw1 & He & He1 & Et & Hd).
    rewrite Ei in Ei'. injection Ei' as <-.
    set (fr := fresh (dom (mem s))) in *. clearbody fr.
    apply (own_tree _ _ (wf_repr _ _ Hw)) in Ho.
    apply (own_tree _ _ (wf_repr _ _ Hw1)).
    unfold addrs in *. rewrite Hd, Ho, Et, He, He1, !fmap_app, fmap_cons.
    rewrite !list_to_set_app_L, list_to_set_cons. cbn [fst].
    generalize (list_to_set (C := gset ptr) L1.*1).
    generalize (list_to_set (C := gset ptr) L2.*1). intros A B. set_solver.
Qed.

Lemma erase_at_own s t L1 z v L2 fuel s1 :
  wf s t → own s → elems t = L1 ++ (z, v) :: L2 → height t ≤ fuel →
  erase_at fuel (mkIter z) s = Some s1 → own s1.
Proof.
  intros Hw Ho He Hf Ee.
  pose proof (erase_at_dom s t L1 z v L2 fuel s1 Hw He Hf Ee) as Hd.
  destruct (erase_at_present_h s t L1 z v L2 fuel Hw He Hf)
    as (s1' & t1 & Ee' & Hw1 & He1 & Et).
  rewrite Ee in Ee'. injection Ee' as <-.
  pose proof (wf_repr _ _ Hw1) as Hz1. pose proof (wf_repr _ _ Hw) as Hz.
  apply (own_tree _ _ Hz) in Ho. apply (own_tree _ _ Hz1).
  pose proof (zr_nodup _ _ _ Hz) as Hnd. cbn [plug] in Hnd.
  unfold addrs in *. rewrite He in Hnd, Ho. rewrite He1.
  rewrite fmap_app, fmap_cons in Hnd, Ho. rewrite fmap_app. cbn [fst] in *.
  apply NoDup_cons in Hnd as [Hn1 Hnd]. apply NoDup_app in Hnd as (_ & Hn2 & Hn3).
  apply NoDup_cons in Hn3 as [Hn3 _].
  assert (z ≠ terminal_ s).
  { intros Heq. apply Hn1. rewrite <- Heq. apply elem_of_app. right. by left. }
  assert (z ∉ L1.*1).
  { intros Hin. apply (Hn2 z Hin). by left. }
  rewrite Hd, Ho, Et. set_solver.
Qed.

Lemma erase_own s t v fuel s1 :
  wf s t → own s → height t < fuel → erase fuel v s = Some s1 → own s1.
Proof.
  intros Hw Ho Hf Ee. destruct (decide (v ∈ values t)) as [Hv|Hv].
  - apply list_elem_of_fmap in Hv as ([z v'] & -> & Hin). cbn [snd] in *.
    destruct (list_elem_of_split _ _ Hin) as (L1 & L2 & He).
    unfold erase in Ee. rewrite (find_elem_h s t z v') in Ee by done.
    cbn [mbind option_bind] in Ee.
    apply (erase_at_own s t L1 z v' L2 fuel s1 Hw Ho He); [lia|done].
  - rewrite (erase_absent_h s t) in Ee by done. by injection Ee as <-.
Qed.

(** The states reached from the empty set own their cells. *)
Lemma run_own ops : ∀ f s t s',
  wf s t → own s → length (elems t) + length ops ≤ f →
  run f ops s = Some s' → own s'.
Proof.
  induction ops as [|o ops IH]; intros f s t s' Hw Ho Hf.
  - cbn. by intros [= <-].
  - cbn [length] in Hf. cbn [run].
    pose proof (height_le_length t) as Hh.
    destruct o as [v|v]; cbn [apply_op].
    + destruct (insert_effect s t v f Hw) as (s1 & t1 & E1 & Hw1 & _ & _ & _ & Hl1); [lia|].
      rewrite E1. cbn [mbind option_bind].
      apply (IH f s1 t1 s' Hw1); [apply (insert_own s t v f s1 Hw Ho); [lia|done]|].
      rewrite Hl1. destruct (bool_decide _); lia.
    + destruct (erase_effect s t v f Hw) as (s1 & t1 & E1 & Hw1 & _ & _ & Hl1); [lia|].
      rewrite E1. cbn [mbind option_bind].
      apply (IH f s1 t1 s' Hw1); [apply (erase_own s t v f s1 Hw Ho); [lia|done]|].
      rewrite Hl1. destruct (bool_decide _); lia.
Qed.

Lemma reach_own ops f :
  length ops < f →
  ∃ s t, run f ops new_set = Some s ∧ wf s t ∧ length (elems t) ≤ length ops
         ∧ own s.
Proof.
  intros Hf. destruct (reach_wf_h ops f Hf) as (s & t & E1 & Hw & Hl).
  exists s, t. split_and!; [done..|].
  apply (run_own ops f new_set E s wf_new_set own_new_set); [cbn; lia|done].
Qed.

(** ** The destructor releases every cell *)

Lemma clear_loop_own L : ∀ n fuel s t s',
  wf s t → own s → elems t = L → length L ≤ fuel → length L < n →
  clear_loop n fuel s = Some s' → own s'.
Proof.
  induction L as [|[p v] L IH]; intros n fuel s t s' Hw Ho He Hf Hn.
  - destruct n as [|n]; [cbn in Hn; lia|]. apply elems_nil in He as ->.
    cbn [clear_loop]. rewrite (proj2 (wf_empty _ _ Hw)) by done.
    cbn. by intros [= <-].
  - destruct n as [|n]; [cbn in Hn; lia|]. cbn [length] in Hn, Hf.
    cbn [clear_loop].
    assert (empty s = false) as ->.
    { destruct (empty s) eqn:Ee; [|done]. apply (wf_empty _ _ Hw) in Ee.
      subst t. done. }
    cbn [negb]. unfold begin_. rewrite (wf_head _ _ Hw). unfold addrs.
    rewrite He. cbn [fmap list_fmap hd fst].
    pose proof (height_le_length t) as Hh. rewrite He in Hh. cbn [length] in Hh.
    destruct (erase_at_present_h s t [] p v L fuel Hw He)
      as (s1 & t1 & E1 & Hw1 & He1 & Et1); [lia|].
    rewrite E1. cbn [mbind option_bind].
    apply (IH n fuel s1 t1 s' Hw1); [|done|lia|lia].
    apply (erase_at_own s t [] p v L fuel s1 Hw Ho He); [lia|done].
Qed.

Lemma destroy_own s t fuel :
  wf s t → own s → length (elems t) < fuel →
  ∃ s', destroy fuel s = Some s' ∧ mem s' = ∅ ∧ size_ s' = 0.
Proof.
  intros Hw Ho Hf.
  destruct (clear_loop_wf (elems t) fuel fuel s t Hw) as (s1 & E1 & Hw1 & Et1);
    [done|lia|done|].
  pose proof (clear_loop_own (elems t) fuel fuel s t s1 Hw Ho eq_refl) as Ho1.
  specialize (Ho1 ltac:(lia) Hf E1).
  apply (own_tree _ E (wf_repr _ _ Hw1)) in Ho1.
  unfold destroy. rewrite E1. cbn [mbind option_bind]. eexists. split; [done|].
  cbn. split; [|by rewrite (wf_size _ _ Hw1)].
  apply dom_empty_iff_L. rewrite dom_delete_L, Ho1. set_solver.
Qed.

(** The number of cells is the number of elements and one. *)
Lemma own_count s t : wf s t → own s → base.size (dom (mem s)) = S (size_ s).
Proof.
  intros Hw Ho. pose proof (wf_repr _ _ Hw) as Hz.
  apply (own_tree _ _ Hz) in Ho. rewrite Ho.
  change ({[terminal_ s]} ∪ list_to_set (addrs t) : gset ptr)
    with (list_to_set (C := gset ptr) (terminal_ s :: addrs t)).
  rewrite size_list_to_set by apply (zr_nodup _ _ _ Hz).
  cbn [length]. unfold addrs. by rewrite length_fmap, (wf_size _ _ Hw).
Qed.

(** [erase] of a stored value releases the cell that [find] points to. *)
Lemma erase_cell s t v fuel :
  wf s t → v ∈ values t → height t < fuel →
  ∃ z s2, find fuel v s = Some (mkIter z) ∧ erase fuel v s = Some s2
          ∧ z ∈ dom (mem s) ∧ dom (mem s2) = dom (mem s) ∖ {[z]}.
Proof.
  intros Hw Hv Hf.
  apply list_elem_of_fmap in Hv as ([z v'] & -> & Hin). cbn [snd] in *.
  destruct (list_elem_of_split _ _ Hin) as (L1 & L2 & He).
  destruct (erase_at_present_h s t L1 z v' L2 fuel Hw He) as (s2 & t2 & Ee & _); [lia|].
  exists z, s2. rewrite (find_elem_h s t z v') by done.
  split_and!; [done| | |].
  - unfold erase. rewrite (find_elem_h s t z v') by done. done.
  - apply (zrepr_dom _ _ _ _ (wf_repr _ _ Hw)). right. cbn [plug].
    by apply (list_elem_of_fmap_2 fst _ (z, v')).
  - apply (erase_at_dom s t L1 z v' L2 fuel s2 Hw He); [lia|done].
Qed.

(** * Further properties, on the states reached from the empty set *)



(** X2. On every set reached from the empty one, [--it] on a cursor on a
    node gives the end cursor when [it] is [begin()], the cursor of the
    least element, and otherwise a cursor on the greatest stored element
    below [*it]. *)
Theorem decr_predecessor ops f fuel :
  length ops < f →
  length ops < fuel →
  ∃ s l, run f ops new_set = Some s ∧ to_list fuel s = Some l
    ∧ ∀ it, in_tree s (current it) →
        ∃ it', decr fuel s it = Some it'
          ∧ ((it' = end_ s ∧ it = begin_ s ∧ ∀ x, x ∈ l → (deref s it ≤ x)%Z)
             ∨ (it' ≠ end_ s ∧ deref s it' ∈ l ∧ (deref s it' < deref s it)%Z
                ∧ ∀ x, x ∈ l → (x < deref s it)%Z → (x ≤ deref s it')%Z)).
Proof.
  intros Hf Hfuel. destruct (reach_wf_h ops f Hf) as (s & t & E1 & Hw & Hl).
  pose proof (wf_repr _ _ Hw) as Hz. pose proof (height_le_length t) as Hh.
  assert (Ht : to_list fuel s = Some (values t)) by (apply (to_list_wf _ _ _ Hw); lia).
  exists s, (values t). split_and!; [done|done|].
  intros [p] Hin. cbn [current] in Hin. apply (in_tree_addr _ _ _ Hz) in Hin.
  apply (decr_prev_wf s t p fuel Hw); [lia|done].
Qed.

Lemma decr_predecessor_witness :
  (length scenario < 8 ∧ length scenario < 10)
  ∧ ∃ s l, run 8 scenario new_set = Some s ∧ to_list 10 s = Some l
    ∧ ∀ it, in_tree s (current it) →
        ∃ it', decr 10 s it = Some it'
          ∧ ((it' = end_ s ∧ it = begin_ s ∧ ∀ x, x ∈ l → (deref s it ≤ x)%Z)
             ∨ (it' ≠ end_ s ∧ deref s it' ∈ l ∧ (deref s it' < deref s it)%Z
                ∧ ∀ x, x ∈ l → (x < deref s it)%Z → (x ≤ deref s it')%Z)).
Proof.
  split; [cbn; lia|].
  apply (decr_predecessor scenario 8 10); cbn; lia.
Defined.

(** X3. On every set reached from the empty one, [begin() == end()] exactly
    when [empty()], and otherwise [begin()] is a cursor on a node of the
    tree that dereferences to the least stored element: its payload is one
    of the payloads [values t] of the tree [t] laid out in the store, which
    the iteration lists, and none of them is below it. *)
Theorem begin_is_least ops f fuel :
  length ops < f →
  length ops < fuel →
  ∃ s t, run f ops new_set = Some s ∧ zrepr s Top t
    ∧ to_list fuel s = Some (values t)
    ∧ (∀ x, x ∈ values t ↔ live ops x = true)
    ∧ (iter_eqb (begin_ s) (end_ s) = true ↔ empty s = true)
    ∧ (empty s = false →
         begin_ s ≠ end_ s ∧ in_tree s (current (begin_ s))
         ∧ deref s (begin_ s) ∈ values t
         ∧ ∀ x, x ∈ values t → (deref s (begin_ s) ≤ x)%Z).
Proof.
  intros Hf Hfuel. destruct (reach_wf ops f Hf) as (s & t & E1 & Hw & Hl & Hm).
  pose proof (wf_repr _ _ Hw) as Hz.
  assert (Ht : to_list fuel s = Some (values t)) by (apply (to_list_wf _ _ _ Hw); lia).
  exists s, t. destruct (begin_wf s t Hw) as [Hb He].
  split_and!; [done|done|done|done|done|].
  intros Hne. destruct (He Hne) as (H1 & H2 & H3). split_and!; [done| |done|done].
  apply (in_tree_iff _ t _ Hz). unfold begin_. cbn [current].
  rewrite (wf_head _ _ Hw). apply hd_in. intros Ha. apply addrs_nil in Ha.
  apply (wf_empty _ _ Hw) in Ha. congruence.
Qed.

Lemma begin_is_least_witness :
  (length scenario < 8 ∧ length scenario < 10)
  ∧ ∃ s t, run 8 scenario new_set = Some s ∧ zrepr s Top t
    ∧ to_list 10 s = Some (values t)
    ∧ (∀ x, x ∈ values t ↔ live scenario x = true)
    ∧ (iter_eqb (begin_ s) (end_ s) = true ↔ empty s = true)
    ∧ (empty s = false →
         begin_ s ≠ end_ s ∧ in_tree s (current (begin_ s))
         ∧ deref s (begin_ s) ∈ values t
         ∧ ∀ x, x ∈ values t → (deref s (begin_ s) ≤ x)%Z).
Proof.
  split; [cbn; lia|].
  apply (begin_is_least scenario 8 10); cbn; lia.
Defined.

(** X4. On every set reached from the empty one, [++(--it) == it] for
    every cursor other than [begin()] that is on a node or is the end
    cursor. *)
Theorem decr_then_incr ops f fuel :
  length ops < f →
  length ops < fuel →
  ∃ s l, run f ops new_set = Some s ∧ to_list fuel s = Some l
    ∧ ∀ it, in_tree s (current it) ∨ it = end_ s → it ≠ begin_ s →
        ∃ it1 it2, decr fuel s it = Some it1 ∧ incr fuel s it1 = Some it2
                   ∧ iter_eqb it2 it = true.
Proof.
  intros Hf Hfuel. destruct (reach_wf_h ops f Hf) as (s & t & E1 & Hw & Hl).
  pose proof (wf_repr _ _ Hw) as Hz. pose proof (height_le_length t) as Hh.
  assert (Ht : to_list fuel s = Some (values t)) by (apply (to_list_wf _ _ _ Hw); lia).
  exists s, (values t). split_and!; [done|done|].
  intros [p] [Hin| ->] Hb.
  - cbn [current] in Hin. apply (in_tree_addr _ _ _ Hz) in Hin.
    destruct (decr_incr_node_wf s t p fuel Hw) as (it1 & Ea & Eb); [lia|done|done|].
    exists it1, (mkIter p). split_and!; [done|done|]. apply Pos.eqb_refl.
  - destruct (decr_incr_end_wf s t fuel Hw) as (it1 & Ea & Eb); [lia|done|].
    exists it1, (end_ s). split_and!; [done|done|]. apply Pos.eqb_refl.
Qed.

Lemma decr_then_incr_witness :
  (length scenario < 8 ∧ length scenario < 10)
  ∧ ∃ s l, run 8 scenario new_set = Some s ∧ to_list 10 s = Some l
    ∧ ∀ it, in_tree s (current it) ∨ it = end_ s → it ≠ begin_ s →
        ∃ it1 it2, decr 10 s it = Some it1 ∧ incr 10 s it1 = Some it2
                   ∧ iter_eqb it2 it = true.
Proof.
  split; [cbn; lia|].
  apply (decr_then_incr scenario 8 10); cbn; lia.
Defined.

(** X5. On every set reached from the empty one, after [insert(v)] the
    cursor [find(v)] is on a node of the tree whose payload is [v], and the
    stored elements are the former ones and [v]. *)
Theorem insert_then_find ops f fuel v :
  length ops < f →
  S (length ops) < fuel →
  ∃ s l s1 l1 it, run f ops new_set = Some s ∧ to_list fuel s = Some l
    ∧ insert fuel v s = Some s1 ∧ to_list fuel s1 = Some l1
    ∧ find fuel v s1 = Some it
    ∧ in_tree s1 (current it) ∧ deref s1 it = v
    ∧ ∀ x, x ∈ l1 ↔ x = v ∨ x ∈ l.
Proof.
  intros Hf Hfuel. destruct (reach_wf_h ops f Hf) as (s & t & E1 & Hw & Hl).
  pose proof (wf_repr _ _ Hw) as Hz. pose proof (height_le_length t) as Hh.
  assert (Ht : to_list fuel s = Some (values t)) by (apply (to_list_wf _ _ _ Hw); lia).
  destruct (insert_effect s t v fuel Hw) as (s1 & t1 & Ei & Hw1 & _ & (z & Hzv) & Hm & Hlen);
    [lia|].
  pose proof (height_le_length t1) as Hh1.
  assert (length (elems t1) ≤ S (length (elems t))) as Hl1.
  { rewrite Hlen. destruct (bool_decide _); lia. }
  exists s, (values t), s1, (values t1), (mkIter z).
  destruct (elem_in_tree s1 t1 z v (wf_repr _ _ Hw1) Hzv) as [Hin Hd].
  split_and!; [done|done|done| | |done|done|done].
  - apply (to_list_wf _ _ _ Hw1). lia.
  - apply (find_elem_h _ t1); [done|lia|done].
Qed.

Lemma insert_then_find_witness :
  (length scenario < 8 ∧ S (length scenario) < 10)
  ∧ ∃ s l s1 l1 it, run 8 scenario new_set = Some s ∧ to_list 10 s = Some l
    ∧ insert 10 6%Z s = Some s1 ∧ to_list 10 s1 = Some l1
    ∧ find 10 6%Z s1 = Some it
    ∧ in_tree s1 (current it) ∧ deref s1 it = 6%Z
    ∧ ∀ x, x ∈ l1 ↔ x = 6%Z ∨ x ∈ l.
Proof.
  split; [cbn; lia|].
  apply (insert_then_find scenario 8 10 6%Z); cbn; lia.
Defined.

(** X6. On every set reached from the empty one, after [erase(v)] the
    cursor [find(v)] is the end cursor, the stored elements are the former
    ones other than [v], and [size()] has dropped by one exactly when [v] was
    stored. *)
Theorem erase_then_find ops f fuel v :
  length ops < f →
  length ops < fuel →
  ∃ s l s1 l1, run f ops new_set = Some s ∧ to_list fuel s = Some l
    ∧ erase fuel v s = Some s1 ∧ to_list fuel s1 = Some l1
    ∧ find fuel v s1 = Some (end_ s1)
    ∧ (∀ x, x ∈ l1 ↔ x ≠ v ∧ x ∈ l)
    ∧ size s1 = (if bool_decide (v ∈ l) then pred (size s) else size s).
Proof.
  intros Hf Hfuel. destruct (reach_wf_h ops f Hf) as (s & t & E1 & Hw & Hl).
  pose proof (wf_repr _ _ Hw) as Hz. pose proof (height_le_length t) as Hh.
  assert (Ht : to_list fuel s = Some (values t)) by (apply (to_list_wf _ _ _ Hw); lia).
  destruct (erase_effect s t v fuel Hw) as (s1 & t1 & Ee & Hw1 & _ & Hm & Hlen); [lia|].
  pose proof (height_le_length t1) as Hh1.
  assert (length (elems t1) ≤ length (elems t)) as Hl1.
  { rewrite Hlen. destruct (bool_decide _); lia. }
  exists s, (values t), s1, (values t1).
  split_and!; [done|done|done| | |done|].
  - apply (to_list_wf _ _ _ Hw1). lia.
  - apply (find_absent_h _ t1); [done|lia|]. rewrite Hm. tauto.
  - unfold size. by rewrite (wf_size _ _ Hw1), (wf_size _ _ Hw), Hlen.
Qed.

Lemma erase_then_find_witness :
  (length scenario < 8 ∧ length scenario < 10)
  ∧ ∃ s l s1 l1, run 8 scenario new_set = Some s ∧ to_list 10 s = Some l
    ∧ erase 10 5%Z s = Some s1 ∧ to_list 10 s1 = Some l1
    ∧ find 10 5%Z s1 = Some (end_ s1)
    ∧ (∀ x, x ∈ l1 ↔ x ≠ 5%Z ∧ x ∈ l)
    ∧ size s1 = (if bool_decide (5%Z ∈ l) then pred (size s) else size s).
Proof.
  split; [cbn; lia|].
  apply (erase_then_find scenario 8 10 5%Z); cbn; lia.
Defined.

(** X7. On every set reached from the empty one, [insert(v)] leaves every
    cursor on a node valid: the node is still in the tree, with the same
    payload. *)
Theorem insert_keeps_cursors ops f fuel v :
  length ops < f →
  length ops < fuel →
  ∃ s s1, run f ops new_set = Some s ∧ insert fuel v s = Some s1
    ∧ ∀ it, in_tree s (current it) →
        in_tree s1 (current it) ∧ deref s1 it = deref s it.
Proof.
  intros Hf Hfuel. destruct (reach_wf_h ops f Hf) as (s & t & E1 & Hw & Hl).
  pose proof (wf_repr _ _ Hw) as Hz. pose proof (height_le_length t) as Hh.
  destruct (insert_effect s t v fuel Hw) as (s1 & t1 & Ei & Hw1 & Hk & _); [lia|].
  exists s, s1. split_and!; [done|done|].
  intros [p] Hin. cbn [current] in Hin. unfold deref. cbn [current].
  pose proof (in_tree_elem _ _ _ Hz Hin) as He. apply Hk in He.
  exact (elem_in_tree s1 t1 p _ (wf_repr _ _ Hw1) He).
Qed.

Lemma insert_keeps_cursors_witness :
  (length scenario < 8 ∧ length scenario < 10)
  ∧ ∃ s s1, run 8 scenario new_set = Some s ∧ insert 10 6%Z s = Some s1
    ∧ ∀ it, in_tree s (current it) →
        in_tree s1 (current it) ∧ deref s1 it = deref s it.
Proof.
  split; [cbn; lia|].
  apply (insert_keeps_cursors scenario 8 10 6%Z); cbn; lia.
Defined.

(** X8. On every set reached from the empty one, [erase(v)] leaves every
    cursor on a node whose payload is not [v] valid: the node is still in
    the tree, with the same payload. *)
Theorem erase_keeps_cursors ops f fuel v :
  length ops < f →
  length ops < fuel →
  ∃ s s1, run f ops new_set = Some s ∧ erase fuel v s = Some s1
    ∧ ∀ it, in_tree s (current it) → deref s it ≠ v →
        in_tree s1 (current it) ∧ deref s1 it = deref s it.
Proof.
  intros Hf Hfuel. destruct (reach_wf_h ops f Hf) as (s & t & E1 & Hw & Hl).
  pose proof (wf_repr _ _ Hw) as Hz. pose proof (height_le_length t) as Hh.
  destruct (erase_effect s t v fuel Hw) as (s1 & t1 & Ee & Hw1 & Hk & _); [lia|].
  exists s, s1. split_and!; [done|done|].
  intros [p] Hin Hne. cbn [current] in Hin. unfold deref in *. cbn [current] in *.
  pose proof (in_tree_elem _ _ _ Hz Hin) as He. apply Hk in He; [|done].
  exact (elem_in_tree s1 t1 p _ (wf_repr _ _ Hw1) He).
Qed.

Lemma erase_keeps_cursors_witness :
  (length scenario < 8 ∧ length scenario < 10)
  ∧ ∃ s s1, run 8 scenario new_set = Some s ∧ erase 10 5%Z s = Some s1
    ∧ ∀ it, in_tree s (current it) → deref s it ≠ 5%Z →
        in_tree s1 (current it) ∧ deref s1 it = deref s it.
Proof.
  split; [cbn; lia|].
  apply (erase_keeps_cursors scenario 8 10 5%Z); cbn; lia.
Defined.

(** X9. On every set reached from the empty one, [erase(it)] for a cursor
    on a node removes exactly the element [*it] from the iteration, lowers
    [size()] by one, releases the cell of the node, and leaves every other
    cursor on a node valid with its payload. *)
Theorem erase_at_cursor ops f fuel :
  length ops < f →
  length ops < fuel →
  ∃ s l, run f ops new_set = Some s ∧ to_list fuel s = Some l
    ∧ ∀ it, in_tree s (current it) →
        ∃ s1 l1 l2, erase_at fuel it s = Some s1
          ∧ l = l1 ++ deref s it :: l2 ∧ to_list fuel s1 = Some (l1 ++ l2)
          ∧ size s1 = pred (size s)
          ∧ mem s1 !! current it = None
          ∧ ∀ it', in_tree s (current it') → iter_eqb it' it = false →
              in_tree s1 (current it') ∧ deref s1 it' = deref s it'.
Proof.
  intros Hf Hfuel. destruct (reach_wf_h ops f Hf) as (s & t & E1 & Hw & Hl).
  pose proof (wf_repr _ _ Hw) as Hz. pose proof (height_le_length t) as Hh.
  assert (Ht : to_list fuel s = Some (values t)) by (apply (to_list_wf _ _ _ Hw); lia).
  exists s, (values t). split_and!; [done|done|].
  intros [p] Hin. cbn [current] in Hin. unfold deref. cbn [current].
  pose proof (in_tree_elem _ _ _ Hz Hin) as He.
  destruct (list_elem_of_split _ _ He) as (L1 & L2 & Hs).
  destruct (erase_at_present_h s t L1 p _ L2 fuel Hw Hs) as (s1 & t1 & Ee & Hw1 & He1 & _);
    [lia|].
  exists s1, L1.*2, L2.*2. split_and!; [done|..].
  - unfold values. by rewrite Hs, fmap_app, fmap_cons.
  - rewrite <- fmap_app, <- He1. apply (to_list_wf _ _ _ Hw1).
    rewrite He1. rewrite Hs, length_app in Hl. cbn in Hl. rewrite length_app. lia.
  - unfold size. rewrite (wf_size _ _ Hw1), (wf_size _ _ Hw), He1, Hs, !length_app.
    cbn. lia.
  - by apply (erase_at_released fuel (mkIter p) s s1 (wf_addr_ne _ _ _ _ Hz He)).
  - intros [q] Hq Hne. cbn [current] in *. unfold iter_eqb in Hne. cbn [current] in Hne.
    apply Pos.eqb_neq in Hne.
    pose proof (in_tree_elem _ _ _ Hz Hq) as Heq.
    apply (elem_in_tree s1 t1 q _ (wf_repr _ _ Hw1)).
    rewrite He1. rewrite Hs in Heq. rewrite !elem_of_app, elem_of_cons in Heq.
    rewrite elem_of_app. destruct Heq as [?|[?|?]]; [tauto|simplify_eq|tauto].
Qed.

Lemma erase_at_cursor_witness :
  (length scenario < 8 ∧ length scenario < 10)
  ∧ ∃ s l, run 8 scenario new_set = Some s ∧ to_list 10 s = Some l
    ∧ ∀ it, in_tree s (current it) →
        ∃ s1 l1 l2, erase_at 10 it s = Some s1
          ∧ l = l1 ++ deref s it :: l2 ∧ to_list 10 s1 = Some (l1 ++ l2)
          ∧ size s1 = pred (size s)
          ∧ mem s1 !! current it = None
          ∧ ∀ it', in_tree s (current it') → iter_eqb it' it = false →
              in_tree s1 (current it') ∧ deref s1 it' = deref s it'.
Proof.
  split; [cbn; lia|].
  apply (erase_at_cursor scenario 8 10); cbn; lia.
Defined.

(** X10. On every set reached from the empty one, [insert(v)] followed by
    [erase(v)] for a value that was not stored, and [erase(v)] followed by
    [insert(v)] for a value that was, give back the same iteration and the
    same [size()]. *)
Theorem insert_erase_round_trip ops f fuel v :
  length ops < f →
  S (length ops) < fuel →
  ∃ s l, run f ops new_set = Some s ∧ to_list fuel s = Some l
    ∧ (v ∉ l →
         ∃ s1 s2, insert fuel v s = Some s1 ∧ erase fuel v s1 = Some s2
                  ∧ to_list fuel s2 = Some l ∧ size s2 = size s)
    ∧ (v ∈ l →
         ∃ s1 s2, erase fuel v s = Some s1 ∧ insert fuel v s1 = Some s2
                  ∧ to_list fuel s2 = Some l ∧ size s2 = size s).
Proof.
  intros Hf Hfuel. destruct (reach_wf_h ops f Hf) as (s & t & E1 & Hw & Hl).
  pose proof (wf_repr _ _ Hw) as Hz. pose proof (height_le_length t) as Hh.
  assert (Ht : to_list fuel s = Some (values t)) by (apply (to_list_wf _ _ _ Hw); lia).
  exists s, (values t). split_and!; [done|done|..].
  - intros Hv.
    destruct (insert_effect s t v fuel Hw) as (s1 & t1 & Ei & Hw1 & _ & _ & Hm1 & Hlen1);
      [lia|].
    rewrite bool_decide_eq_false_2 in Hlen1 by done.
    pose proof (height_le_length t1) as Hh1.
    destruct (erase_effect s1 t1 v fuel Hw1) as (s2 & t2 & Ee & Hw2 & _ & Hm2 & Hlen2);
      [lia|].
    rewrite bool_decide_eq_true_2 in Hlen2 by (apply Hm1; by left).
    assert (values t2 = values t) as Ev.
    { apply sorted_ext; [by eapply wf_sorted..|]. intros x. rewrite Hm2, Hm1.
      split; [intros [? [?|?]]; [done|done]|]. intros Hx. split; [by intros ->|auto]. }
    exists s1, s2. split_and!; [done|done| |].
    + rewrite <- Ev. apply (to_list_wf _ _ _ Hw2). lia.
    + unfold size. rewrite (wf_size _ _ Hw2), (wf_size _ _ Hw). lia.
  - intros Hv.
    destruct (erase_effect s t v fuel Hw) as (s1 & t1 & Ee & Hw1 & _ & Hm1 & Hlen1); [lia|].
    rewrite bool_decide_eq_true_2 in Hlen1 by done.
    pose proof (height_le_length t1) as Hh1.
    destruct (insert_effect s1 t1 v fuel Hw1) as (s2 & t2 & Ei & Hw2 & _ & _ & Hm2 & Hlen2);
      [lia|].
    rewrite bool_decide_eq_false_2 in Hlen2 by (rewrite Hm1; tauto).
    assert (values t2 = values t) as Ev.
    { apply sorted_ext; [by eapply wf_sorted..|]. intros x. rewrite Hm2, Hm1.
      split; [intros [->|[? ?]]; done|]. intros Hx.
      destruct (decide (x = v)); [by left|by right]. }
    assert (0 < length (elems t)).
    { apply list_elem_of_fmap in Hv as (q & _ & Hq). destruct (elems t); [|cbn; lia].
      by apply elem_of_nil in Hq. }
    exists s1, s2. split_and!; [done|done| |].
    + rewrite <- Ev. apply (to_list_wf _ _ _ Hw2). lia.
    + unfold size. rewrite (wf_size _ _ Hw2), (wf_size _ _ Hw). lia.
Qed.

Lemma insert_erase_round_trip_witness :
  (length scenario < 8 ∧ S (length scenario) < 10)
  ∧ ∃ s l, run 8 scenario new_set = Some s ∧ to_list 10 s = Some l
    ∧ (6%Z ∉ l →
         ∃ s1 s2, insert 10 6%Z s = Some s1 ∧ erase 10 6%Z s1 = Some s2
                  ∧ to_list 10 s2 = Some l ∧ size s2 = size s)
    ∧ (6%Z ∈ l →
         ∃ s1 s2, erase 10 6%Z s = Some s1 ∧ insert 10 6%Z s1 = Some s2
                  ∧ to_list 10 s2 = Some l ∧ size s2 = size s).
Proof.
  split; [cbn; lia|].
  apply (insert_erase_round_trip scenario 8 10 6%Z); cbn; lia.
Defined.

(** X11. The constructor from a range (and from an initializer list)
    returns a set whose iteration is strictly increasing and holds exactly
    the values of the range, and whose [size()] is the number of distinct
    values of the range. *)
Theorem range_constructor l fuel :
  length l < fuel →
  ∃ s r, from_list fuel l = Some s ∧ to_list fuel s = Some r
    ∧ StronglySorted Z.lt r ∧ (∀ x, x ∈ r ↔ x ∈ l)
    ∧ size s = length (remove_dups l).
Proof.
  intros Hfuel. destruct (from_list_wf l fuel Hfuel) as (s & t & E & Hw & Hm & Hlen).
  exists s, (values t). split_and!; [done| |by eapply wf_sorted|done|].
  - apply (to_list_wf _ _ _ Hw). lia.
  - unfold size. rewrite (wf_size _ _ Hw), <- (length_fmap snd).
    apply Permutation_length, NoDup_Permutation.
    + eapply sorted_NoDup, wf_sorted, Hw.
    + apply NoDup_remove_dups.
    + intros x. rewrite elem_of_remove_dups. apply Hm.
Qed.

Lemma range_constructor_witness :
  length [3; 1; 2; 3; 1]%Z < 6
  ∧ ∃ s r, from_list 6 [3; 1; 2; 3; 1]%Z = Some s ∧ to_list 6 s = Some r
    ∧ StronglySorted Z.lt r ∧ (∀ x, x ∈ r ↔ x ∈ [3; 1; 2; 3; 1]%Z)
    ∧ size s = length (remove_dups [3; 1; 2; 3; 1]%Z).
Proof.
  split; [cbn; lia|].
  apply (range_constructor ([3; 1; 2; 3; 1]%Z) 6); cbn; lia.
Defined.

(** X12. On every set reached from the empty one, the copy constructor
    returns a set with the same iteration and the same [size()] as its
    source. *)
Theorem copy_constructor ops f fuel :
  length ops < f →
  length ops < fuel →
  ∃ s l c, run f ops new_set = Some s ∧ to_list fuel s = Some l
    ∧ copy fuel s = Some c ∧ to_list fuel c = Some l ∧ size c = size s.
Proof.
  intros Hf Hfuel. destruct (reach_wf_h ops f Hf) as (s & t & E1 & Hw & Hl).
  pose proof (wf_repr _ _ Hw) as Hz. pose proof (height_le_length t) as Hh.
  assert (Ht : to_list fuel s = Some (values t)) by (apply (to_list_wf _ _ _ Hw); lia).
  destruct (copy_wf s t fuel Hw) as (c & tc & Ec & Hwc & Hv); [lia|].
  assert (length (elems tc) = length (elems t)) as Hlc.
  { rewrite <- (length_fmap snd (elems tc)), <- (length_fmap snd (elems t)).
    unfold values in Hv. by rewrite Hv. }
  exists s, (values t), c. split_and!; [done|done|done| |].
  - rewrite <- Hv. apply (to_list_wf _ _ _ Hwc). lia.
  - unfold size. by rewrite (wf_size _ _ Hwc), (wf_size _ _ Hw).
Qed.

Lemma copy_constructor_witness :
  (length scenario < 8 ∧ length scenario < 10)
  ∧ ∃ s l c, run 8 scenario new_set = Some s ∧ to_list 10 s = Some l
    ∧ copy 10 s = Some c ∧ to_list 10 c = Some l ∧ size c = size s.
Proof.
  split; [cbn; lia|].
  apply (copy_constructor scenario 8 10); cbn; lia.
Defined.

(** X13. On every set reached from the empty one, the destructor returns:
    its loop erases [begin()] until the set is empty, and with the release
    of the sentinel no cell of the store is left allocated. *)
Theorem destructor_releases ops f fuel :
  length ops < f →
  length ops < fuel →
  ∃ s s', run f ops new_set = Some s ∧ destroy fuel s = Some s'
    ∧ mem s' = ∅ ∧ size s' = 0.
Proof.
  intros Hf Hfuel. destruct (reach_own ops f Hf) as (s & t & E1 & Hw & Hl & Ho).
  destruct (destroy_own s t fuel Hw Ho) as (s' & Ed & Hm & Hs); [lia|].
  by exists s, s'.
Qed.

Lemma destructor_releases_witness :
  (length scenario < 8 ∧ length scenario < 10)
  ∧ ∃ s s', run 8 scenario new_set = Some s ∧ destroy 10 s = Some s'
    ∧ mem s' = ∅ ∧ size s' = 0.
Proof.
  split; [cbn; lia|].
  apply (destructor_releases scenario 8 10); cbn; lia.
Defined.

(** X14. On every set reached from the empty one, the loops of [find] and
    [lower_bound] end within [2 * log2 (size() + 1) + 1] rounds: with that
    many rounds or more they return, [find(v)] with a cursor on [v] when
    [v] is stored and the end cursor otherwise, and [lower_bound(v)] with
    the same cursor whatever the number of rounds. *)
Theorem lookups_logarithmic ops f fuel :
  length ops < f →
  length ops < fuel →
  ∃ s l, run f ops new_set = Some s ∧ to_list fuel s = Some l
    ∧ ∀ k k' v, 2 * Nat.log2 (S (size s)) < k → k ≤ k' →
        ∃ it lb, find k v s = Some it ∧ find k' v s = Some it
          ∧ lower_bound k v s = Some lb ∧ lower_bound k' v s = Some lb
          ∧ (v ∈ l → it ≠ end_ s ∧ deref s it = v)
          ∧ (v ∉ l → it = end_ s).
Proof.
  intros Hf Hfuel. destruct (reach_wf_h ops f Hf) as (s & t & E1 & Hw & Hl).
  pose proof (wf_repr _ _ Hw) as Hz. pose proof (height_le_length t) as Hh.
  assert (Ht : to_list fuel s = Some (values t)) by (apply (to_list_wf _ _ _ Hw); lia).
  exists s, (values t). split_and!; [done|done|].
  intros k k' v Hk Hk'. pose proof (wf_height _ _ Hw) as Hht.
  exists (mkIter (lookup_addr (terminal_ s) v t)), (mkIter (lb_addr v t (terminal_ s))).
  rewrite !(find_addr_h s t), !(lower_bound_addr_h s t) by (done || lia).
  split_and!; [done..| |].
  - intros Hv. apply list_elem_of_fmap in Hv as ([q w] & -> & Hq). cbn [snd].
    rewrite (lookup_addr_present (terminal_ s) _ _ _ (wf_bst _ _ Hw) Hq).
    destruct (elem_in_tree s t q w Hz Hq) as [_ Hd]. split; [|done].
    intros [=E]. by apply (wf_addr_ne _ _ _ _ Hz Hq).
  - intros Hv. by rewrite lookup_addr_absent.
Qed.

Lemma lookups_logarithmic_witness :
  (length scenario < 8 ∧ length scenario < 10)
  ∧ ∃ s l, run 8 scenario new_set = Some s ∧ to_list 10 s = Some l
    ∧ ∀ k k' v, 2 * Nat.log2 (S (size s)) < k → k ≤ k' →
        ∃ it lb, find k v s = Some it ∧ find k' v s = Some it
          ∧ lower_bound k v s = Some lb ∧ lower_bound k' v s = Some lb
          ∧ (v ∈ l → it ≠ end_ s ∧ deref s it = v)
          ∧ (v ∉ l → it = end_ s).
Proof.
  split; [cbn; lia|].
  apply (lookups_logarithmic scenario 8 10); cbn; lia.
Defined.

(** X15. On every set reached from the empty one, the loops of [insert]
    and [erase] (descent, fix-up, and the walks that refresh the cached
    ends) end within [2 * log2 (size() + 1) + 1] rounds each: with that
    many rounds both return, with the stored elements they should have. *)
Theorem updates_logarithmic ops f fuel :
  length ops < f →
  S (length ops) < fuel →
  ∃ s l, run f ops new_set = Some s ∧ to_list fuel s = Some l
    ∧ ∀ k v, 2 * Nat.log2 (S (size s)) < k →
        ∃ s1 l1 s2 l2,
          insert k v s = Some s1 ∧ to_list fuel s1 = Some l1
          ∧ (∀ x, x ∈ l1 ↔ x = v ∨ x ∈ l)
          ∧ erase k v s = Some s2 ∧ to_list fuel s2 = Some l2
          ∧ (∀ x, x ∈ l2 ↔ x ≠ v ∧ x ∈ l).
Proof.
  intros Hf Hfuel. destruct (reach_wf_h ops f Hf) as (s & t & E1 & Hw & Hl).
  pose proof (wf_repr _ _ Hw) as Hz. pose proof (height_le_length t) as Hh.
  assert (Ht : to_list fuel s = Some (values t)) by (apply (to_list_wf _ _ _ Hw); lia).
  exists s, (values t). split_and!; [done|done|].
  intros k v Hk. pose proof (wf_height _ _ Hw) as Hht.
  destruct (insert_effect s t v k Hw) as (s1 & t1 & Ei & Hw1 & _ & _ & Hm1 & Hlen1); [lia|].
  destruct (erase_effect s t v k Hw) as (s2 & t2 & Ee & Hw2 & _ & Hm2 & Hlen2); [lia|].
  exists s1, (values t1), s2, (values t2). split_and!; [done| |done|done| |done].
  - apply (to_list_wf _ _ _ Hw1). rewrite Hlen1. destruct (bool_decide _); lia.
  - apply (to_list_wf _ _ _ Hw2). rewrite Hlen2. destruct (bool_decide _); lia.
Qed.

Lemma updates_logarithmic_witness :
  (length scenario < 8 ∧ S (length scenario) < 10)
  ∧ ∃ s l, run 8 scenario new_set = Some s ∧ to_list 10 s = Some l
    ∧ ∀ k v, 2 * Nat.log2 (S (size s)) < k →
        ∃ s1 l1 s2 l2,
          insert k v s = Some s1 ∧ to_list 10 s1 = Some l1
          ∧ (∀ x, x ∈ l1 ↔ x = v ∨ x ∈ l)
          ∧ erase k v s = Some s2 ∧ to_list 10 s2 = Some l2
          ∧ (∀ x, x ∈ l2 ↔ x ≠ v ∧ x ∈ l).
Proof.
  split; [cbn; lia|].
  apply (updates_logarithmic scenario 8 10); cbn; lia.
Defined.

(** X16. On every set reached from the empty one, iterating from
    [lower_bound(v)] to the end cursor yields, in increasing order, exactly
    the stored elements that are not below [v]: the iteration of the set is
    the elements below [v] followed by this run. *)
Theorem lower_bound_iterates_suffix ops f fuel v :
  length ops < f →
  length ops < fuel →
  ∃ s l it l1 r, run f ops new_set = Some s ∧ to_list fuel s = Some l
    ∧ lower_bound fuel v s = Some it ∧ iterate_from fuel fuel s it = Some r
    ∧ l = l1 ++ r
    ∧ (∀ x, x ∈ l1 → (x < v)%Z) ∧ (∀ x, x ∈ r → (v ≤ x)%Z).
Proof.
  intros Hf Hfuel. destruct (reach_wf_h ops f Hf) as (s & t & E1 & Hw & Hl).
  pose proof (wf_repr _ _ Hw) as Hz. pose proof (height_le_length t) as Hh.
  assert (Ht : to_list fuel s = Some (values t)) by (apply (to_list_wf _ _ _ Hw); lia).
  destruct (lower_bound_iterate_wf s t v fuel Hw) as (it & l1 & r & ? & ? & ? & ? & ?); [lia|].
  by exists s, (values t), it, l1, r.
Qed.

Lemma lower_bound_iterates_suffix_witness :
  (length scenario < 8 ∧ length scenario < 10)
  ∧ ∃ s l it l1 r, run 8 scenario new_set = Some s ∧ to_list 10 s = Some l
    ∧ lower_bound 10 4%Z s = Some it ∧ iterate_from 10 10 s it = Some r
    ∧ l = l1 ++ r
    ∧ (∀ x, x ∈ l1 → (x < 4%Z)%Z) ∧ (∀ x, x ∈ r → (4%Z ≤ x)%Z).
Proof.
  split; [cbn; lia|].
  apply (lower_bound_iterates_suffix scenario 8 10 4%Z); cbn; lia.
Defined.

(** X17. On every set reached from the empty one, the allocated cells
    are the cell of the sentinel and the cells of the nodes of the tree, and
    no other: there are [size() + 1] of them. *)
Theorem cells_owned ops f :
  length ops < f →
  ∃ s, run f ops new_set = Some s
    ∧ (∀ p, p ∈ dom (mem s) ↔ p = terminal_ s ∨ in_tree s p)
    ∧ base.size (dom (mem s)) = S (size s).
Proof.
  intros Hf. destruct (reach_own ops f Hf) as (s & t & E1 & Hw & Hl & Ho).
  exists s. split_and!; [done|exact Ho|by apply (own_count s t)].
Qed.

Lemma cells_owned_witness :
  length scenario < 8
  ∧ ∃ s, run 8 scenario new_set = Some s
    ∧ (∀ p, p ∈ dom (mem s) ↔ p = terminal_ s ∨ in_tree s p)
    ∧ base.size (dom (mem s)) = S (size s).
Proof.
  split; [cbn; lia|].
  apply (cells_owned scenario 8); cbn; lia.
Defined.

(** X18. On every set reached from the empty one, [insert(v)] allocates
    one cell, the node of [v], when [v] is not stored and none when it is;
    [erase(v)] releases the cell of the node that [find(v)] points to when
    [v] is stored and none when it is not. *)
Theorem update_cells ops f fuel v :
  length ops < f →
  length ops < fuel →
  ∃ s l s1 s2, run f ops new_set = Some s ∧ to_list fuel s = Some l
    ∧ insert fuel v s = Some s1 ∧ erase fuel v s = Some s2
    ∧ (v ∈ l → dom (mem s1) = dom (mem s))
    ∧ (v ∉ l →
         ∃ z, (z ∉ dom (mem s)) ∧ dom (mem s1) = {[z]} ∪ dom (mem s)
              ∧ in_tree s1 z ∧ data (s1.[z]) = v)
    ∧ (v ∈ l →
         ∃ it, find fuel v s = Some it ∧ current it ∈ dom (mem s)
               ∧ dom (mem s2) = dom (mem s) ∖ {[current it]})
    ∧ (v ∉ l → dom (mem s2) = dom (mem s)).
Proof.
  intros Hf Hfuel. destruct (reach_own ops f Hf) as (s & t & E1 & Hw & Hl & Ho).
  pose proof (wf_repr _ _ Hw) as Hz. pose proof (height_le_length t) as Hh.
  assert (Ht : to_list fuel s = Some (values t)) by (apply (to_list_wf _ _ _ Hw); lia).
  destruct (insert_effect s t v fuel Hw) as (s1 & t1 & Ei & _); [lia|].
  destruct (erase_effect s t v fuel Hw) as (s2 & t2 & Ee & _); [lia|].
  exists s, (values t), s1, s2. split_and!; [done|done|done|done|..].
  - intros Hv. rewrite (insert_dup_h s t) in Ei by (done || lia). by injection Ei as <-.
  - intros Hv.
    destruct (insert_new_cell s t v fuel Hw Ho Hv)
      as (s1' & t1' & L1 & L2 & Ei' & Hw1 & He & He1 & Et & Hd); [lia|].
    rewrite Ei in Ei'. injection Ei' as <-.
    exists (fresh (dom (mem s))). split; [apply is_fresh|]. split; [done|].
    apply (elem_in_tree s1 t1' _ v (wf_repr _ _ Hw1)). rewrite He1.
    apply elem_of_app. right. by left.
  - intros Hv. destruct (erase_cell s t v fuel Hw Hv) as (z & s2' & Efd & Ee' & Hzd & Hd);
      [lia|].
    rewrite Ee in Ee'. injection Ee' as <-. by exists (mkIter z).
  - intros Hv. rewrite (erase_absent_h s t) in Ee by (done || lia). by injection Ee as <-.
Qed.

Lemma update_cells_witness :
  (length scenario < 8 ∧ length scenario < 10)
  ∧ ∃ s l s1 s2, run 8 scenario new_set = Some s ∧ to_list 10 s = Some l
    ∧ insert 10 6%Z s = Some s1 ∧ erase 10 6%Z s = Some s2
    ∧ (6%Z ∈ l → dom (mem s1) = dom (mem s))
    ∧ (6%Z ∉ l →
         ∃ z, (z ∉ dom (mem s)) ∧ dom (mem s1) = {[z]} ∪ dom (mem s)
              ∧ in_tree s1 z ∧ data (s1.[z]) = 6%Z)
    ∧ (6%Z ∈ l →
         ∃ it, find 10 6%Z s = Some it ∧ current it ∈ dom (mem s)
               ∧ dom (mem s2) = dom (mem s) ∖ {[current it]})
    ∧ (6%Z ∉ l → dom (mem s2) = dom (mem s)).
Proof.
  split; [cbn; lia|].
  apply (update_cells scenario 8 10 6%Z); cbn; lia.
Defined.

(** X19. On every set reached from the empty one, neither [insert] nor
    [erase] moves the sentinel: the end cursor taken before the call is
    the end cursor after it. *)
Theorem end_stays ops f fuel v :
  length ops < f →
  length ops < fuel →
  ∃ s s1 s2, run f ops new_set = Some s
    ∧ insert fuel v s = Some s1 ∧ erase fuel v s = Some s2
    ∧ end_ s1 = end_ s ∧ end_ s2 = end_ s.
Proof.
  intros Hf Hfuel. destruct (reach_wf_h ops f Hf) as (s & t & E1 & Hw & Hl).
  pose proof (height_le_length t) as Hh.
  destruct (insert_terminal s t v fuel Hw) as (s1 & Ei & Et1); [lia|].
  destruct (erase_terminal s t v fuel Hw) as (s2 & Ee & Et2); [lia|].
  exists s, s1, s2. unfold end_. by rewrite Et1, Et2.
Qed.

Lemma end_stays_witness :
  (length scenario < 8 ∧ length scenario < 10)
  ∧ ∃ s s1 s2, run 8 scenario new_set = Some s
    ∧ insert 10 6%Z s = Some s1 ∧ erase 10 6%Z s = Some s2
    ∧ end_ s1 = end_ s ∧ end_ s2 = end_ s.
Proof.
  split; [cbn; lia|].
  apply (end_stays scenario 8 10 6%Z); cbn; lia.
Defined.
